(** * cwlogs-writable: a shallow embedding of [lib/index.js]

    The development follows the source file top to bottom:

    - JavaScript values as far as the stream looks at them, log events and
      [createLogEvent];
    - option validation and the constructor;
    - the batch planner [nextLogBatchSize];
    - the callback-driven delivery cycle ([_write], [_sendLogs],
      [_putLogEvents], [_getSequenceToken], [_nextAfterError],
      [_handleError]) as a deterministic step function over the stream
      object and the set of outstanding callbacks;
    - the properties of the specification, one theorem each.

    A finite number is a rational (every finite double is one), and the
    three values that are not finite are kept apart.  A JavaScript string
    is a sequence of UTF-16 code units; a character of [string] stands for
    the code unit of the same number, so that the strings of this
    development are the JavaScript strings whose code units are below 256,
    and [String.length] is their [length] property. *)

From Stdlib Require Import ZArith QArith Qround Qabs List String Bool Lia Lqa.
Import ListNotations.
Open Scope string_scope.
Open Scope list_scope.
Open Scope Z_scope.

Set Implicit Arguments.
Set Warnings "-register-all".

(** ** JavaScript values *)

(** A value of type number. *)
Inductive JSNumber : Type :=
| Fin (q : Q)
| NaN
| PosInf
| NegInf.
Arguments Fin q%_Q.

(** An integer as a number. *)
Definition ofZ (z : Z) : JSNumber := Fin (inject_Z z).

(** [a < b], [a <= b], [a > b] and [a >= b] on numbers: every comparison
    with NaN is false. *)
Definition num_lt (a b : JSNumber) : bool :=
  match a, b with
  | Fin x, Fin y => negb (Qle_bool y x)
  | Fin _, PosInf => true
  | NegInf, Fin _ => true
  | NegInf, PosInf => true
  | _, _ => false
  end.

Definition num_le (a b : JSNumber) : bool :=
  match a, b with
  | Fin x, Fin y => Qle_bool x y
  | Fin _, PosInf => true
  | NegInf, Fin _ => true
  | NegInf, PosInf => true
  | NegInf, NegInf => true
  | PosInf, PosInf => true
  | _, _ => false
  end.

Definition num_gt (a b : JSNumber) : bool := num_lt b a.

Definition num_ge (a b : JSNumber) : bool := num_le b a.

(** The same number: a rational has more than one fraction that stands for
    it. *)
Definition num_eq (a b : JSNumber) : Prop :=
  match a, b with
  | Fin x, Fin y => (x == y)%Q
  | NaN, NaN | PosInf, PosInf | NegInf, NegInf => True
  | _, _ => False
  end.

(** [Math.max(a, b)] and [Math.min(a, b)]: NaN when an argument is NaN. *)
Definition Math_max (a b : JSNumber) : JSNumber :=
  match a, b with
  | NaN, _ | _, NaN => NaN
  | _, _ => if num_lt a b then b else a
  end.

Definition Math_min (a b : JSNumber) : JSNumber :=
  match a, b with
  | NaN, _ | _, NaN => NaN
  | _, _ => if num_lt b a then b else a
  end.

(** A value.  Of an object the model keeps the properties that the stream
    reads ([rec.time] of a record); whatever else there is to it (other
    properties, cycles, a [toJSON] method) shows in what [JSON.stringify]
    and [new Date] make of it, which are left open below.  [JFun] is a
    function that is written to the stream as a record. *)
Inductive JSValue : Type :=
| JUndefined
| JNull
| JBool (b : bool)
| JNum (x : JSNumber)
| JBigInt (n : Z)
| JSymbol
| JStr (s : string)
| JFun
| JObj (fields : list (string * JSValue)).

Inductive JSType :=
| TUndefined | TObject | TBoolean | TNumber | TBigInt | TSymbol | TString | TFunction.

Definition typeof (v : JSValue) : JSType :=
  match v with
  | JUndefined => TUndefined
  | JNull => TObject
  | JBool _ => TBoolean
  | JNum _ => TNumber
  | JBigInt _ => TBigInt
  | JSymbol => TSymbol
  | JStr _ => TString
  | JFun => TFunction
  | JObj _ => TObject
  end.

Definition JSType_eqb (a b : JSType) : bool :=
  match a, b with
  | TUndefined, TUndefined | TObject, TObject | TBoolean, TBoolean
  | TNumber, TNumber | TBigInt, TBigInt | TSymbol, TSymbol
  | TString, TString | TFunction, TFunction => true
  | _, _ => false
  end.

(** ToBoolean. *)
Definition truthy (v : JSValue) : bool :=
  match v with
  | JUndefined | JNull | JNum NaN => false
  | JBool b => b
  | JNum (Fin q) => negb (Qeq_bool q 0)
  | JBigInt n => negb (n =? 0)
  | JStr s => negb (String.eqb s EmptyString)
  | JNum PosInf | JNum NegInf | JSymbol | JFun | JObj _ => true
  end.

(** Property lookup in an object; the first binding of a key is the one
    that counts. *)
Fixpoint lookup (k : string) (fields : list (string * JSValue)) : option JSValue :=
  match fields with
  | [] => None
  | (k', v) :: rest => if String.eqb k' k then Some v else lookup k rest
  end.

(** [v.k] for a value that is not [null] or [undefined]: a primitive has no
    such property. *)
Definition getProp (v : JSValue) (k : string) : JSValue :=
  match v with
  | JObj fields => match lookup k fields with Some x => x | None => JUndefined end
  | _ => JUndefined
  end.

(** The outcome of a call that may throw. *)
Inductive Completion (A : Type) : Type :=
| Normal (a : A)
| Throw (msg : string).
Arguments Normal {A} a.
Arguments Throw {A} msg.

(** ** The runtime library

    [JSON.stringify] and the conversion done by [new Date(v)] for a value
    that is not a number belong to the JavaScript runtime, not to this
    repository; they are taken as given, whatever they are.
    [JSON.stringify] returns a string, or [undefined] ([None]: for a
    function, a symbol, [undefined]), or throws (a cycle, a BigInt, a
    [toJSON] that throws).  A time value is [None] for NaN (an invalid
    date); the conversion of an object may run code of the application and
    throw. *)

Record Runtime : Type := {
  JSON_stringify : JSValue -> Completion (option string);
  Date_parse : JSValue -> Completion (option Z)
}.

(** ToIntegerOrInfinity of a finite number: the fraction is dropped. *)
Definition truncate (q : Q) : Z := Z.quot (Qnum q) (Zpos (Qden q)).

(** [new Date(v).getTime()]: a number is its own time value when it lies
    within the range of a Date, with the fraction dropped (TimeClip). *)
Definition Date_getTime (rt : Runtime) (v : JSValue) : Completion (option Z) :=
  match v with
  | JNum (Fin q) =>
      if Qle_bool (Qabs q) (inject_Z 8640000000000000)
      then Normal (Some (truncate q))
      else Normal None
  | JNum _ => Normal None
  | _ => Date_parse rt v
  end.

(** ** Log events *)

(** [message] is a string or [undefined] ([None]); [timestamp] is a time
    value or NaN ([None]). *)
Record LogEvent : Type := {
  message : option string;
  timestamp : option Z
}.

(** [CWLogsWritable.prototype.createLogEvent]; [now] is [Date.now()].  The
    message is computed first.  Reading [rec.time] of [null] is a
    TypeError. *)
Definition createLogEvent (rt : Runtime) (now : Z) (rec : JSValue) : Completion LogEvent :=
  match (match rec with JStr s => Normal (Some s) | _ => JSON_stringify rt rec end) with
  | Throw msg => Throw msg
  | Normal m =>
      if JSType_eqb (typeof rec) TObject then
        match rec with
        | JNull => Throw "TypeError: Cannot read property 'time' of null"
        | _ =>
            if truthy (getProp rec "time") then
              match Date_getTime rt (getProp rec "time") with
              | Throw msg => Throw msg
              | Normal t => Normal {| message := m; timestamp := t |}
              end
            else Normal {| message := m; timestamp := Some now |}
        end
      else Normal {| message := m; timestamp := Some now |}
  end.

(** [CWLogsWritable.prototype.filterWrite]: [rec != null].  A filter
    returns (what counts is whether the result is truthy) or throws. *)
Definition filterWrite_default (rec : JSValue) : Completion bool :=
  match rec with
  | JUndefined | JNull => Normal false
  | _ => Normal true
  end.

(** [CWLogsWritable._falseFilterWrite]. *)
Definition _falseFilterWrite (rec : JSValue) : Completion bool := Normal false.

(** [CWLogsWritable.prototype.getMessageSize]: [message.length], the
    number of code units of the message, and a TypeError when the message
    is [undefined]. *)
Definition getMessageSize_default (m : option string) : Completion Z :=
  match m with
  | Some s => Normal (Z.of_nat (String.length s))
  | None => Throw "TypeError: Cannot read property 'length' of undefined"
  end.

(** ** Options and their validation *)

(** A function-valued option: what was passed is either a value that is
    not a function, of which the code only tests whether it is truthy, or
    a function, given by its behaviour. *)
Inductive FunOption (F : Type) : Type :=
| NotAFunction (isTruthy : bool)
| AFunction (f : F).
Arguments NotAFunction {F} isTruthy.
Arguments AFunction {F} f.

(** The recovery hook in force: the prototype's [onError], which calls
    [next(err)] on the spot; a function of the host application, whose
    calls of [next] are events of the environment; or a value that is not a
    function, the call of which is a TypeError. *)
Inductive Hook := DefaultOnError | UserOnError | NotCallable.

(** What [options] finds on its prototype chain under the names it has no
    own property for: [undefined] where there is nothing, as for an object
    literal.  ([objectMode] goes to the [Writable] constructor only.) *)
Record Inherited : Type := {
  i_writeInterval : JSValue;
  i_retryableMax : JSValue;
  i_retryableDelay : JSValue;
  i_maxBatchCount : JSValue;
  i_maxBatchSize : JSValue;
  i_onError : FunOption unit;
  i_filterWrite : FunOption (JSValue -> Completion bool)
}.

(** The [options] object.  [logGroupName] and [logStreamName] are what
    reading them gives; for the others [None] says that [options] has no
    own property of that name, and [o_inherited] is what reading it then
    gives. *)
Record Options : Type := {
  o_logGroupName : JSValue;
  o_logStreamName : JSValue;
  o_objectMode : option JSValue;
  o_writeInterval : option JSValue;
  o_retryableMax : option JSValue;
  o_retryableDelay : option JSValue;
  o_maxBatchCount : option JSValue;
  o_maxBatchSize : option JSValue;
  o_onError : option (FunOption unit);
  o_filterWrite : option (FunOption (JSValue -> Completion bool));
  o_inherited : Inherited
}.

(** The prototype chain of an object literal. *)
Definition nothingInherited : Inherited :=
  {| i_writeInterval := JUndefined;
     i_retryableMax := JUndefined;
     i_retryableDelay := JUndefined;
     i_maxBatchCount := JUndefined;
     i_maxBatchSize := JUndefined;
     i_onError := NotAFunction false;
     i_filterWrite := NotAFunction false |}.

(** [options.k]: the own property, or else what the chain gives. *)
Definition readOption {A} (own : option A) (inherited : A) : A :=
  match own with Some v => v | None => inherited end.

(** [isFiniteNumber] *)
Definition isFiniteNumber (v : JSValue) : bool :=
  match v with JNum (Fin _) => true | _ => false end.

(** [isInterval] *)
Definition isInterval (v : JSValue) : bool :=
  match v with
  | JStr s => String.eqb s "nextTick"
  | JNum (Fin q) => Qle_bool 0 q
  | _ => false
  end.

Definition isFunction {F} (v : FunOption F) : bool :=
  match v with AFunction _ => true | NotAFunction _ => false end.

(** [hasOwnProperty.call(options, k) && bad(options[k])] *)
Definition ownAnd {A} (o : option A) (bad : A -> bool) : bool :=
  match o with Some v => bad v | None => false end.

(** [v < bound] and [v > bound]; in [validateOptions] they are reached with
    a finite number only. *)
Definition numLt (v : JSValue) (bound : Z) : bool :=
  match v with JNum x => num_lt x (ofZ bound) | _ => false end.

Definition numGt (v : JSValue) (bound : Z) : bool :=
  match v with JNum x => num_gt x (ofZ bound) | _ => false end.

(** The double quote, which the two messages about intervals contain around
    [nextTick]. *)
Definition doubleQuote : string :=
  String (Ascii.Ascii false true false false false true false false) EmptyString.

Definition intervalMessage (name : string) : string :=
  String.append name
    (String.append " option must be a positive number or "
       (String.append doubleQuote
          (String.append "nextTick"
             (String.append doubleQuote ", if specified")))).

(** [CWLogsWritable.prototype.validateOptions]: [None] when nothing is
    thrown, otherwise the message of the Error.  The argument is [None]
    when what was passed is falsy or not an object. *)
Definition validateOptions (options : option Options) : option string :=
  match options with
  | None => Some "options must be an object"
  | Some o =>
    if negb (JSType_eqb (typeof (o_logGroupName o)) TString) then
      Some "logGroupName option must be a string"
    else if negb (JSType_eqb (typeof (o_logStreamName o)) TString) then
      Some "logStreamName option must be a string"
    else if ownAnd (o_objectMode o) (fun v => negb (JSType_eqb (typeof v) TBoolean)) then
      Some "objectMode option must be a boolean, if specified"
    else if ownAnd (o_writeInterval o) (fun v => negb (isInterval v)) then
      Some (intervalMessage "writeInterval")
    else if ownAnd (o_retryableMax o) (fun v => negb (isFiniteNumber v) || numLt v 1) then
      Some "retryableMax option must be a non-zero positive number, if specified"
    else if ownAnd (o_retryableDelay o) (fun v => negb (isInterval v)) then
      Some (intervalMessage "retryableDelay")
    else if ownAnd (o_maxBatchCount o)
              (fun v => negb (isFiniteNumber v) || numLt v 1 || numGt v 10000) then
      Some "maxBatchCount option must be a positive number from 1 to 10000, if specified"
    else if ownAnd (o_maxBatchSize o)
              (fun v => negb (isFiniteNumber v) || numLt v 256 || numGt v 1048576) then
      Some "maxBatchSize option must be a positive number from 256 to 1048576, if specified"
    else if ownAnd (o_onError o) (fun v => negb (isFunction v)) then
      Some "onError option must be a function, if specified"
    else if ownAnd (o_filterWrite o) (fun v => negb (isFunction v)) then
      Some "filterWrite option must be a function, if specified"
    else None
  end.

(** ** The stream object and its constructor *)

(** ['nextTick'] or a number of milliseconds. *)
Inductive Interval := NextTick | Millis (ms : JSNumber).

(** The sequence token as the stream holds it: [null], or what the service
    handed over, which for a stream that was never written to is
    [undefined]. *)
Inductive SeqToken := TokNull | TokUndefined | TokStr (s : string).

Definition isNullToken (t : SeqToken) : bool :=
  match t with TokNull => true | _ => false end.

(** The fields of a [CWLogsWritable] instance.  [filterWrite] and
    [getMessageSize] are methods that an application may replace, so they are
    carried by the instance; [onError] says which recovery hook is in force;
    [errorListener] says whether a listener for ['error'] is registered on
    the stream. *)
Record CWLogsWritable : Type := {
  _onErrorNextCbId : Z;
  sequenceToken : SeqToken;
  writeQueued : bool;
  queuedLogs : list LogEvent;
  logGroupName : JSValue;
  logStreamName : JSValue;
  writeInterval : Interval;
  retryableMax : JSNumber;
  retryableDelay : Interval;
  maxBatchCount : JSNumber;
  maxBatchSize : JSNumber;
  onError : Hook;
  filterWrite : JSValue -> Completion bool;
  getMessageSize : option string -> Completion Z;
  errorListener : bool
}.

(** The constructor [CWLogsWritable(options)]: the Error of
    [validateOptions] or the new instance.  Each option is read as
    [options.k], own or inherited; a new stream has no listeners.  The last
    statement, [createService], builds the client of the AWS SDK from
    [options.cloudWatchLogsOptions]; the client belongs to the environment,
    its answers are the events of the step function below, and building it
    is taken to return. *)
Definition CWLogsWritable_new (options : option Options) : Completion CWLogsWritable :=
  match validateOptions options, options with
  | Some msg, _ => Throw msg
  | None, None => Throw "options must be an object"
  | None, Some o =>
    let inherited := o_inherited o in
    Normal {|
      _onErrorNextCbId := 1;
      sequenceToken := TokNull;
      writeQueued := false;
      queuedLogs := [];
      logGroupName := o_logGroupName o;
      logStreamName := o_logStreamName o;
      writeInterval :=
        match readOption (o_writeInterval o) (i_writeInterval inherited) with
        | JNum x => Millis x
        | _ => NextTick
        end;
      retryableMax :=
        match readOption (o_retryableMax o) (i_retryableMax inherited) with
        | JNum x => Math_max (Fin 0) x
        | _ => Fin 100
        end;
      retryableDelay :=
        match readOption (o_retryableDelay o) (i_retryableDelay inherited) with
        | JStr s => if String.eqb s "nextTick" then NextTick else Millis (Fin 150)
        | JNum x => Millis x
        | _ => Millis (Fin 150)
        end;
      maxBatchCount :=
        match readOption (o_maxBatchCount o) (i_maxBatchCount inherited) with
        | JNum x => Math_min (Fin 10000) (Math_max (Fin 1) x)
        | _ => Fin 10000
        end;
      maxBatchSize :=
        match readOption (o_maxBatchSize o) (i_maxBatchSize inherited) with
        | JNum x => Math_min (Fin 1048576) (Math_max (Fin 1024) x)
        | _ => Fin 1048576
        end;
      onError :=
        match readOption (o_onError o) (i_onError inherited) with
        | AFunction _ => UserOnError
        | NotAFunction isTruthy => if isTruthy then NotCallable else DefaultOnError
        end;
      filterWrite :=
        match readOption (o_filterWrite o) (i_filterWrite inherited) with
        | AFunction f => f
        | NotAFunction isTruthy =>
            if isTruthy
            then fun _ => Throw "TypeError: this.filterWrite is not a function"
            else filterWrite_default
        end;
      getMessageSize := getMessageSize_default;
      errorListener := false
    |}
  end.

(** ** The batch planner *)

Section Planner.

Variable this : CWLogsWritable.

(** The body of the [for] loop of [nextLogBatchSize], from index [i] on:
    [rest] is what remains of [queuedLogs] at [i]. *)
Fixpoint nextLogBatchSize_from (i batchCount : nat) (sizeEstimate : Z)
         (rest : list LogEvent) : Completion nat :=
  match rest with
  | [] => Normal batchCount
  | ev :: rest' =>
      match getMessageSize this (message ev) with
      | Throw msg => Throw msg
      | Normal size =>
          let sizeEstimate := sizeEstimate + (26 + size) in
          if num_gt (ofZ sizeEstimate) (maxBatchSize this)
             || num_ge (ofZ (Z.of_nat batchCount)) (maxBatchCount this)
          then Normal batchCount
          else nextLogBatchSize_from (S i) (S i) sizeEstimate rest'
      end
  end.

(** [CWLogsWritable.prototype.nextLogBatchSize] *)
Definition nextLogBatchSize (queuedLogs : list LogEvent) : Completion nat :=
  nextLogBatchSize_from 0 1 0 queuedLogs.

(** The cost the planner charges for a list of events, when it can measure
    every message. *)
Fixpoint batchCost (evs : list LogEvent) : option Z :=
  match evs with
  | [] => Some 0
  | ev :: rest =>
      match getMessageSize this (message ev), batchCost rest with
      | Normal size, Some c => Some (26 + size + c)
      | _, _ => None
      end
  end.

(** A prefix of [k] events is within both caps: its cost does not exceed
    [maxBatchSize] and its length does not exceed [maxBatchCount]. *)
Definition withinCaps (k : nat) (queuedLogs : list LogEvent) : Prop :=
  exists c,
    batchCost (firstn k queuedLogs) = Some c
    /\ num_le (ofZ c) (maxBatchSize this) = true
    /\ num_le (ofZ (Z.of_nat k)) (maxBatchCount this) = true.

End Planner.

(** ** The service, the notifications and the outstanding callbacks *)

(** An Error as the stream looks at it: [err.name] and [err.retryable]. *)
Record JSError : Type := {
  err_name : string;
  err_retryable : bool
}.

(** What [describeLogStreams] answers: an error, or [data.logStreams], of
    which only [uploadSequenceToken] is read. *)
Inductive DescribeResponse :=
| DescribeErr (err : JSError)
| DescribeOk (logStreams : list SeqToken).

(** What [putLogEvents] answers: an error, or [res.nextSequenceToken]. *)
Inductive PutResponse :=
| PutErr (err : JSError)
| PutOk (nextSequenceToken : SeqToken).

(** [apiParams] of [_sendLogs]. *)
Record ApiParams : Type := {
  ap_logGroupName : JSValue;
  ap_logStreamName : JSValue;
  ap_sequenceToken : SeqToken;
  ap_logEvents : list LogEvent
}.

(** A call made on [this.cloudwatch]. *)
Inductive DestCall :=
| CallDescribeLogStreams
| CallCreateLogGroup
| CallCreateLogStream
| CallPutLogEvents (apiParams : ApiParams).

(** A call of [this.emit]. *)
Inductive Notification :=
| EmitCreateLogGroup
| EmitCreateLogStream
| EmitPutLogEvents (logEvents : list LogEvent)
| EmitError (err : JSError).

(** One call [this.onError(err, logEvents, next)]; [hc_next] is the id that
    [next] was bound to. *)
Record HookCall : Type := {
  hc_err : JSError;
  hc_logEvents : option (list LogEvent);
  hc_next : Z
}.

(** What escapes a callback or a method of the stream: an Error object that
    was emitted as ['error'] with no listener registered, or an exception
    raised by the runtime. *)
Inductive Thrown :=
| ThrownError (err : JSError)
| ThrownMessage (msg : string).

(** The argument [next] is called with: an Error, an array of log events, or
    nothing (any falsy value). *)
Inductive NextArg :=
| NextNothing
| NextError (err : JSError)
| NextEvents (logEvents : list LogEvent).

(** A callback that is outstanding: a timer set by [_scheduleSendLogs] or by
    the retry of [attemptPut], or a call of the service that has not
    answered yet. *)
Inductive Pending :=
| PSendLogs
| PDescribeLogStreams
| PCreateLogGroup
| PCreateLogStream (viaGroup : bool)
| PPutLogEvents (apiParams : ApiParams) (retries : Z)
| PAttemptPut (apiParams : ApiParams) (retries : Z).

(** The stream together with what surrounds it: the outstanding callbacks,
    and, in order, the calls made on the service, the events emitted, the
    calls of the recovery hook and the exceptions that escaped. *)
Record World : Type := {
  self : CWLogsWritable;
  pending : list Pending;
  calls : list DestCall;
  emitted : list Notification;
  hookCalls : list HookCall;
  thrown : list Thrown
}.

(** *** Assignments to the fields *)

Definition set_onErrorNextCbId (v : Z) (s : CWLogsWritable) : CWLogsWritable :=
  {| _onErrorNextCbId := v;
     sequenceToken := sequenceToken s;
     writeQueued := writeQueued s;
     queuedLogs := queuedLogs s;
     logGroupName := logGroupName s;
     logStreamName := logStreamName s;
     writeInterval := writeInterval s;
     retryableMax := retryableMax s;
     retryableDelay := retryableDelay s;
     maxBatchCount := maxBatchCount s;
     maxBatchSize := maxBatchSize s;
     onError := onError s;
     filterWrite := filterWrite s;
     getMessageSize := getMessageSize s;
     errorListener := errorListener s |}.

Definition set_sequenceToken (v : SeqToken) (s : CWLogsWritable) : CWLogsWritable :=
  {| _onErrorNextCbId := _onErrorNextCbId s;
     sequenceToken := v;
     writeQueued := writeQueued s;
     queuedLogs := queuedLogs s;
     logGroupName := logGroupName s;
     logStreamName := logStreamName s;
     writeInterval := writeInterval s;
     retryableMax := retryableMax s;
     retryableDelay := retryableDelay s;
     maxBatchCount := maxBatchCount s;
     maxBatchSize := maxBatchSize s;
     onError := onError s;
     filterWrite := filterWrite s;
     getMessageSize := getMessageSize s;
     errorListener := errorListener s |}.

Definition set_writeQueued (v : bool) (s : CWLogsWritable) : CWLogsWritable :=
  {| _onErrorNextCbId := _onErrorNextCbId s;
     sequenceToken := sequenceToken s;
     writeQueued := v;
     queuedLogs := queuedLogs s;
     logGroupName := logGroupName s;
     logStreamName := logStreamName s;
     writeInterval := writeInterval s;
     retryableMax := retryableMax s;
     retryableDelay := retryableDelay s;
     maxBatchCount := maxBatchCount s;
     maxBatchSize := maxBatchSize s;
     onError := onError s;
     filterWrite := filterWrite s;
     getMessageSize := getMessageSize s;
     errorListener := errorListener s |}.

Definition set_queuedLogs (v : list LogEvent) (s : CWLogsWritable) : CWLogsWritable :=
  {| _onErrorNextCbId := _onErrorNextCbId s;
     sequenceToken := sequenceToken s;
     writeQueued := writeQueued s;
     queuedLogs := v;
     logGroupName := logGroupName s;
     logStreamName := logStreamName s;
     writeInterval := writeInterval s;
     retryableMax := retryableMax s;
     retryableDelay := retryableDelay s;
     maxBatchCount := maxBatchCount s;
     maxBatchSize := maxBatchSize s;
     onError := onError s;
     filterWrite := filterWrite s;
     getMessageSize := getMessageSize s;
     errorListener := errorListener s |}.

Definition set_filterWrite (v : JSValue -> Completion bool) (s : CWLogsWritable)
  : CWLogsWritable :=
  {| _onErrorNextCbId := _onErrorNextCbId s;
     sequenceToken := sequenceToken s;
     writeQueued := writeQueued s;
     queuedLogs := queuedLogs s;
     logGroupName := logGroupName s;
     logStreamName := logStreamName s;
     writeInterval := writeInterval s;
     retryableMax := retryableMax s;
     retryableDelay := retryableDelay s;
     maxBatchCount := maxBatchCount s;
     maxBatchSize := maxBatchSize s;
     onError := onError s;
     filterWrite := v;
     getMessageSize := getMessageSize s;
     errorListener := errorListener s |}.

(** [on('error', listener)] and [removeListener]: what counts is whether a
    listener is registered afterwards. *)
Definition set_errorListener (v : bool) (s : CWLogsWritable) : CWLogsWritable :=
  {| _onErrorNextCbId := _onErrorNextCbId s;
     sequenceToken := sequenceToken s;
     writeQueued := writeQueued s;
     queuedLogs := queuedLogs s;
     logGroupName := logGroupName s;
     logStreamName := logStreamName s;
     writeInterval := writeInterval s;
     retryableMax := retryableMax s;
     retryableDelay := retryableDelay s;
     maxBatchCount := maxBatchCount s;
     maxBatchSize := maxBatchSize s;
     onError := onError s;
     filterWrite := filterWrite s;
     getMessageSize := getMessageSize s;
     errorListener := v |}.

Definition onSelf (f : CWLogsWritable -> CWLogsWritable) (w : World) : World :=
  {| self := f (self w); pending := pending w; calls := calls w;
     emitted := emitted w; hookCalls := hookCalls w; thrown := thrown w |}.

Definition setPending (l : list Pending) (w : World) : World :=
  {| self := self w; pending := l; calls := calls w;
     emitted := emitted w; hookCalls := hookCalls w; thrown := thrown w |}.

Definition addPending (p : Pending) (w : World) : World :=
  setPending (pending w ++ [p]) w.

Definition call (c : DestCall) (w : World) : World :=
  {| self := self w; pending := pending w; calls := calls w ++ [c];
     emitted := emitted w; hookCalls := hookCalls w; thrown := thrown w |}.

(** A call of [this.emit]: the call is recorded; the listeners of the
    application are taken to return.  What [emit] does with ['error'] when
    no listener is registered is in [_handleError]. *)
Definition emit (n : Notification) (w : World) : World :=
  {| self := self w; pending := pending w; calls := calls w;
     emitted := emitted w ++ [n]; hookCalls := hookCalls w; thrown := thrown w |}.

Definition invokeHook (h : HookCall) (w : World) : World :=
  {| self := self w; pending := pending w; calls := calls w;
     emitted := emitted w; hookCalls := hookCalls w ++ [h]; thrown := thrown w |}.

(** An exception leaves the method that is running and every caller up to
    the event loop or the application.  In this file a statement that can
    throw is always the last one that runs, in its method and in the
    callers, so that throwing is recording what was thrown and doing
    nothing more. *)
Definition raise (x : Thrown) (w : World) : World :=
  {| self := self w; pending := pending w; calls := calls w;
     emitted := emitted w; hookCalls := hookCalls w; thrown := thrown w ++ [x] |}.

(** The world right after the constructor returned [this]. *)
Definition newWorld (this : CWLogsWritable) : World :=
  {| self := this; pending := []; calls := []; emitted := []; hookCalls := [];
     thrown := [] |}.

(** ** The methods *)

(** [_scheduleSendLogs]: [process.nextTick] or [setTimeout], either way one
    more timer that will call [_sendLogs]. *)
Definition _scheduleSendLogs (w : World) : World := addPending PSendLogs w.

(** [clearQueue]; the old queue is what the method returns. *)
Definition clearQueue (w : World) : list LogEvent * World :=
  (queuedLogs (self w), onSelf (set_queuedLogs []) w).

(** [_handleError].  With no listener for ['error'] registered, [emit]
    throws the Error it was given, and the two statements after it are not
    reached. *)
Definition _handleError (err : JSError) (w : World) : World :=
  let w := emit (EmitError err) w in
  if errorListener (self w) then
    let w := snd (clearQueue w) in
    onSelf (set_filterWrite _falseFilterWrite) w
  else raise (ThrownError err) w.

(** [_nextAfterError].  With an empty queue the array handed to [next]
    becomes the queue itself; the model records the contents of an array at
    the time of each call and notification. *)
Definition _nextAfterError (id : Z) (errOrLogEvents : NextArg) (w : World) : World :=
  if negb (_onErrorNextCbId (self w) =? id) then w
  else
    let w := onSelf (set_onErrorNextCbId (_onErrorNextCbId (self w) + 1)) w in
    let w := onSelf (set_sequenceToken TokNull) w in
    match errOrLogEvents with
    | NextError err => _handleError err w
    | NextEvents logEvents =>
        let w :=
          match queuedLogs (self w) with
          | [] => onSelf (set_queuedLogs logEvents) w
          | _ :: _ => onSelf (set_queuedLogs (logEvents ++ queuedLogs (self w))) w
          end in
        _scheduleSendLogs w
    | NextNothing => _scheduleSendLogs w
    end.

(** [this.onError(err, logEvents, this._nextAfterError.bind(this, id))]: the
    arguments are evaluated and the call is made, which [hookCalls] records.
    The prototype's hook calls [next(err)] before it returns; a hook of the
    application keeps [next], returns, and calls [next] when it sees fit; a
    value that is not a function makes the call a TypeError, and the
    [next] that was bound for it is lost. *)
Definition callOnError (err : JSError) (logEvents : option (list LogEvent)) (id : Z)
           (w : World) : World :=
  let w := invokeHook {| hc_err := err; hc_logEvents := logEvents; hc_next := id |} w in
  match onError (self w) with
  | DefaultOnError => _nextAfterError id (NextError err) w
  | UserOnError => w
  | NotCallable => raise (ThrownMessage "TypeError: this.onError is not a function") w
  end.

(** A failure reaches the callbacks of [_sendLogs]: the counter is
    incremented, then the hook is called with [next] bound to the new
    value. *)
Definition failWith (err : JSError) (logEvents : option (list LogEvent)) (w : World) : World :=
  let w := onSelf (set_onErrorNextCbId (_onErrorNextCbId (self w) + 1)) w in
  callOnError err logEvents (_onErrorNextCbId (self w)) w.

(** [attemptPut] inside [_putLogEvents]: one call of [putLogEvents]. *)
Definition attemptPut (apiParams : ApiParams) (retries : Z) (w : World) : World :=
  addPending (PPutLogEvents apiParams retries) (call (CallPutLogEvents apiParams) w).

(** [_putLogEvents] *)
Definition _putLogEvents (apiParams : ApiParams) (w : World) : World :=
  attemptPut apiParams 0 w.

(** [_getSequenceToken]: one call of [describeLogStreams]. *)
Definition _getSequenceToken (w : World) : World :=
  addPending PDescribeLogStreams (call CallDescribeLogStreams w).

(** [_createLogGroup] and [_createLogStream] *)
Definition _createLogGroup (w : World) : World :=
  addPending PCreateLogGroup (call CallCreateLogGroup w).

Definition _createLogStream (viaGroup : bool) (w : World) : World :=
  addPending (PCreateLogStream viaGroup) (call CallCreateLogStream w).

(** [_createLogGroupAndStream] starts with [_createLogGroup]; what its
    callbacks do is in [createLogGroupAnswered] and
    [createLogStreamAnswered] below. *)
Definition _createLogGroupAndStream (w : World) : World := _createLogGroup w.

(** [_emitPutLogEvents], [_emitCreateLogGroup], [_emitCreateLogStream] *)
Definition _emitPutLogEvents (logEvents : list LogEvent) (w : World) : World :=
  emit (EmitPutLogEvents logEvents) w.

Definition _emitCreateLogGroup (w : World) : World := emit EmitCreateLogGroup w.

Definition _emitCreateLogStream (w : World) : World := emit EmitCreateLogStream w.

(** [_sendLogs].  When [getMessageSize] throws, [nextLogBatchSize] does, and
    nothing after it is reached. *)
Definition _sendLogs (w : World) : World :=
  if isNullToken (sequenceToken (self w)) then _getSequenceToken w
  else
    match queuedLogs (self w) with
    | [] => onSelf (set_writeQueued false) w
    | _ :: _ =>
        let q := queuedLogs (self w) in
        match nextLogBatchSize (self w) q with
        | Throw msg => raise (ThrownMessage msg) w
        | Normal batchCount =>
            let apiParams logEvents :=
              {| ap_logGroupName := logGroupName (self w);
                 ap_logStreamName := logStreamName (self w);
                 ap_sequenceToken := sequenceToken (self w);
                 ap_logEvents := logEvents |} in
            if Nat.eqb batchCount (List.length q)
            then _putLogEvents (apiParams q) (onSelf (set_queuedLogs []) w)
            else _putLogEvents (apiParams (firstn batchCount q))
                               (onSelf (set_queuedLogs (skipn batchCount q)) w)
        end
    end.

(** The callback [_sendLogs] hands to [_getSequenceToken]. *)
Definition onSequenceToken (res : JSError + SeqToken) (w : World) : World :=
  match res with
  | inl err => failWith err None w
  | inr sequenceToken => _sendLogs (onSelf (set_sequenceToken sequenceToken) w)
  end.

(** The callback [_sendLogs] hands to [_putLogEvents]. *)
Definition onPutLogEvents (apiParams : ApiParams) (res : JSError + SeqToken)
           (w : World) : World :=
  match res with
  | inl err => failWith err (Some (ap_logEvents apiParams)) w
  | inr sequenceToken =>
      let w := onSelf (set_sequenceToken sequenceToken) w in
      let w := _emitPutLogEvents (ap_logEvents apiParams) w in
      match queuedLogs (self w) with
      | _ :: _ => _scheduleSendLogs w
      | [] => onSelf (set_writeQueued false) w
      end
  end.

(** The callback of [cloudwatch.putLogEvents] in [attemptPut]:
    [err.retryable && retryableMax > retries++]. *)
Definition putLogEventsAnswered (apiParams : ApiParams) (retries : Z) (r : PutResponse)
           (w : World) : World :=
  match r with
  | PutErr err =>
      if err_retryable err && num_gt (retryableMax (self w)) (ofZ retries)
      then addPending (PAttemptPut apiParams (retries + 1)) w
      else onPutLogEvents apiParams (inl err) w
  | PutOk nextSequenceToken => onPutLogEvents apiParams (inr nextSequenceToken) w
  end.

(** The callback of [cloudwatch.describeLogStreams] in [_getSequenceToken]. *)
Definition describeLogStreamsAnswered (r : DescribeResponse) (w : World) : World :=
  match r with
  | DescribeErr err =>
      if String.eqb (err_name err) "ResourceNotFoundException"
      then _createLogGroupAndStream w
      else onSequenceToken (inl err) w
  | DescribeOk [] => _createLogStream false w
  | DescribeOk (uploadSequenceToken :: _) => onSequenceToken (inr uploadSequenceToken) w
  end.

(** The callback of [_createLogGroup] in [_createLogGroupAndStream]. *)
Definition createLogGroupAnswered (err : option JSError) (w : World) : World :=
  match err with
  | Some e => onSequenceToken (inl e) w
  | None => _createLogStream true (_emitCreateLogGroup w)
  end.

(** The callback of [_createLogStream], in [_createLogGroupAndStream]
    ([viaGroup]) or in [_getSequenceToken]: both emit and query again. *)
Definition createLogStreamAnswered (viaGroup : bool) (err : option JSError)
           (w : World) : World :=
  match err with
  | Some e => onSequenceToken (inl e) w
  | None => _getSequenceToken (_emitCreateLogStream w)
  end.

(** [_write]; [cb()] has no effect on the stream.  When the filter or
    [createLogEvent] throws, nothing has been pushed. *)
Definition _write (rt : Runtime) (now : Z) (record : JSValue) (w : World) : World :=
  match filterWrite (self w) record with
  | Throw msg => raise (ThrownMessage msg) w
  | Normal false => w
  | Normal true =>
      match createLogEvent rt now record with
      | Throw msg => raise (ThrownMessage msg) w
      | Normal ev =>
          let w := onSelf (set_queuedLogs (queuedLogs (self w) ++ [ev])) w in
          if negb (writeQueued (self w))
          then _scheduleSendLogs (onSelf (set_writeQueued true) w)
          else w
      end
  end.

(** ** Events of the environment and the step function *)

Inductive Event :=
| EvWrite (record : JSValue) (now : Z)
| EvClearQueue
| EvErrorListener (registered : bool)
| EvSendLogsTimer
| EvAttemptPutTimer
| EvDescribeLogStreams (r : DescribeResponse)
| EvCreateLogGroup (err : option JSError)
| EvCreateLogStream (err : option JSError)
| EvPutLogEvents (r : PutResponse)
| EvNext (id : Z) (arg : NextArg).

(** The first outstanding callback that [sel] picks, and the others. *)
Fixpoint takePending {A} (sel : Pending -> option A) (l : list Pending)
  : option (A * list Pending) :=
  match l with
  | [] => None
  | p :: rest =>
      match sel p with
      | Some a => Some (a, rest)
      | None =>
          match takePending sel rest with
          | Some (a, rest') => Some (a, p :: rest')
          | None => None
          end
      end
  end.

Definition selSendLogs (p : Pending) : option unit :=
  match p with PSendLogs => Some tt | _ => None end.
Definition selAttemptPut (p : Pending) : option (ApiParams * Z) :=
  match p with PAttemptPut a r => Some (a, r) | _ => None end.
Definition selDescribe (p : Pending) : option unit :=
  match p with PDescribeLogStreams => Some tt | _ => None end.
Definition selCreateLogGroup (p : Pending) : option unit :=
  match p with PCreateLogGroup => Some tt | _ => None end.
Definition selCreateLogStream (p : Pending) : option bool :=
  match p with PCreateLogStream b => Some b | _ => None end.
Definition selPutLogEvents (p : Pending) : option (ApiParams * Z) :=
  match p with PPutLogEvents a r => Some (a, r) | _ => None end.

(** [next] bound to [id] is in the hands of the application only once the
    hook was called with it; when [onError] is not a function the call
    throws before anybody gets hold of [next]. *)
Definition nextIssued (id : Z) (w : World) : bool :=
  match onError (self w) with
  | NotCallable => false
  | DefaultOnError | UserOnError => existsb (fun h => hc_next h =? id) (hookCalls w)
  end.

(** One event: a call of [_write] or [clearQueue], the application
    registering or removing its listener for ['error'], a timer firing, the
    service answering, the hook calling [next].  [None]: the event cannot
    happen in this world (no such callback is outstanding).  When the code
    that runs throws, the world is the one it leaves behind, with the
    exception recorded in [thrown]. *)
Definition step (rt : Runtime) (w : World) (ev : Event) : option World :=
  match ev with
  | EvWrite record now => Some (_write rt now record w)
  | EvClearQueue => Some (snd (clearQueue w))
  | EvErrorListener registered => Some (onSelf (set_errorListener registered) w)
  | EvSendLogsTimer =>
      match takePending selSendLogs (pending w) with
      | Some (_, rest) => Some (_sendLogs (setPending rest w))
      | None => None
      end
  | EvAttemptPutTimer =>
      match takePending selAttemptPut (pending w) with
      | Some ((apiParams, retries), rest) =>
          Some (attemptPut apiParams retries (setPending rest w))
      | None => None
      end
  | EvDescribeLogStreams r =>
      match takePending selDescribe (pending w) with
      | Some (_, rest) => Some (describeLogStreamsAnswered r (setPending rest w))
      | None => None
      end
  | EvCreateLogGroup err =>
      match takePending selCreateLogGroup (pending w) with
      | Some (_, rest) => Some (createLogGroupAnswered err (setPending rest w))
      | None => None
      end
  | EvCreateLogStream err =>
      match takePending selCreateLogStream (pending w) with
      | Some (viaGroup, rest) =>
          Some (createLogStreamAnswered viaGroup err (setPending rest w))
      | None => None
      end
  | EvPutLogEvents r =>
      match takePending selPutLogEvents (pending w) with
      | Some ((apiParams, retries), rest) =>
          Some (putLogEventsAnswered apiParams retries r (setPending rest w))
      | None => None
      end
  | EvNext id arg =>
      if nextIssued id w then Some (_nextAfterError id arg w) else None
  end.

(** A run: the events one after the other. *)
Fixpoint run (rt : Runtime) (w : World) (evs : list Event) : option World :=
  match evs with
  | [] => Some w
  | ev :: rest =>
      match step rt w ev with
      | Some w' => run rt w' rest
      | None => None
      end
  end.

(** A world the stream can be in: built by the constructor, then any run. *)
Definition Reachable (rt : Runtime) (w : World) : Prop :=
  exists options this evs,
    CWLogsWritable_new options = Normal this /\ run rt (newWorld this) evs = Some w.

(** ** What a run lets one observe *)



(** The log event a write appends to the queue, if any. *)
Definition enqueuedByEvent (rt : Runtime) (w : World) (ev : Event) : list LogEvent :=
  match ev with
  | EvWrite record now =>
      match filterWrite (self w) record with
      | Normal true =>
          match createLogEvent rt now record with
          | Normal e => [e]
          | Throw _ => []
          end
      | _ => []
      end
  | _ => []
  end.

(** The log events a run appends to the queue, in the order of the writes. *)
Fixpoint enqueuedBy (rt : Runtime) (w : World) (evs : list Event) : list LogEvent :=
  match evs with
  | [] => []
  | ev :: rest =>
      enqueuedByEvent rt w ev
      ++ match step rt w ev with
         | Some w' => enqueuedBy rt w' rest
         | None => []
         end
  end.

(** The service refuses the batch with the errors [errs], one attempt after
    the other, and each time the retry timer fires. *)
Fixpoint retriedFailures (errs : list JSError) : list Event :=
  match errs with
  | [] => []
  | err :: rest =>
      EvPutLogEvents (PutErr err) :: EvAttemptPutTimer :: retriedFailures rest
  end.

(** The [logEvents] argument of a hook call, [null] read as no events. *)
Definition failedEvents (h : HookCall) : list LogEvent :=
  match hc_logEvents h with Some evs => evs | None => [] end.

(** The hook call whose [next] would be honoured now: the latest one,
    provided its id is still the current one. *)
Definition awaited (w : World) : option HookCall :=
  match rev (hookCalls w) with
  | h :: _ => if hc_next h =? _onErrorNextCbId (self w) then Some h else None
  | [] => None
  end.

(** The events taken off the queue and not delivered yet: those of the call
    in flight (or about to be retried), or those the recovery hook holds. *)
Definition inFlight (w : World) : list LogEvent :=
  match pending w with
  | PPutLogEvents apiParams _ :: _ | PAttemptPut apiParams _ :: _ => ap_logEvents apiParams
  | _ => match awaited w with Some h => failedEvents h | None => [] end
  end.





(** Nothing is outstanding and no cycle is scheduled. *)
Definition idle (w : World) : Prop :=
  pending w = [] /\ writeQueued (self w) = false.

(** ** Invariants of the delivery cycle *)

(** Every [next] handed out so far is out of date with respect to the
    counter [c]. *)
Definition staleAt (c : Z) (hs : list HookCall) : Prop :=
  Forall (fun h => hc_next h < c) hs.

(** Every [next] but the latest is out of date, and the latest is at most
    current. *)
Definition orderedAt (c : Z) (hs : list HookCall) : Prop :=
  match rev hs with
  | [] => True
  | h :: older => hc_next h <= c /\ Forall (fun h' => hc_next h' < c) older
  end.

Definition staleCalls (w : World) : Prop :=
  staleAt (_onErrorNextCbId (self w)) (hookCalls w).

Definition orderedCalls (w : World) : Prop :=
  orderedAt (_onErrorNextCbId (self w)) (hookCalls w).

(** Inside a callback of the cycle: the callback that fired is no longer
    outstanding, nothing else is, and the cycle is marked as scheduled. *)
Record Busy (w : World) : Prop := {
  busy_pending : pending w = [];
  busy_queued : writeQueued (self w) = true;
  busy_calls : staleCalls w
}.

Record Inv (w : World) : Prop := {
  inv_pending : (List.length (pending w) <= 1)%nat;
  inv_calls : orderedCalls w;
  inv_busy : pending w <> [] -> staleCalls w;
  inv_idle : writeQueued (self w) = false ->
             pending w = [] /\ staleCalls w /\ queuedLogs (self w) = []
}.


(** The state an exception leaves behind when it escapes a callback of the
    cycle: the cycle is marked as scheduled, nothing is outstanding that
    would run it, and no [next] would be honoured. *)
Definition Stalled (w : World) : Prop := Busy w.

(** ** Readings of the specification that are compared with the code *)


(** The planner as the specification words it, for every [maxBatchCount]
    that can be configured: unless the first event alone is over a cap, the
    prefix that is returned is within both caps. *)
Definition prefix_within_caps : Prop :=
  forall options this q n,
    CWLogsWritable_new options = Normal this ->
    q <> [] ->
    nextLogBatchSize this q = Normal n ->
    withinCaps this 1 q ->
    withinCaps this n q.

(** The retries as the specification words them, for every [retryableMax]
    that can be configured: when [retryableMax] is less than the number of
    failures in a row, not every one of them is followed by a retry. *)
Definition retries_within_retryableMax (rt : Runtime) : Prop :=
  forall options this apiParams errs,
    CWLogsWritable_new options = Normal this ->
    Forall (fun e => err_retryable e = true) errs ->
    num_lt (retryableMax this) (ofZ (Z.of_nat (List.length errs))) = true ->
    run rt (_putLogEvents apiParams (newWorld this)) (retriedFailures errs) = None.


(** A cycle that fires on an empty queue goes back to idle without a call of
    the service, whatever the sequence token. *)
Definition empty_queue_goes_idle (rt : Runtime) : Prop :=
  forall w w',
    Reachable rt w ->
    queuedLogs (self w) = [] ->
    step rt w EvSendLogsTimer = Some w' ->
    calls w' = calls w /\ idle w'.



(** ** Concrete data for the examples *)

Module Example.

(** A runtime that does what [JSON.stringify] does on the values the
    examples use: [undefined] for a function, a symbol and [undefined], a
    TypeError for a BigInt, a text otherwise. *)
Definition rt : Runtime :=
  {| JSON_stringify := fun v =>
       match v with
       | JFun | JSymbol | JUndefined => Normal None
       | JBigInt _ => Throw "TypeError: Do not know how to serialize a BigInt"
       | JStr s => Normal (Some s)
       | _ => Normal (Some "{}")
       end;
     Date_parse := fun _ => Normal None |}.

Definition options (hook : option (FunOption unit)) (size : option JSValue) : Options :=
  {| o_logGroupName := JStr "foo";
     o_logStreamName := JStr "bar";
     o_objectMode := None;
     o_writeInterval := None;
     o_retryableMax := None;
     o_retryableDelay := None;
     o_maxBatchCount := None;
     o_maxBatchSize := size;
     o_onError := hook;
     o_filterWrite := None;
     o_inherited := nothingInherited |}.

(** [{logGroupName: 'foo', logStreamName: 'bar', writeInterval: 50,
    retryableMax: 1.5, retryableDelay: 'nextTick', maxBatchCount: 1.5,
    onError: hook}]: every number here passes [validateOptions]. *)
Definition fractional : Options :=
  {| o_logGroupName := JStr "foo";
     o_logStreamName := JStr "bar";
     o_objectMode := None;
     o_writeInterval := Some (JNum (Fin 50));
     o_retryableMax := Some (JNum (Fin (3 # 2)));
     o_retryableDelay := Some (JStr "nextTick");
     o_maxBatchCount := Some (JNum (Fin (3 # 2)));
     o_maxBatchSize := None;
     o_onError := Some (AFunction tt);
     o_filterWrite := None;
     o_inherited := nothingInherited |}.

(** [Object.create({retryableMax: 0, maxBatchCount: NaN})] with the two
    names added: the inherited options are not validated. *)
Definition inheriting : Options :=
  {| o_logGroupName := JStr "foo";
     o_logStreamName := JStr "bar";
     o_objectMode := None;
     o_writeInterval := None;
     o_retryableMax := None;
     o_retryableDelay := None;
     o_maxBatchCount := None;
     o_maxBatchSize := None;
     o_onError := None;
     o_filterWrite := None;
     o_inherited :=
       {| i_writeInterval := JUndefined;
          i_retryableMax := JNum (Fin 0);
          i_retryableDelay := JUndefined;
          i_maxBatchCount := JNum NaN;
          i_maxBatchSize := JUndefined;
          i_onError := NotAFunction false;
          i_filterWrite := NotAFunction false |} |}.

(** The instance [new CWLogsWritable({logGroupName: 'foo', logStreamName:
    'bar', onError: hook})], with the defaults written out. *)
Definition stream (hook : Hook) : CWLogsWritable :=
  {| _onErrorNextCbId := 1;
     sequenceToken := TokNull;
     writeQueued := false;
     queuedLogs := [];
     logGroupName := JStr "foo";
     logStreamName := JStr "bar";
     writeInterval := NextTick;
     retryableMax := Fin 100;
     retryableDelay := Millis (Fin 150);
     maxBatchCount := Fin 10000;
     maxBatchSize := Fin 1048576;
     onError := hook;
     filterWrite := filterWrite_default;
     getMessageSize := getMessageSize_default;
     errorListener := false |}.

(** The instance [new CWLogsWritable(fractional)]. *)
Definition fractionalStream : CWLogsWritable :=
  {| _onErrorNextCbId := 1;
     sequenceToken := TokNull;
     writeQueued := false;
     queuedLogs := [];
     logGroupName := JStr "foo";
     logStreamName := JStr "bar";
     writeInterval := Millis (Fin 50);
     retryableMax := Fin (3 # 2);
     retryableDelay := NextTick;
     maxBatchCount := Fin (3 # 2);
     maxBatchSize := Fin 1048576;
     onError := UserOnError;
     filterWrite := filterWrite_default;
     getMessageSize := getMessageSize_default;
     errorListener := false |}.

Definition evA : LogEvent := {| message := Some "a"; timestamp := Some 1000 |}.

Definition evB : LogEvent := {| message := Some "b"; timestamp := Some 1001 |}.

Definition fatal : JSError := {| err_name := "InvalidParameterException"; err_retryable := false |}.
Definition throttled : JSError := {| err_name := "ThrottlingException"; err_retryable := true |}.

Definition params (evs : list LogEvent) : ApiParams :=
  {| ap_logGroupName := JStr "foo";
     ap_logStreamName := JStr "bar";
     ap_sequenceToken := TokStr "t1";
     ap_logEvents := evs |}.

(** ["a"] is written, sent, refused; the hook gives the batch back; it is
    sent again and accepted. *)
Definition resend : list Event :=
  [ EvWrite (JStr "a") 1000;
    EvSendLogsTimer;
    EvDescribeLogStreams (DescribeOk [TokStr "t1"]);
    EvPutLogEvents (PutErr fatal);
    EvNext 2 (NextEvents [evA]);
    EvSendLogsTimer;
    EvDescribeLogStreams (DescribeOk [TokStr "t1"]);
    EvPutLogEvents (PutOk (TokStr "t2")) ].

(** ["a"] is written, sent, refused; the hook resumes without giving the
    batch back, which leaves the queue empty and the token [null]. *)
Definition resumeEmpty : list Event :=
  [ EvWrite (JStr "a") 1000;
    EvSendLogsTimer;
    EvDescribeLogStreams (DescribeOk [TokStr "t1"]);
    EvPutLogEvents (PutErr fatal);
    EvNext 2 NextNothing ].

(** ["a"] is written, sent, refused; the hook is waiting. *)
Definition refused : list Event :=
  [ EvWrite (JStr "a") 1000;
    EvSendLogsTimer;
    EvDescribeLogStreams (DescribeOk [TokStr "t1"]);
    EvPutLogEvents (PutErr fatal) ].

(** ["a"] is written and sent; ["b"] is written while ["a"] is in flight;
    ["a"] is accepted, which leaves ["b"] queued, a token and a scheduled
    cycle. *)
Definition chained : list Event :=
  [ EvWrite (JStr "a") 1000;
    EvSendLogsTimer;
    EvDescribeLogStreams (DescribeOk [TokStr "t1"]);
    EvWrite (JStr "b") 1001;
    EvPutLogEvents (PutOk (TokStr "t2")) ].



(** ["a"] is written and the cycle has asked for the sequence token. *)
Definition asking : list Event :=
  [ EvWrite (JStr "a") 1000; EvSendLogsTimer ].


(** The world a run of the example stream ends in. *)
Definition after (evs : list Event) : World :=
  match run rt (newWorld (stream UserOnError)) evs with
  | Some w => w
  | None => newWorld (stream UserOnError)
  end.


End Example.

(** ** Further notions the properties are stated with *)

(** [getQueueSize] *)
Definition getQueueSize (w : World) : nat := List.length (queuedLogs (self w)).

(** A condition on an option that only matters when the option is an own
    property. *)
Definition ifOwn {A} (o : option A) (P : A -> Prop) : Prop :=
  match o with Some v => P v | None => True end.

(** A finite number within bounds. *)
Definition numberWithin (lo : Z) (hi : option Z) (v : JSValue) : Prop :=
  exists n, v = JNum (Fin n)
            /\ (inject_Z lo <= n)%Q
            /\ match hi with Some h => (n <= inject_Z h)%Q | None => True end.

(** ['nextTick'] or a number that is not negative. *)
Definition intervalValue (v : JSValue) : Prop :=
  v = JStr "nextTick" \/ numberWithin 0 None v.

(** The options an application may pass, in the words of the documentation
    of the constructor and of the messages of [validateOptions]. *)
Record validOptions (o : Options) : Prop := {
  valid_logGroupName : exists s, o_logGroupName o = JStr s;
  valid_logStreamName : exists s, o_logStreamName o = JStr s;
  valid_objectMode : ifOwn (o_objectMode o) (fun v => exists b, v = JBool b);
  valid_writeInterval : ifOwn (o_writeInterval o) intervalValue;
  valid_retryableMax : ifOwn (o_retryableMax o) (numberWithin 1 None);
  valid_retryableDelay : ifOwn (o_retryableDelay o) intervalValue;
  valid_maxBatchCount : ifOwn (o_maxBatchCount o) (numberWithin 1 (Some 10000));
  valid_maxBatchSize : ifOwn (o_maxBatchSize o) (numberWithin 256 (Some 1048576));
  valid_onError : ifOwn (o_onError o) (fun v => exists f, v = AFunction f);
  valid_filterWrite : ifOwn (o_filterWrite o) (fun v => exists f, v = AFunction f)
}.

(** A number whose value is the integer [m]. *)
Definition isInteger (x : JSNumber) (m : Z) : Prop :=
  exists q, x = Fin q /\ (q == inject_Z m)%Q.

(** A call of [Writable#_write]. *)
Definition isWrite (ev : Event) : Prop :=
  match ev with EvWrite _ _ => True | _ => False end.

(** The fields the constructor sets from the options and no method assigns
    to. *)
Definition sameConfig (a b : CWLogsWritable) : Prop :=
  logGroupName a = logGroupName b
  /\ logStreamName a = logStreamName b
  /\ writeInterval a = writeInterval b
  /\ retryableMax a = retryableMax b
  /\ retryableDelay a = retryableDelay b
  /\ maxBatchCount a = maxBatchCount b
  /\ maxBatchSize a = maxBatchSize b
  /\ onError a = onError b
  /\ getMessageSize a = getMessageSize b.

(** What every [apiParams] handed to [putLogEvents] looks like: the names
    of the stream, a token that is not [null], a batch that is not empty
    and whose messages were all measured; unless the batch is a single
    event, its cost was not found greater than [maxBatchSize], and the
    count of the events before its last one was not found to have reached
    [maxBatchCount]. *)
Record wellFormedPut (this : CWLogsWritable) (apiParams : ApiParams) : Prop := {
  put_group : ap_logGroupName apiParams = logGroupName this;
  put_stream : ap_logStreamName apiParams = logStreamName this;
  put_token : ap_sequenceToken apiParams <> TokNull;
  put_nonempty : ap_logEvents apiParams <> [];
  put_measured : exists c, batchCost this (ap_logEvents apiParams) = Some c;
  put_count :
    List.length (ap_logEvents apiParams) = 1%nat
    \/ num_ge (ofZ (Z.of_nat (List.length (ap_logEvents apiParams)) - 1))
              (maxBatchCount this) = false;
  put_size :
    List.length (ap_logEvents apiParams) = 1%nat
    \/ exists c, batchCost this (ap_logEvents apiParams) = Some c
                 /\ num_gt (ofZ c) (maxBatchSize this) = false
}.

(** The batch a callback that is outstanding carries, if it carries one. *)
Definition pendingPut (p : Pending) : option ApiParams :=
  match p with
  | PPutLogEvents apiParams _ | PAttemptPut apiParams _ => Some apiParams
  | _ => None
  end.

(** Every batch that went anywhere went through a call of [putLogEvents]
    that was well formed: the calls themselves, the calls in flight or about
    to be retried, the batches notified as delivered and the batches handed
    to the recovery hook. *)
Record PutsTraced (w : World) : Prop := {
  traced_calls :
    forall ap, In (CallPutLogEvents ap) (calls w) -> wellFormedPut (self w) ap;
  traced_pending :
    forall p ap, In p (pending w) -> pendingPut p = Some ap ->
                 In (CallPutLogEvents ap) (calls w);
  traced_emitted :
    forall evs, In (EmitPutLogEvents evs) (emitted w) ->
                exists ap, In (CallPutLogEvents ap) (calls w) /\ ap_logEvents ap = evs;
  traced_hook :
    forall h evs, In h (hookCalls w) -> hc_logEvents h = Some evs ->
                  exists ap, In (CallPutLogEvents ap) (calls w) /\ ap_logEvents ap = evs
}.


(** The Errors among what was thrown: those that [emit] threw for want of
    a listener. *)
Fixpoint thrownErrors (ts : list Thrown) : list JSError :=
  match ts with
  | [] => []
  | ThrownError err :: rest => err :: thrownErrors rest
  | ThrownMessage _ :: rest => thrownErrors rest
  end.


(** The least number of retries that [retryableMax] does not allow any
    more: [retryableMax > retries] holds exactly for the [retries] below
    it.  [None]: there is no such number (Infinity). *)
Definition retryLimit (x : JSNumber) : option Z :=
  match x with
  | Fin q => Some (Z.max 0 (Qceiling q))
  | PosInf => None
  | NaN | NegInf => Some 0
  end.
(** * Properties *)

(** ** Numbers *)

(** Comparing a rational with an integer is comparing its floor or its
    ceiling with it. *)
Lemma Qlt_ceiling_iff (k : Z) (q : Q) : (inject_Z k < q)%Q <-> k < Qceiling q.
Proof.
  split; intros H.
  - pose proof (Qle_ceiling q) as Hc.
    assert (Hlt : (inject_Z k < inject_Z (Qceiling q))%Q) by (eapply Qlt_le_trans; eauto).
    rewrite <- Zlt_Qlt in Hlt. exact Hlt.
  - pose proof (Qceiling_lt q) as Hc.
    assert (Hle : (inject_Z k <= inject_Z (Qceiling q - 1))%Q)
      by (rewrite <- Zle_Qle; lia).
    eapply Qle_lt_trans; eauto.
Qed.

Lemma Qle_ceiling_iff (k : Z) (q : Q) : (q <= inject_Z k)%Q <-> Qceiling q <= k.
Proof.
  pose proof (Qlt_ceiling_iff k q) as H.
  split; intros Hle.
  - destruct (Z_lt_le_dec k (Qceiling q)) as [Hlt|Hge]; [|exact Hge].
    apply H in Hlt. exfalso. apply (Qlt_not_le _ _ Hlt). exact Hle.
  - apply Qnot_lt_le. intros Hlt. apply H in Hlt. lia.
Qed.

Lemma Qlt_floor_iff (k : Z) (q : Q) : (q < inject_Z k)%Q <-> Qfloor q < k.
Proof.
  split; intros H.
  - pose proof (Qfloor_le q) as Hf.
    assert (Hlt : (inject_Z (Qfloor q) < inject_Z k)%Q) by (eapply Qle_lt_trans; eauto).
    rewrite <- Zlt_Qlt in Hlt. exact Hlt.
  - pose proof (Qlt_floor q) as Hf.
    assert (Hle : (inject_Z (Qfloor q + 1) <= inject_Z k)%Q)
      by (rewrite <- Zle_Qle; lia).
    eapply Qlt_le_trans; eauto.
Qed.

Lemma Qle_floor_iff (k : Z) (q : Q) : (inject_Z k <= q)%Q <-> k <= Qfloor q.
Proof.
  pose proof (Qlt_floor_iff k q) as H.
  split; intros Hle.
  - destruct (Z_lt_le_dec (Qfloor q) k) as [Hlt|Hge]; [|exact Hge].
    apply H in Hlt. exfalso. apply (Qlt_not_le _ _ Hlt). exact Hle.
  - apply Qnot_lt_le. intros Hlt. apply H in Hlt. lia.
Qed.

Lemma Qle_bool_false (x y : Q) : Qle_bool x y = false <-> (y < x)%Q.
Proof.
  split; intros H.
  - apply Qnot_le_lt. intros Hle. apply Qle_bool_iff in Hle. congruence.
  - destruct (Qle_bool x y) eqn:E; [|reflexivity].
    apply Qle_bool_iff in E. exfalso. apply (Qlt_not_le _ _ H). exact E.
Qed.

(** The four comparisons of a finite number with an integer. *)
Lemma num_gt_ofZ_l (c : Z) (q : Q) : num_gt (ofZ c) (Fin q) = true <-> Qfloor q < c.
Proof.
  unfold num_gt, num_lt, ofZ. rewrite negb_true_iff, Qle_bool_false.
  apply Qlt_floor_iff.
Qed.

Lemma num_gt_ofZ_r (q : Q) (r : Z) : num_gt (Fin q) (ofZ r) = true <-> r < Qceiling q.
Proof.
  unfold num_gt, num_lt, ofZ. rewrite negb_true_iff, Qle_bool_false.
  apply Qlt_ceiling_iff.
Qed.

Lemma num_ge_ofZ_l (k : Z) (q : Q) : num_ge (ofZ k) (Fin q) = true <-> Qceiling q <= k.
Proof.
  unfold num_ge, num_le, ofZ. rewrite Qle_bool_iff. apply Qle_ceiling_iff.
Qed.

Lemma num_le_ofZ_l (k : Z) (q : Q) : num_le (ofZ k) (Fin q) = true <-> k <= Qfloor q.
Proof.
  unfold num_le, ofZ. rewrite Qle_bool_iff. apply Qle_floor_iff.
Qed.

Lemma Qfloor_integer (q : Q) (m : Z) : (q == inject_Z m)%Q -> Qfloor q = m.
Proof. intros H. rewrite H. apply Qfloor_Z. Qed.

Lemma Qceiling_integer (q : Q) (m : Z) : (q == inject_Z m)%Q -> Qceiling q = m.
Proof. intros H. rewrite H. apply Qceiling_Z. Qed.

Lemma Qfloor_le_ceiling (q : Q) : Qfloor q <= Qceiling q.
Proof.
  pose proof (Qle_floor_ceiling q) as H. rewrite <- Zle_Qle in H. exact H.
Qed.

(** [c > b] and [k >= b] stay true when [c] and [k] grow, whatever [b]. *)
Lemma num_gt_mono (b : JSNumber) (c c' : Z) :
  c <= c' -> num_gt (ofZ c) b = true -> num_gt (ofZ c') b = true.
Proof.
  intros Hle. destruct b as [q| | |]; try (cbn; congruence).
  rewrite !num_gt_ofZ_l. lia.
Qed.

Lemma num_ge_mono (b : JSNumber) (k k' : Z) :
  k <= k' -> num_ge (ofZ k) b = true -> num_ge (ofZ k') b = true.
Proof.
  intros Hle. destruct b as [q| | |]; try (cbn; congruence).
  rewrite !num_ge_ofZ_l. lia.
Qed.

(** [c <= b] excludes [c > b]; and where some integer is [<= b], the two
    are each other's negation. *)
Lemma num_le_not_gt (b : JSNumber) (c : Z) :
  num_le (ofZ c) b = true -> num_gt (ofZ c) b = false.
Proof.
  destruct b as [q| | |]; try (cbn; congruence).
  intros H. apply num_le_ofZ_l in H.
  destruct (num_gt (ofZ c) (Fin q)) eqn:E; [|reflexivity].
  apply num_gt_ofZ_l in E. lia.
Qed.

Lemma num_not_gt_le (b : JSNumber) (a c : Z) :
  num_le (ofZ a) b = true -> num_gt (ofZ c) b = false -> num_le (ofZ c) b = true.
Proof.
  destruct b as [q| | |]; try (cbn; congruence).
  intros _ H. apply num_le_ofZ_l.
  destruct (Z_lt_le_dec (Qfloor q) c) as [Hlt|Hle]; [|exact Hle].
  apply num_gt_ofZ_l in Hlt. congruence.
Qed.

(** ** The batch planner *)

Section PlannerFacts.

Variable this : CWLogsWritable.

Lemma batchCost_snoc (pre : list LogEvent) (ev : LogEvent) (cp size : Z) :
  batchCost this pre = Some cp ->
  getMessageSize this (message ev) = Normal size ->
  batchCost this (pre ++ [ev]) = Some (cp + (26 + size)).
Proof.
  revert cp. induction pre as [|e pre IH]; intros cp Hp Hs; cbn [app batchCost] in *.
  - injection Hp as <-. rewrite Hs. apply f_equal. lia.
  - destruct (getMessageSize this (message e)) as [sz|]; [|discriminate].
    destruct (batchCost this pre) as [c|]; [|discriminate].
    assert (cp = 26 + sz + c) by congruence. subst cp.
    rewrite (IH c eq_refl Hs). apply f_equal. lia.
Qed.

Lemma firstn_snoc (pre : list LogEvent) (ev : LogEvent) (rest : list LogEvent) :
  firstn (S (List.length pre)) (pre ++ ev :: rest) = pre ++ [ev].
Proof.
  replace (pre ++ ev :: rest) with ((pre ++ [ev]) ++ rest)
    by (rewrite <- app_assoc; reflexivity).
  replace (S (List.length pre)) with (List.length (pre ++ [ev]) + 0)%nat
    by (rewrite length_app; simpl; lia).
  rewrite firstn_app_2. simpl. rewrite app_nil_r. reflexivity.
Qed.

Lemma firstn_pre (pre rest : list LogEvent) :
  firstn (List.length pre) (pre ++ rest) = pre.
Proof.
  replace (List.length pre) with (List.length pre + 0)%nat by lia.
  rewrite firstn_app_2. simpl. apply app_nil_r.
Qed.

(** The loop, entered at index [i >= 1] with the first [i] events already
    accepted.  When it returns [n]: the first [n] events were measured; if
    the loop accepted an event, the last test found neither cap reached;
    and if events are left over, the test on the next one found a cap
    reached. *)
Lemma nextLogBatchSize_from_spec (rest : list LogEvent) :
  forall pre cp n,
    pre <> [] ->
    batchCost this pre = Some cp ->
    nextLogBatchSize_from this (List.length pre) (List.length pre) cp rest = Normal n ->
    (List.length pre <= n <= List.length (pre ++ rest))%nat
    /\ (exists c, batchCost this (firstn n (pre ++ rest)) = Some c
                  /\ ((List.length pre < n)%nat ->
                      num_gt (ofZ c) (maxBatchSize this) = false
                      /\ num_ge (ofZ (Z.of_nat n - 1)) (maxBatchCount this) = false))
    /\ ((n < List.length (pre ++ rest))%nat ->
        exists c', batchCost this (firstn (S n) (pre ++ rest)) = Some c'
                   /\ (num_gt (ofZ c') (maxBatchSize this) = true
                       \/ num_ge (ofZ (Z.of_nat n)) (maxBatchCount this) = true)).
Proof.
  induction rest as [|ev rest IH]; intros pre cp n Hpre Hcp Hn.
  - cbn [nextLogBatchSize_from] in Hn. injection Hn as <-.
    rewrite app_nil_r. split; [lia|]. split; [|lia].
    exists cp. rewrite firstn_all. split; [exact Hcp | lia].
  - cbn [nextLogBatchSize_from] in Hn.
    destruct (getMessageSize this (message ev)) as [size|] eqn:Hsize; [|discriminate].
    pose proof (batchCost_snoc pre ev Hcp Hsize) as Hsnoc.
    destruct (num_gt (ofZ (cp + (26 + size))) (maxBatchSize this)
              || num_ge (ofZ (Z.of_nat (List.length pre))) (maxBatchCount this)) eqn:Hbrk.
    + injection Hn as <-. rewrite length_app. cbn [List.length].
      split; [lia|]. split.
      * exists cp. rewrite firstn_pre. split; [exact Hcp | lia].
      * intros _. exists (cp + (26 + size)). rewrite firstn_snoc.
        split; [exact Hsnoc|]. apply orb_true_iff. exact Hbrk.
    + apply orb_false_iff in Hbrk. destruct Hbrk as [Hsz Hct].
      assert (Hne : pre ++ [ev] <> []) by (destruct pre; discriminate).
      assert (Hlen : List.length (pre ++ [ev]) = S (List.length pre))
        by (rewrite length_app; simpl; lia).
      specialize (IH (pre ++ [ev]) (cp + (26 + size)) n Hne Hsnoc).
      rewrite Hlen in IH. specialize (IH Hn).
      replace ((pre ++ [ev]) ++ rest) with (pre ++ ev :: rest) in IH
        by (rewrite <- app_assoc; reflexivity).
      destruct IH as (Hrange & (c & Hc & Hacc) & Hstop).
      split; [lia|]. split; [|exact Hstop].
      exists c. split; [exact Hc|]. intros _.
      destruct (Nat.eq_dec n (S (List.length pre))) as [->|Hneq].
      * rewrite firstn_snoc, Hsnoc in Hc. injection Hc as <-.
        split; [exact Hsz|].
        replace (Z.of_nat (S (List.length pre)) - 1) with (Z.of_nat (List.length pre))
          by lia.
        exact Hct.
      * apply Hacc. lia.
Qed.

(** The whole loop on a snapshot that is not empty.  The first iteration
    leaves [batchCount] at 1 whether it stops or not. *)
Lemma nextLogBatchSize_spec (q : list LogEvent) (n : nat) :
  q <> [] ->
  nextLogBatchSize this q = Normal n ->
  (1 <= n <= List.length q)%nat
  /\ (exists c, batchCost this (firstn n q) = Some c
                /\ ((1 < n)%nat ->
                    num_gt (ofZ c) (maxBatchSize this) = false
                    /\ num_ge (ofZ (Z.of_nat n - 1)) (maxBatchCount this) = false))
  /\ (exists c1, batchCost this (firstn 1 q) = Some c1
                 /\ (num_gt (ofZ c1) (maxBatchSize this) = true -> n = 1%nat)
                 /\ (num_ge (ofZ 1) (maxBatchCount this) = true -> n = 1%nat))
  /\ ((n < List.length q)%nat ->
      exists k c', (1 <= k <= S n)%nat
                   /\ batchCost this (firstn k q) = Some c'
                   /\ (num_gt (ofZ c') (maxBatchSize this) = true
                       \/ num_ge (ofZ (Z.of_nat n)) (maxBatchCount this) = true)).
Proof.
  destruct q as [|ev rest]; [congruence|]. intros _ Hn.
  unfold nextLogBatchSize in Hn. cbn [nextLogBatchSize_from] in Hn.
  destruct (getMessageSize this (message ev)) as [size|] eqn:Hsize; [|discriminate].
  assert (Hone : batchCost this (firstn 1 (ev :: rest)) = Some (0 + (26 + size))).
  { cbn [firstn batchCost]. rewrite Hsize. apply f_equal. lia. }
  change (Z.of_nat 1) with 1 in Hn.
  destruct (num_gt (ofZ (0 + (26 + size))) (maxBatchSize this)
            || num_ge (ofZ 1) (maxBatchCount this)) eqn:Hbrk.
  - injection Hn as <-. cbn [List.length]. split; [lia|].
    split; [exists (0 + (26 + size)); split; [exact Hone | lia]|].
    split; [exists (0 + (26 + size)); repeat split; auto|].
    intros _. exists 1%nat, (0 + (26 + size)).
    split; [lia|]. split; [exact Hone|]. apply orb_true_iff. exact Hbrk.
  - apply orb_false_iff in Hbrk. destruct Hbrk as [Hsz Hct].
    assert (Hcp : batchCost this [ev] = Some (0 + (26 + size))) by exact Hone.
    destruct (@nextLogBatchSize_from_spec rest [ev] (0 + (26 + size)) n
                ltac:(discriminate) Hcp Hn) as (Hrange & (c & Hc & Hacc) & Hstop).
    cbn [List.length app] in *.
    split; [lia|]. split; [exists c; split; [exact Hc | exact Hacc]|].
    split; [exists (0 + (26 + size)); split; [exact Hone|]; split; congruence|].
    intros Hlt. destruct (Hstop Hlt) as (c' & Hc' & Hwhy).
    exists (S n), c'. split; [lia|]. split; assumption.
Qed.

(** The loop returns when it can measure every message. *)
Lemma nextLogBatchSize_from_total (rest : list LogEvent) :
  (forall ev, In ev rest -> exists z, getMessageSize this (message ev) = Normal z) ->
  forall i batchCount sizeEstimate,
    exists n, nextLogBatchSize_from this i batchCount sizeEstimate rest = Normal n.
Proof.
  induction rest as [|ev rest IH]; intros Hm i b s; cbn [nextLogBatchSize_from].
  - eauto.
  - destruct (Hm ev (or_introl eq_refl)) as (z & ->).
    destruct (_ || _); [eauto|].
    apply IH. intros e He. apply Hm. right. exact He.
Qed.

(** It throws when it comes to a message it cannot measure, and it always
    comes to the first one. *)
Lemma nextLogBatchSize_first_unmeasured (ev : LogEvent) (rest : list LogEvent) (msg : string) :
  getMessageSize this (message ev) = Throw msg ->
  nextLogBatchSize this (ev :: rest) = Throw msg.
Proof.
  intros H. unfold nextLogBatchSize. cbn [nextLogBatchSize_from]. rewrite H. reflexivity.
Qed.

Hypothesis size_nonneg : forall m z, getMessageSize this m = Normal z -> 0 <= z.

Lemma batchCost_nonneg (evs : list LogEvent) (c : Z) :
  batchCost this evs = Some c -> 0 <= c.
Proof.
  revert c. induction evs as [|ev evs IH]; intros c H; cbn [batchCost] in H.
  - injection H as <-. lia.
  - destruct (getMessageSize this (message ev)) as [sz|] eqn:Hs; [|discriminate].
    destruct (batchCost this evs) as [c0|]; [|discriminate].
    assert (c = 26 + sz + c0) by congruence. subst c.
    pose proof (size_nonneg _ Hs). pose proof (IH c0 eq_refl). lia.
Qed.

(** A prefix of what can be measured can be measured, and costs no more. *)
Lemma batchCost_firstn_mono (q : list LogEvent) :
  forall j k ck, (j <= k)%nat ->
    batchCost this (firstn k q) = Some ck ->
    exists cj, batchCost this (firstn j q) = Some cj /\ cj <= ck.
Proof.
  induction q as [|ev q IH]; intros j k ck Hjk Hk.
  - rewrite firstn_nil in *. injection Hk as <-. exists 0. split; [reflexivity | lia].
  - destruct j as [|j].
    + exists 0. split; [reflexivity|]. eapply batchCost_nonneg; eauto.
    + destruct k as [|k]; [lia|]. cbn [firstn batchCost] in *.
      destruct (getMessageSize this (message ev)) as [sz|]; [|discriminate].
      destruct (batchCost this (firstn k q)) as [c0|] eqn:Hc0; [|discriminate].
      assert (ck = 26 + sz + c0) by congruence. subst ck.
      destruct (IH j k c0 ltac:(lia) Hc0) as (cj & -> & Hle).
      eexists. split; [reflexivity | lia].
Qed.

End PlannerFacts.

(** The planner looks at the caps and at the size function only. *)
Lemma nextLogBatchSize_from_ext (a b : CWLogsWritable) :
  maxBatchCount a = maxBatchCount b ->
  maxBatchSize a = maxBatchSize b ->
  (forall m, getMessageSize a m = getMessageSize b m) ->
  forall q i batchCount sizeEstimate,
    nextLogBatchSize_from a i batchCount sizeEstimate q
    = nextLogBatchSize_from b i batchCount sizeEstimate q.
Proof.
  intros Hc Hs Hm q. induction q as [|ev q IH]; intros i bc sz; simpl.
  - reflexivity.
  - rewrite Hc, Hs, Hm. destruct (getMessageSize b (message ev)); [|reflexivity].
    rewrite IH. reflexivity.
Qed.

Lemma batchCost_ext (a b : CWLogsWritable) (evs : list LogEvent) :
  (forall m, getMessageSize a m = getMessageSize b m) ->
  batchCost a evs = batchCost b evs.
Proof.
  intros Hm. induction evs as [|ev evs IH]; cbn [batchCost]; [reflexivity|].
  rewrite Hm, IH. reflexivity.
Qed.

(** With an integer for [maxBatchCount], the two tests on a count are each
    other's negation. *)
Lemma count_reached_integer (x : JSNumber) (m k : Z) :
  isInteger x m ->
  (num_ge (ofZ k) x = true <-> m <= k) /\ (num_le (ofZ k) x = true <-> k <= m).
Proof.
  intros (q & -> & Hq). rewrite num_ge_ofZ_l, num_le_ofZ_l.
  rewrite (Qceiling_integer Hq), (Qfloor_integer Hq). tauto.
Qed.

(** C2. For a snapshot that is not empty and whose messages can all be
    measured, and for a [maxBatchCount] that is an integer,
    [nextLogBatchSize] returns a prefix length between 1 and the length of
    the queue; if the first event alone is within the caps, it is the
    largest prefix length whose cost (26 plus the message size per event)
    does not exceed [maxBatchSize] and whose length does not exceed
    [maxBatchCount]; if the first event alone costs more than
    [maxBatchSize], it is 1; if the whole queue is within both caps, it is
    the length of the queue; and it is determined by the snapshot, the caps
    and the size function alone. *)
Theorem nextLogBatchSize_largest_prefix (this : CWLogsWritable) (q : list LogEvent)
        (m : Z) :
  (forall msg z, getMessageSize this msg = Normal z -> 0 <= z) ->
  (forall ev, In ev q -> exists z, getMessageSize this (message ev) = Normal z) ->
  isInteger (maxBatchCount this) m ->
  q <> [] ->
  exists n,
    nextLogBatchSize this q = Normal n
    /\ (1 <= n <= List.length q)%nat
    /\ (withinCaps this 1 q ->
        withinCaps this n q
        /\ forall k, (k <= List.length q)%nat -> withinCaps this k q -> (k <= n)%nat)
    /\ ((exists c, batchCost this (firstn 1 q) = Some c
                   /\ num_gt (ofZ c) (maxBatchSize this) = true) -> n = 1%nat)
    /\ (withinCaps this (List.length q) q -> n = List.length q)
    /\ (forall other,
          maxBatchCount other = maxBatchCount this ->
          maxBatchSize other = maxBatchSize this ->
          (forall msg, getMessageSize other msg = getMessageSize this msg) ->
          nextLogBatchSize other q = Normal n).
Proof.
  intros Hsize Hmeas Hint Hq.
  destruct (@nextLogBatchSize_from_total this q Hmeas 0%nat 1%nat 0) as (n & Hn).
  change (nextLogBatchSize this q = Normal n) in Hn.
  exists n. split; [exact Hn|].
  destruct (@nextLogBatchSize_spec this q n Hq Hn)
    as (Hrange & (c & Hc & Hacc) & (c1 & Hc1 & Hover1 & _) & Hstop).
  assert (Hmax : forall k, (k <= List.length q)%nat -> withinCaps this k q -> (k <= n)%nat).
  { intros k Hk (ck & Hck & Hsz & Hct).
    destruct (Nat.le_gt_cases k n) as [Hle|Hgt]; [exact Hle|]. exfalso.
    destruct (Hstop ltac:(lia)) as (j & c' & Hj & Hc' & [Hover|Hreached]).
    - destruct (@batchCost_firstn_mono this Hsize q j k ck ltac:(lia) Hck)
        as (cj & Hcj & Hle).
      rewrite Hc' in Hcj. injection Hcj as <-.
      pose proof (@num_gt_mono (maxBatchSize this) _ _ Hle Hover) as Hover'.
      rewrite (@num_le_not_gt _ _ Hsz) in Hover'. discriminate.
    - apply (@count_reached_integer _ m (Z.of_nat n) Hint) in Hreached.
      apply (@count_reached_integer _ m (Z.of_nat k) Hint) in Hct. lia. }
  split; [exact Hrange|]. split; [|split; [|split]].
  - intros (c1' & Hc1' & Hsz1 & Hct1). split; [|exact Hmax].
    exists c. split; [exact Hc|].
    destruct (Nat.eq_dec n 1) as [->|Hne].
    + rewrite Hc1' in Hc. injection Hc as <-. split; assumption.
    + destruct (Hacc ltac:(lia)) as (Hsz & Hct). split.
      * eapply num_not_gt_le; eauto.
      * apply (@count_reached_integer _ m (Z.of_nat n) Hint).
        apply (@count_reached_integer _ m 1 Hint) in Hct1.
        destruct (Z_lt_le_dec m (Z.of_nat n)) as [Hlt|Hle]; [|exact Hle].
        assert (Hr : num_ge (ofZ (Z.of_nat n - 1)) (maxBatchCount this) = true)
          by (apply (@count_reached_integer _ m (Z.of_nat n - 1) Hint); lia).
        congruence.
  - intros (c0 & Hc0 & Hover). apply Hover1. congruence.
  - intros Hall. pose proof (Hmax (List.length q) (Nat.le_refl _) Hall). lia.
  - intros other Hcnt Hsz Hm. unfold nextLogBatchSize.
    rewrite (@nextLogBatchSize_from_ext other this Hcnt Hsz Hm). exact Hn.
Qed.

Lemma nextLogBatchSize_largest_prefix_witness :
  withinCaps (Example.stream UserOnError) 2 [Example.evA; Example.evB]
  /\ nextLogBatchSize (Example.stream UserOnError) [Example.evA; Example.evB]
     = Normal 2%nat.
Proof.
  assert (Hsize : forall msg z,
             getMessageSize (Example.stream UserOnError) msg = Normal z -> 0 <= z).
  { intros [s|] z H; cbn in H; [|discriminate]. injection H as <-. lia. }
  assert (Hmeas : forall ev, In ev [Example.evA; Example.evB] ->
             exists z, getMessageSize (Example.stream UserOnError) (message ev) = Normal z).
  { intros ev [<-|[<-|[]]]; cbn; eauto. }
  assert (Hint : isInteger (maxBatchCount (Example.stream UserOnError)) 10000).
  { exists 10000%Q. split; [reflexivity | apply Qeq_refl]. }
  assert (Hfit : withinCaps (Example.stream UserOnError) 2 [Example.evA; Example.evB]).
  { exists 54. split; [reflexivity|]. split; reflexivity. }
  split; [exact Hfit|].
  destruct (@nextLogBatchSize_largest_prefix (Example.stream UserOnError)
              [Example.evA; Example.evB] 10000 Hsize Hmeas Hint ltac:(discriminate))
    as (n & Hn & _ & _ & _ & Hall & _).
  rewrite (Hall Hfit) in Hn. exact Hn.
Defined.

Lemma Example_fractional_new :
  CWLogsWritable_new (Some Example.fractional) = Normal Example.fractionalStream.
Proof. vm_compute. reflexivity. Qed.

(** C2, as worded: with [maxBatchCount: 1.5], which [validateOptions]
    accepts and the constructor stores, the planner returns 2 for two short
    events, and 2 exceeds 1.5. *)
Lemma prefix_within_caps_fails : ~ prefix_within_caps.
Proof.
  intros H.
  assert (Hn : nextLogBatchSize Example.fractionalStream [Example.evA; Example.evB]
               = Normal 2%nat) by (vm_compute; reflexivity).
  assert (H1 : withinCaps Example.fractionalStream 1 [Example.evA; Example.evB]).
  { exists 27. repeat split; vm_compute; reflexivity. }
  destruct (H (Some Example.fractional) Example.fractionalStream
              [Example.evA; Example.evB] 2%nat
              Example_fractional_new ltac:(discriminate) Hn H1)
    as (c & _ & _ & Hcount).
  vm_compute in Hcount. discriminate.
Qed.

(** C10. On the empty snapshot [nextLogBatchSize] returns 1, whatever the
    caps, while the only prefix of the empty queue has length 0; and
    [_sendLogs] does not get as far as the planner when the queue is empty:
    it either asks for the sequence token or clears [writeQueued]. *)
Theorem nextLogBatchSize_empty_queue (w : World) :
  queuedLogs (self w) = [] ->
  nextLogBatchSize (self w) (queuedLogs (self w)) = Normal 1%nat
  /\ (forall k, firstn k (queuedLogs (self w)) = [])
  /\ _sendLogs w = (if isNullToken (sequenceToken (self w))
                    then _getSequenceToken w
                    else onSelf (set_writeQueued false) w).
Proof.
  intros Hq. rewrite Hq. split; [reflexivity|]. split; [apply firstn_nil|].
  unfold _sendLogs. rewrite Hq. reflexivity.
Qed.

Lemma nextLogBatchSize_empty_queue_witness :
  queuedLogs (self (newWorld (Example.stream UserOnError))) = []
  /\ nextLogBatchSize (Example.stream UserOnError) [] = Normal 1%nat.
Proof.
  split; [reflexivity|].
  exact (proj1 (nextLogBatchSize_empty_queue (newWorld (Example.stream UserOnError))
                  eq_refl)).
Defined.

(** ** The constructor *)

Lemma CWLogsWritable_new_fresh (options : option Options) (this : CWLogsWritable) :
  CWLogsWritable_new options = Normal this ->
  _onErrorNextCbId this = 1 /\ sequenceToken this = TokNull
  /\ writeQueued this = false /\ queuedLogs this = []
  /\ getMessageSize this = getMessageSize_default
  /\ errorListener this = false.
Proof.
  unfold CWLogsWritable_new.
  destruct (validateOptions options); [discriminate|].
  destruct options as [o|]; [|discriminate].
  intros H. injection H as <-. cbn. repeat split; reflexivity.
Qed.

(** What the two clamps of the constructor make of a number. *)
Lemma Math_max_lower (lo : Q) (x : JSNumber) :
  Math_max (Fin lo) x = NaN
  \/ Math_max (Fin lo) x = PosInf
  \/ exists q, Math_max (Fin lo) x = Fin q /\ (lo <= q)%Q.
Proof.
  destruct x as [q| | |]; cbn; auto.
  - right. right. destruct (Qle_bool q lo) eqn:E; cbn.
    + exists lo. split; [reflexivity | apply Qle_refl].
    + exists q. split; [reflexivity|]. apply Qle_bool_false in E. apply Qlt_le_weak. exact E.
  - right. right. exists lo. split; [reflexivity | apply Qle_refl].
Qed.

Lemma Math_clamp (lo hi : Q) (x : JSNumber) :
  (lo <= hi)%Q ->
  Math_min (Fin hi) (Math_max (Fin lo) x) = NaN
  \/ exists q, Math_min (Fin hi) (Math_max (Fin lo) x) = Fin q /\ (lo <= q <= hi)%Q.
Proof.
  intros Hlh. destruct (Math_max_lower lo x) as [->|[->|(q & -> & Hq)]]; cbn; auto.
  - right. exists hi. split; [reflexivity|]. split; [exact Hlh | apply Qle_refl].
  - right. destruct (Qle_bool hi q) eqn:E; cbn.
    + exists hi. split; [reflexivity|]. split; [exact Hlh | apply Qle_refl].
    + exists q. split; [reflexivity|]. apply Qle_bool_false in E.
      split; [exact Hq | apply Qlt_le_weak; exact E].
Qed.

(** The caps of an instance, whatever the options were, own or inherited. *)
Lemma CWLogsWritable_new_caps (options : option Options) (this : CWLogsWritable) :
  CWLogsWritable_new options = Normal this ->
  (maxBatchCount this = NaN
   \/ exists q, maxBatchCount this = Fin q /\ (1 <= q <= 10000)%Q)
  /\ (maxBatchSize this = NaN
      \/ exists q, maxBatchSize this = Fin q /\ (1024 <= q <= 1048576)%Q)
  /\ (retryableMax this = NaN \/ retryableMax this = PosInf
      \/ exists q, retryableMax this = Fin q /\ (0 <= q)%Q).
Proof.
  unfold CWLogsWritable_new.
  destruct (validateOptions options); [discriminate|].
  destruct options as [o|]; [|discriminate].
  intros H. injection H as <-. cbn [maxBatchCount maxBatchSize retryableMax].
  split; [|split].
  - destruct (readOption (o_maxBatchCount o) (i_maxBatchCount (o_inherited o)));
      try (right; exists 10000%Q; split; [reflexivity | split; discriminate]).
    apply Math_clamp. discriminate.
  - destruct (readOption (o_maxBatchSize o) (i_maxBatchSize (o_inherited o)));
      try (right; exists 1048576%Q; split; [reflexivity | split; discriminate]).
    apply Math_clamp. discriminate.
  - destruct (readOption (o_retryableMax o) (i_retryableMax (o_inherited o)));
      try (right; right; exists 100%Q; split; [reflexivity | discriminate]).
    apply Math_max_lower.
Qed.

(** The size function of an instance measures every string, and a size is
    never negative. *)
Lemma getMessageSize_default_nonneg (m : option string) (z : Z) :
  getMessageSize_default m = Normal z -> 0 <= z.
Proof.
  destruct m as [s|]; cbn; [|discriminate]. intros H. injection H as <-. lia.
Qed.

Lemma CWLogsWritable_new_planner (options : option Options) (this : CWLogsWritable) :
  CWLogsWritable_new options = Normal this ->
  forall m z, getMessageSize this m = Normal z -> 0 <= z.
Proof.
  intros Hnew m z. destruct (CWLogsWritable_new_fresh options Hnew) as (_ & _ & _ & _ & -> & _).
  apply getMessageSize_default_nonneg.
Qed.

(** What [validateOptions] lets through for an own option with a range. *)
Lemma ranged_option_accepted (v : JSValue) (lo hi : Z) :
  negb (isFiniteNumber v) || numLt v lo || numGt v hi = false ->
  exists n, v = JNum (Fin n) /\ (inject_Z lo <= n <= inject_Z hi)%Q.
Proof.
  intros H. apply orb_false_iff in H. destruct H as [H Hgt].
  apply orb_false_iff in H. destruct H as [Hfin Hlt].
  destruct v as [| | |[n| | |]| | | | |]; try discriminate.
  exists n. split; [reflexivity|].
  cbn in Hlt, Hgt. unfold num_gt, num_lt, ofZ in *.
  apply negb_false_iff in Hlt, Hgt. apply Qle_bool_iff in Hlt, Hgt. split; assumption.
Qed.

(** A [maxBatchSize] option that [validateOptions] lets through is a number
    from 256 to 1048576, and the cap of the instance is that number raised
    to 1024. *)
Lemma maxBatchSize_accepted (o : Options) (v : JSValue) (this : CWLogsWritable) :
  o_maxBatchSize o = Some v ->
  CWLogsWritable_new (Some o) = Normal this ->
  exists n, v = JNum (Fin n) /\ (256 <= n <= 1048576)%Q
            /\ ((n <= 1024)%Q -> maxBatchSize this = Fin 1024)
            /\ ((1024 <= n)%Q -> num_eq (maxBatchSize this) (Fin n)).
Proof.
  intros Hv. unfold CWLogsWritable_new.
  destruct (validateOptions (Some o)) eqn:Hval; [discriminate|].
  intros H. injection H as <-. cbn [maxBatchSize]. rewrite Hv. cbn [readOption].
  unfold validateOptions in Hval. rewrite Hv in Hval.
  repeat match type of Hval with
         | (if ?c then _ else _) = None => destruct c eqn:?; [discriminate|]
         end.
  match goal with
  | H : ownAnd (Some v) _ = false |- _ => cbn [ownAnd] in H; rename H into Hsz
  end.
  destruct (ranged_option_accepted v 256 1048576 Hsz) as (n & -> & Hlo & Hhi).
  change (inject_Z 1048576) with 1048576%Q in Hhi.
  exists n. split; [reflexivity|]. split; [split; assumption|].
  unfold Math_max, Math_min, num_lt. split; intros Hn.
  - apply Qle_bool_iff in Hn. rewrite Hn. cbn. reflexivity.
  - destruct (Qle_bool n 1024) eqn:E1; cbn.
    + apply Qle_bool_iff in E1. cbn. apply Qle_antisym; assumption.
    + destruct (Qle_bool 1048576 n) eqn:E2; cbn; [|apply Qeq_refl].
      apply Qle_bool_iff in E2. apply Qle_antisym; assumption.
Qed.

(** Any other value of the [maxBatchSize] option makes the constructor
    throw. *)
Lemma maxBatchSize_rejected (o : Options) (v : JSValue) :
  o_maxBatchSize o = Some v ->
  (forall n, v = JNum (Fin n) -> (n < 256)%Q \/ (1048576 < n)%Q) ->
  exists msg, CWLogsWritable_new (Some o) = Throw msg.
Proof.
  intros Hv Hout.
  destruct (CWLogsWritable_new (Some o)) as [this|msg] eqn:Hnew; [|eauto].
  destruct (maxBatchSize_accepted o Hv Hnew) as (n & -> & [Hlo Hhi] & _).
  destruct (Hout n eq_refl) as [H|H]; exfalso;
    [apply (Qlt_not_le _ _ H); exact Hlo | apply (Qlt_not_le _ _ H); exact Hhi].
Qed.

(** C7. With [maxBatchSize: 256], a value the validation accepts, the
    constructor succeeds and the byte cap of the instance is 1024, not 256. *)
Theorem maxBatchSize_256_clamped :
  exists this,
    CWLogsWritable_new (Some (Example.options None (Some (JNum (Fin 256))))) = Normal this
    /\ maxBatchSize this = Fin 1024.
Proof.
  eexists. split; vm_compute; reflexivity.
Qed.

(** ** Log events *)



(** On [null], which only a filter of the application can let through,
    [createLogEvent] throws. *)
Lemma createLogEvent_null (rt : Runtime) (now : Z) :
  exists msg, createLogEvent rt now JNull = Throw msg.
Proof.
  unfold createLogEvent. destruct (JSON_stringify rt JNull); eexists; reflexivity.
Qed.

(** A function is accepted by the default filter, and its log event has no
    message. *)
Lemma createLogEvent_function :
  filterWrite_default JFun = Normal true
  /\ createLogEvent Example.rt 1000 JFun
     = Normal {| message := None; timestamp := Some 1000 |}.
Proof. split; reflexivity. Qed.


(** ** The recovery epoch *)

Ltac unfold_methods :=
  unfold putLogEventsAnswered, describeLogStreamsAnswered, createLogGroupAnswered,
    createLogStreamAnswered, onPutLogEvents, onSequenceToken, _sendLogs, failWith,
    callOnError, _nextAfterError, _handleError, clearQueue, _putLogEvents, attemptPut,
    _getSequenceToken, _createLogGroupAndStream, _createLogGroup, _createLogStream,
    _emitPutLogEvents, _emitCreateLogGroup, _emitCreateLogStream, _scheduleSendLogs,
    addPending, invokeHook, emit, call, raise, setPending, onSelf in *.

Ltac case_matches :=
  repeat match goal with
         | |- context [match ?x with _ => _ end] => destruct x eqn:?
         | |- context [if ?x then _ else _] => destruct x eqn:?
         end.

Lemma nextIssued_hookCalls (id : Z) (w : World) :
  nextIssued id w = true -> existsb (fun h => hc_next h =? id) (hookCalls w) = true.
Proof.
  unfold nextIssued. destruct (onError (self w)); [auto | auto | discriminate].
Qed.

Lemma _nextAfterError_stale (id : Z) (arg : NextArg) (w : World) :
  id <> _onErrorNextCbId (self w) -> _nextAfterError id arg w = w.
Proof.
  intros Hne. unfold _nextAfterError.
  destruct (_onErrorNextCbId (self w) =? id) eqn:E; [|reflexivity].
  apply Z.eqb_eq in E. congruence.
Qed.

Lemma _nextAfterError_honoured_counter (id : Z) (arg : NextArg) (w : World) :
  id = _onErrorNextCbId (self w) ->
  _onErrorNextCbId (self (_nextAfterError id arg w)) = id + 1.
Proof.
  intros ->. unfold _nextAfterError. rewrite Z.eqb_refl. cbn [negb].
  destruct arg; unfold_methods; cbn; try reflexivity.
  - destruct (errorListener (self w)); reflexivity.
  - destruct (queuedLogs (self w)); reflexivity.
Qed.

Lemma _nextAfterError_counter (id : Z) (arg : NextArg) (w : World) :
  _onErrorNextCbId (self w) <= _onErrorNextCbId (self (_nextAfterError id arg w)).
Proof.
  destruct (Z.eq_dec id (_onErrorNextCbId (self w))) as [E|E].
  - rewrite (_nextAfterError_honoured_counter arg w E). lia.
  - rewrite (_nextAfterError_stale arg w E). lia.
Qed.

Lemma failWith_counter (err : JSError) (logEvents : option (list LogEvent)) (w : World) :
  _onErrorNextCbId (self w) < _onErrorNextCbId (self (failWith err logEvents w)).
Proof.
  unfold failWith, callOnError.
  match goal with
  | |- context [invokeHook ?h ?x] => set (w1 := invokeHook h x)
  end.
  assert (H1 : _onErrorNextCbId (self w1) = _onErrorNextCbId (self w) + 1) by reflexivity.
  destruct (onError (self w1)).
  - pose proof (_nextAfterError_counter
                  (_onErrorNextCbId (self (onSelf (set_onErrorNextCbId
                     (_onErrorNextCbId (self w) + 1)) w))) (NextError err) w1). lia.
  - lia.
  - cbn. lia.
Qed.

Lemma failWith_hook (err : JSError) (logEvents : option (list LogEvent)) (w : World) :
  hookCalls (failWith err logEvents w)
  = hookCalls w ++ [{| hc_err := err; hc_logEvents := logEvents;
                       hc_next := _onErrorNextCbId (self w) + 1 |}].
Proof.
  unfold failWith, callOnError.
  match goal with
  | |- context [invokeHook ?h ?x] => set (w1 := invokeHook h x)
  end.
  destruct (onError (self w1)); [|reflexivity|reflexivity].
  unfold _nextAfterError, _handleError. case_matches; reflexivity.
Qed.

Lemma _sendLogs_counter (w : World) :
  _onErrorNextCbId (self (_sendLogs w)) = _onErrorNextCbId (self w).
Proof.
  unfold _sendLogs. case_matches; reflexivity.
Qed.

Lemma _write_counter (rt : Runtime) (now : Z) (record : JSValue) (w : World) :
  _onErrorNextCbId (self (_write rt now record w)) = _onErrorNextCbId (self w).
Proof.
  unfold _write. case_matches; reflexivity.
Qed.

Lemma step_counter (rt : Runtime) (w w' : World) (ev : Event) :
  step rt w ev = Some w' ->
  _onErrorNextCbId (self w) <= _onErrorNextCbId (self w').
Proof.
  destruct ev; cbn [step]; intros H.
  - inversion H; subst. rewrite _write_counter. lia.
  - inversion H; subst; cbn; lia.
  - inversion H; subst; cbn; lia.
  - destruct (takePending selSendLogs (pending w)) as [[? rest]|]; inversion H; subst.
    rewrite _sendLogs_counter. cbn. lia.
  - destruct (takePending selAttemptPut (pending w)) as [[[? ?] rest]|]; inversion H; subst.
    cbn. lia.
  - destruct (takePending selDescribe (pending w)) as [[? rest]|]; inversion H; subst.
    unfold describeLogStreamsAnswered, onSequenceToken.
    destruct r as [err|[|tok ?]].
    + destruct (String.eqb (err_name err) "ResourceNotFoundException").
      * cbn. lia.
      * pose proof (failWith_counter err None (setPending rest w)). cbn in *. lia.
    + cbn. lia.
    + rewrite _sendLogs_counter. cbn. lia.
  - destruct (takePending selCreateLogGroup (pending w)) as [[? rest]|]; inversion H; subst.
    unfold createLogGroupAnswered, onSequenceToken. destruct err as [e|].
    + pose proof (failWith_counter e None (setPending rest w)). cbn in *. lia.
    + cbn. lia.
  - destruct (takePending selCreateLogStream (pending w)) as [[? rest]|]; inversion H; subst.
    unfold createLogStreamAnswered, onSequenceToken. destruct err as [e|].
    + pose proof (failWith_counter e None (setPending rest w)). cbn in *. lia.
    + cbn. lia.
  - destruct (takePending selPutLogEvents (pending w)) as [[[ap retries] rest]|];
      inversion H; subst.
    unfold putLogEventsAnswered, onPutLogEvents. destruct r as [err|tok].
    + destruct (err_retryable err && _).
      * cbn. lia.
      * pose proof (failWith_counter err (Some (ap_logEvents ap)) (setPending rest w)).
        cbn in *. lia.
    + cbn. destruct (queuedLogs (self w)); cbn; lia.
  - destruct (nextIssued id w); inversion H; subst. apply _nextAfterError_counter.
Qed.

Lemma run_counter (rt : Runtime) (evs : list Event) :
  forall w w', run rt w evs = Some w' ->
               _onErrorNextCbId (self w) <= _onErrorNextCbId (self w').
Proof.
  induction evs as [|ev evs IH]; cbn [run]; intros w w' H.
  - inversion H; subst. lia.
  - destruct (step rt w ev) as [w1|] eqn:Hs; [|discriminate].
    pose proof (step_counter rt w ev Hs). specialize (IH w1 w' H). lia.
Qed.

(** C5. A failure increments the recovery counter and hands the hook a
    [next] bound to the new value; an invocation of [next] whose id is not
    the current counter leaves the world as it is; and once an invocation
    has been honoured, every later invocation with the same id, after any
    run, leaves the world as it is. *)
Theorem next_honoured_at_most_once (rt : Runtime) (w : World) (id : Z) (arg : NextArg) :
  (forall err logEvents,
      _onErrorNextCbId (self w) < _onErrorNextCbId (self (failWith err logEvents w))
      /\ hookCalls (failWith err logEvents w)
         = hookCalls w ++ [{| hc_err := err; hc_logEvents := logEvents;
                              hc_next := _onErrorNextCbId (self w) + 1 |}])
  /\ (id <> _onErrorNextCbId (self w) -> _nextAfterError id arg w = w)
  /\ (id = _onErrorNextCbId (self w) ->
      forall evs w' arg',
        run rt (_nextAfterError id arg w) evs = Some w' ->
        _nextAfterError id arg' w' = w').
Proof.
  split; [|split].
  - intros err logEvents. split; [apply failWith_counter | apply failWith_hook].
  - apply _nextAfterError_stale.
  - intros Hid evs w' arg' Hrun.
    apply _nextAfterError_stale.
    pose proof (run_counter rt evs _ Hrun) as Hle.
    rewrite (_nextAfterError_honoured_counter arg w Hid) in Hle. lia.
Qed.

Lemma next_honoured_at_most_once_witness :
  2 = _onErrorNextCbId (self (Example.after Example.refused))
  /\ _nextAfterError 2 NextNothing
       (_nextAfterError 2 (NextEvents [Example.evA]) (Example.after Example.refused))
     = _nextAfterError 2 (NextEvents [Example.evA]) (Example.after Example.refused).
Proof.
  split; [reflexivity|].
  exact (proj2 (proj2 (next_honoured_at_most_once Example.rt
                         (Example.after Example.refused) 2 (NextEvents [Example.evA])))
           eq_refl [] _ NextNothing eq_refl).
Defined.

(** ** The cycle invariant *)

Lemma staleAt_mono (c c' : Z) (hs : list HookCall) :
  staleAt c hs -> c <= c' -> staleAt c' hs.
Proof.
  unfold staleAt. intros H Hle. eapply Forall_impl; [|exact H].
  cbn. intros h Hh. lia.
Qed.

Lemma staleAt_ordered (c : Z) (hs : list HookCall) : staleAt c hs -> orderedAt c hs.
Proof.
  unfold staleAt, orderedAt. intros H. apply Forall_rev in H.
  destruct (rev hs) as [|h older]; [exact I|].
  inversion H; subst. split; [lia | assumption].
Qed.

Lemma orderedAt_bump (c c' : Z) (hs : list HookCall) :
  orderedAt c hs -> c < c' -> staleAt c' hs.
Proof.
  unfold staleAt, orderedAt. intros H Hlt.
  rewrite <- (rev_involutive hs). apply Forall_rev.
  destruct (rev hs) as [|h older]; [constructor|].
  destruct H as [Hh Holder]. constructor; [lia|].
  eapply Forall_impl; [|exact Holder]. cbn. intros; lia.
Qed.

Lemma orderedAt_snoc (c : Z) (hs : list HookCall) (h : HookCall) :
  staleAt c hs -> hc_next h <= c -> orderedAt c (hs ++ [h]).
Proof.
  unfold staleAt, orderedAt. intros H Hh. rewrite rev_app_distr. cbn.
  split; [exact Hh | apply Forall_rev; exact H].
Qed.

Lemma staleAt_snoc (c : Z) (hs : list HookCall) (h : HookCall) :
  staleAt c hs -> hc_next h < c -> staleAt c (hs ++ [h]).
Proof.
  unfold staleAt. intros H Hh. apply Forall_app. split; [exact H|].
  constructor; [exact Hh | constructor].
Qed.

Lemma staleAt_not_issued (c : Z) (hs : list HookCall) :
  staleAt c hs -> existsb (fun h => hc_next h =? c) hs = false.
Proof.
  unfold staleAt. induction 1 as [|h hs Hh _ IH]; cbn; [reflexivity|].
  rewrite IH. destruct (hc_next h =? c) eqn:E; [|reflexivity].
  apply Z.eqb_eq in E. lia.
Qed.


Lemma takePending_single {A} (sel : Pending -> option A) (l rest : list Pending) (a : A) :
  (List.length l <= 1)%nat ->
  takePending sel l = Some (a, rest) ->
  rest = [] /\ l <> [].
Proof.
  destruct l as [|p [|p' l]]; cbn; intros Hlen H; try discriminate; try lia.
  destruct (sel p); inversion H; subst. split; [reflexivity | discriminate].
Qed.

(** When a callback of the cycle fires, it was the only one outstanding. *)
Lemma Inv_fire {A} (sel : Pending -> option A) (w : World) (a : A) (rest : list Pending) :
  Inv w ->
  takePending sel (pending w) = Some (a, rest) ->
  rest = [] /\ Busy (setPending rest w).
Proof.
  intros [Hlen Hord Hbusy Hidle] Htake.
  destruct (takePending_single sel _ Hlen Htake) as [-> Hne].
  split; [reflexivity|]. constructor; cbn.
  - reflexivity.
  - destruct (writeQueued (self w)); [reflexivity|].
    destruct (Hidle eq_refl) as [Hp _]. contradiction.
  - exact (Hbusy Hne).
Qed.

Lemma Inv_one (w : World) (p : Pending) :
  pending w = [p] -> writeQueued (self w) = true -> staleCalls w -> Inv w.
Proof.
  intros Hp Hq Hs. constructor.
  - rewrite Hp. cbn. lia.
  - apply staleAt_ordered. exact Hs.
  - intros _. exact Hs.
  - rewrite Hq. discriminate.
Qed.

Lemma _sendLogs_Inv (w : World) : Busy w -> Inv (_sendLogs w).
Proof.
  intros [Hp Hq Hs]. unfold _sendLogs.
  destruct (isNullToken (sequenceToken (self w))).
  - eapply Inv_one; cbn; [rewrite Hp; reflexivity | exact Hq | exact Hs].
  - destruct (queuedLogs (self w)) as [|e q] eqn:Hqueue.
    + constructor; cbn.
      * rewrite Hp. cbn. lia.
      * apply staleAt_ordered. exact Hs.
      * intros _. exact Hs.
      * intros _. repeat split; assumption.
    + destruct (nextLogBatchSize (self w) (e :: q)) as [batchCount|msg].
      * destruct (Nat.eqb _ _);
          (eapply Inv_one; cbn; [rewrite Hp; reflexivity | exact Hq | exact Hs]).
      * constructor; cbn.
        -- rewrite Hp. cbn. lia.
        -- apply staleAt_ordered. exact Hs.
        -- intros _. exact Hs.
        -- rewrite Hq. discriminate.
Qed.

Lemma failWith_Inv (err : JSError) (logEvents : option (list LogEvent)) (w : World) :
  Busy w -> Inv (failWith err logEvents w).
Proof.
  intros [Hp Hq Hs]. unfold failWith, callOnError. cbn.
  destruct (onError (self w)).
  - unfold _nextAfterError, _handleError. cbn. rewrite Z.eqb_refl. cbn.
    destruct (errorListener (self w)); constructor; cbn.
    + rewrite Hp. cbn. lia.
    + apply staleAt_ordered. apply staleAt_snoc; cbn; [|lia].
      eapply staleAt_mono; [exact Hs | lia].
    + rewrite Hp. congruence.
    + rewrite Hq. discriminate.
    + rewrite Hp. cbn. lia.
    + apply staleAt_ordered. apply staleAt_snoc; cbn; [|lia].
      eapply staleAt_mono; [exact Hs | lia].
    + rewrite Hp. congruence.
    + rewrite Hq. discriminate.
  - constructor; cbn.
    + rewrite Hp. cbn. lia.
    + apply orderedAt_snoc; cbn; [|lia].
      eapply staleAt_mono; [exact Hs | lia].
    + rewrite Hp. congruence.
    + rewrite Hq. discriminate.
  - constructor; cbn.
    + rewrite Hp. cbn. lia.
    + apply orderedAt_snoc; cbn; [|lia].
      eapply staleAt_mono; [exact Hs | lia].
    + rewrite Hp. congruence.
    + rewrite Hq. discriminate.
Qed.

Lemma Busy_self (f : CWLogsWritable -> CWLogsWritable) (w : World) :
  Busy w ->
  _onErrorNextCbId (f (self w)) = _onErrorNextCbId (self w) ->
  writeQueued (f (self w)) = writeQueued (self w) ->
  Busy (onSelf f w).
Proof.
  intros [Hp Hq Hs] Hc Hw. constructor; cbn.
  - exact Hp.
  - rewrite Hw. exact Hq.
  - unfold staleCalls in *. cbn. rewrite Hc. exact Hs.
Qed.

Lemma onSequenceToken_Inv (res : JSError + SeqToken) (w : World) :
  Busy w -> Inv (onSequenceToken res w).
Proof.
  intros Hb. destruct res as [err|tok]; cbn [onSequenceToken].
  - apply failWith_Inv. exact Hb.
  - apply _sendLogs_Inv. apply Busy_self; [exact Hb | reflexivity | reflexivity].
Qed.

Lemma onPutLogEvents_Inv (apiParams : ApiParams) (res : JSError + SeqToken) (w : World) :
  Busy w -> Inv (onPutLogEvents apiParams res w).
Proof.
  intros Hb. destruct res as [err|tok]; cbn [onPutLogEvents].
  - apply failWith_Inv. exact Hb.
  - destruct Hb as [Hp Hq Hs]. cbn.
    destruct (queuedLogs (self w)) as [|e q] eqn:Hqueue.
    + constructor; cbn.
      * rewrite Hp. cbn. lia.
      * apply staleAt_ordered. exact Hs.
      * intros _. exact Hs.
      * intros _. repeat split; assumption.
    + eapply Inv_one; cbn; [rewrite Hp; reflexivity | exact Hq | exact Hs].
Qed.

Lemma _nextAfterError_Inv (id : Z) (arg : NextArg) (w : World) :
  Inv w -> nextIssued id w = true -> Inv (_nextAfterError id arg w).
Proof.
  intros HI Hissued. unfold _nextAfterError.
  destruct (_onErrorNextCbId (self w) =? id) eqn:E; cbn [negb]; [|exact HI].
  apply Z.eqb_eq in E. subst id.
  destruct HI as [Hlen Hord Hbusy Hidle].
  assert (Hp : pending w = []).
  { destruct (pending w) as [|p l] eqn:Hp; [reflexivity|].
    pose proof (staleAt_not_issued (Hbusy ltac:(discriminate))) as Hn.
    apply nextIssued_hookCalls in Hissued. congruence. }
  assert (Hq : writeQueued (self w) = true).
  { destruct (writeQueued (self w)); [reflexivity|].
    destruct (Hidle eq_refl) as (_ & Hs & _).
    pose proof (staleAt_not_issued Hs) as Hn.
    apply nextIssued_hookCalls in Hissued. congruence. }
  assert (Hs : staleAt (_onErrorNextCbId (self w) + 1) (hookCalls w)).
  { eapply orderedAt_bump; [exact Hord | lia]. }
  destruct arg as [|err|logEvents].
  - eapply Inv_one; cbn; [rewrite Hp; reflexivity | exact Hq | exact Hs].
  - unfold _handleError. cbn. destruct (errorListener (self w)); constructor; cbn;
      try (rewrite Hp; cbn; lia); try (apply staleAt_ordered; exact Hs);
      try (intros _; exact Hs); rewrite Hq; discriminate.
  - cbn. destruct (queuedLogs (self w));
      (eapply Inv_one; cbn; [rewrite Hp; reflexivity | exact Hq | exact Hs]).
Qed.

Lemma Inv_raise (x : Thrown) (w : World) : Inv w -> Inv (raise x w).
Proof.
  intros [Hlen Hord Hbusy Hidle]. constructor; assumption.
Qed.

Lemma _write_Inv (rt : Runtime) (now : Z) (record : JSValue) (w : World) :
  Inv w -> Inv (_write rt now record w).
Proof.
  intros HI. unfold _write.
  destruct (filterWrite (self w) record) as [[|]|msg];
    [|exact HI|apply Inv_raise; exact HI].
  destruct (createLogEvent rt now record) as [ev|]; [|apply Inv_raise; exact HI].
  cbn. destruct HI as [Hlen Hord Hbusy Hidle].
  destruct (writeQueued (self w)) eqn:Hq; cbn.
  - constructor; cbn; try assumption. rewrite Hq. discriminate.
  - destruct (Hidle eq_refl) as (Hp & Hs & _).
    eapply Inv_one; cbn; [rewrite Hp; reflexivity | reflexivity | exact Hs].
Qed.

Lemma step_Inv (rt : Runtime) (w w' : World) (ev : Event) :
  Inv w -> step rt w ev = Some w' -> Inv w'.
Proof.
  intros HI. destruct ev; cbn [step]; intros H.
  - inversion H; subst. apply _write_Inv. exact HI.
  - inversion H; subst. destruct HI as [Hlen Hord Hbusy Hidle].
    constructor; cbn; try assumption.
    intros Hq. destruct (Hidle Hq) as (? & ? & ?). repeat split; assumption.
  - inversion H; subst. destruct HI as [Hlen Hord Hbusy Hidle].
    constructor; assumption.
  - destruct (takePending selSendLogs (pending w)) as [[a rest]|] eqn:Ht;
      inversion H; subst.
    destruct (Inv_fire _ HI Ht) as [_ Hb]. apply _sendLogs_Inv. exact Hb.
  - destruct (takePending selAttemptPut (pending w)) as [[[ap retries] rest]|] eqn:Ht;
      inversion H; subst.
    destruct (Inv_fire _ HI Ht) as [-> [Hp Hq Hs]].
    eapply Inv_one; cbn; [reflexivity | exact Hq | exact Hs].
  - destruct (takePending selDescribe (pending w)) as [[a rest]|] eqn:Ht;
      inversion H; subst.
    destruct (Inv_fire _ HI Ht) as [-> Hb].
    unfold describeLogStreamsAnswered. destruct r as [err|[|tok l]].
    + destruct (String.eqb (err_name err) "ResourceNotFoundException").
      * destruct Hb as [Hp Hq Hs]. eapply Inv_one; cbn; [reflexivity | exact Hq | exact Hs].
      * apply onSequenceToken_Inv. exact Hb.
    + destruct Hb as [Hp Hq Hs]. eapply Inv_one; cbn; [reflexivity | exact Hq | exact Hs].
    + apply onSequenceToken_Inv. exact Hb.
  - destruct (takePending selCreateLogGroup (pending w)) as [[a rest]|] eqn:Ht;
      inversion H; subst.
    destruct (Inv_fire _ HI Ht) as [-> Hb].
    unfold createLogGroupAnswered. destruct err as [e|].
    + apply onSequenceToken_Inv. exact Hb.
    + destruct Hb as [Hp Hq Hs]. eapply Inv_one; cbn; [reflexivity | exact Hq | exact Hs].
  - destruct (takePending selCreateLogStream (pending w)) as [[a rest]|] eqn:Ht;
      inversion H; subst.
    destruct (Inv_fire _ HI Ht) as [-> Hb].
    unfold createLogStreamAnswered. destruct err as [e|].
    + apply onSequenceToken_Inv. exact Hb.
    + destruct Hb as [Hp Hq Hs]. eapply Inv_one; cbn; [reflexivity | exact Hq | exact Hs].
  - destruct (takePending selPutLogEvents (pending w)) as [[[ap retries] rest]|] eqn:Ht;
      inversion H; subst.
    destruct (Inv_fire _ HI Ht) as [-> Hb].
    unfold putLogEventsAnswered. destruct r as [err|tok].
    + destruct (err_retryable err && _).
      * destruct Hb as [Hp Hq Hs]. eapply Inv_one; cbn; [reflexivity | exact Hq | exact Hs].
      * apply onPutLogEvents_Inv. exact Hb.
    + apply onPutLogEvents_Inv. exact Hb.
  - destruct (nextIssued id w) eqn:Hi; inversion H; subst.
    apply _nextAfterError_Inv; assumption.
Qed.

Lemma run_Inv (rt : Runtime) (evs : list Event) :
  forall w w', Inv w -> run rt w evs = Some w' -> Inv w'.
Proof.
  induction evs as [|ev evs IH]; cbn [run]; intros w w' HI H.
  - inversion H; subst. exact HI.
  - destruct (step rt w ev) as [w1|] eqn:Hs; [|discriminate].
    eapply IH; [eapply step_Inv; eassumption | exact H].
Qed.

Lemma newWorld_Inv (options : option Options) (this : CWLogsWritable) :
  CWLogsWritable_new options = Normal this -> Inv (newWorld this).
Proof.
  intros Hnew. destruct (CWLogsWritable_new_fresh options Hnew) as (_ & _ & Hq & Hl & _).
  constructor; cbn.
  - lia.
  - exact I.
  - congruence.
  - intros _. repeat split; [constructor | exact Hl].
Qed.

Lemma Reachable_Inv (rt : Runtime) (w : World) : Reachable rt w -> Inv w.
Proof.
  intros (options & this & evs & Hnew & Hrun).
  eapply run_Inv; [eapply newWorld_Inv; exact Hnew | exact Hrun].
Qed.

(** A [next] that will be honoured finds nothing outstanding and the cycle
    marked as scheduled. *)
Lemma Inv_honoured (w : World) :
  Inv w -> nextIssued (_onErrorNextCbId (self w)) w = true ->
  pending w = [] /\ writeQueued (self w) = true.
Proof.
  intros [Hlen Hord Hbusy Hidle] Hissued. apply nextIssued_hookCalls in Hissued. split.
  - destruct (pending w) as [|p l] eqn:Hp; [reflexivity|].
    pose proof (staleAt_not_issued (Hbusy ltac:(discriminate))) as Hn. congruence.
  - destruct (writeQueued (self w)); [reflexivity|].
    destruct (Hidle eq_refl) as (_ & Hs & _).
    pose proof (staleAt_not_issued Hs) as Hn. congruence.
Qed.


(** ** Fail-stop *)



(** The two ways [_handleError] goes. *)
Lemma _handleError_listener (err : JSError) (w : World) :
  errorListener (self w) = true ->
  _handleError err w
  = onSelf (set_filterWrite _falseFilterWrite) (snd (clearQueue (emit (EmitError err) w))).
Proof.
  intros H. unfold _handleError. cbn. rewrite H. reflexivity.
Qed.

Lemma _handleError_no_listener (err : JSError) (w : World) :
  errorListener (self w) = false ->
  _handleError err w = raise (ThrownError err) (emit (EmitError err) w).
Proof.
  intros H. unfold _handleError. cbn. rewrite H. reflexivity.
Qed.




(** After an exception escaped a callback of the cycle, writes still queue
    up, but no timer and no call of the service is outstanding, and no
    [next] is honoured: nothing is sent any more. *)
Lemma Stalled_step (rt : Runtime) (w w' : World) (ev : Event) :
  Stalled w -> step rt w ev = Some w' ->
  Stalled w'
  /\ calls w' = calls w /\ emitted w' = emitted w /\ hookCalls w' = hookCalls w.
Proof.
  intros HS. pose proof HS as [Hp Hq Hs].
  destruct ev; cbn [step]; rewrite ?Hp; cbn [takePending];
    intros H; try discriminate.
  - inversion H; subst. unfold _write.
    destruct (filterWrite (self w) record) as [[|]|msg]; [|auto|].
    + destruct (createLogEvent rt now record) as [e|msg].
      * cbn. rewrite Hq. cbn. split; [constructor; assumption | auto].
      * split; [constructor; assumption | auto].
    + split; [constructor; assumption | auto].
  - inversion H; subst. cbn. split; [constructor; assumption | auto].
  - inversion H; subst. cbn. split; [constructor; assumption | auto].
  - destruct (nextIssued id w) eqn:Hi; [|discriminate]. inversion H; subst.
    rewrite _nextAfterError_stale; [auto|]. intros ->.
    pose proof (staleAt_not_issued Hs). apply nextIssued_hookCalls in Hi. congruence.
Qed.

Lemma Stalled_run (rt : Runtime) (evs : list Event) :
  forall w w', Stalled w -> run rt w evs = Some w' ->
    Stalled w'
    /\ calls w' = calls w /\ emitted w' = emitted w /\ hookCalls w' = hookCalls w.
Proof.
  induction evs as [|ev evs IH]; cbn [run]; intros w w' HS H.
  - inversion H; subst. auto.
  - destruct (step rt w ev) as [w1|] eqn:Hs; [|discriminate].
    destruct (Stalled_step rt ev HS Hs) as (HS1 & Hc & He & Hh).
    destruct (IH w1 w' HS1 H) as (HS' & Hc' & He' & Hh').
    split; [exact HS'|]. repeat split; congruence.
Qed.


Lemma Example_new :
  CWLogsWritable_new (Some (Example.options (Some (AFunction tt)) None))
  = Normal (Example.stream UserOnError).
Proof. vm_compute. reflexivity. Qed.

Lemma Example_reachable (evs : list Event) (w : World) :
  run Example.rt (newWorld (Example.stream UserOnError)) evs = Some w ->
  Reachable Example.rt w.
Proof.
  intros H. exists (Some (Example.options (Some (AFunction tt)) None)),
    (Example.stream UserOnError), evs.
  split; [exact Example_new | exact H].
Defined.

Lemma Example_refused_reachable : Reachable Example.rt (Example.after Example.refused).
Proof.
  apply (Example_reachable Example.refused). vm_compute. reflexivity.
Defined.





(** ** Resuming with events *)

(** C8. When the recovery hook calls [next(logEvents)] with an array and the
    call is honoured, the events are put at the head of the queue in their
    order, ahead of what was queued; the sequence token is [null]; one cycle
    is scheduled and no call of the service is made yet; and when that cycle
    fires, the first call is [describeLogStreams], with the queue
    untouched. *)
Theorem next_with_events_requeues (rt : Runtime) (w w' : World) (id : Z)
        (logEvents : list LogEvent) :
  Reachable rt w ->
  id = _onErrorNextCbId (self w) ->
  step rt w (EvNext id (NextEvents logEvents)) = Some w' ->
  queuedLogs (self w') = logEvents ++ queuedLogs (self w)
  /\ sequenceToken (self w') = TokNull
  /\ pending w' = [PSendLogs]
  /\ calls w' = calls w
  /\ exists w'',
      step rt w' EvSendLogsTimer = Some w''
      /\ calls w'' = calls w' ++ [CallDescribeLogStreams]
      /\ pending w'' = [PDescribeLogStreams]
      /\ queuedLogs (self w'') = queuedLogs (self w').
Proof.
  intros Hreach -> Hstep. cbn [step] in Hstep.
  destruct (nextIssued (_onErrorNextCbId (self w)) w) eqn:Hi; [|discriminate].
  pose proof (Reachable_Inv Hreach) as HI.
  destruct (Inv_honoured HI Hi) as [Hp Hq].
  inversion Hstep; subst w'; clear Hstep.
  unfold _nextAfterError. rewrite Z.eqb_refl. cbn [negb]. cbn.
  destruct (queuedLogs (self w)) as [|e q] eqn:Hqueue; cbn; rewrite Hp; cbn;
    rewrite ?app_nil_r;
    (split; [reflexivity|]; split; [reflexivity|]; split; [reflexivity|];
     split; [reflexivity|]; eexists; split; [reflexivity|];
     cbn; repeat split; reflexivity).
Qed.

Lemma next_with_events_requeues_witness :
  Reachable Example.rt (Example.after Example.refused)
  /\ 2 = _onErrorNextCbId (self (Example.after Example.refused))
  /\ step Example.rt (Example.after Example.refused) (EvNext 2 (NextEvents [Example.evA]))
     = Some (_nextAfterError 2 (NextEvents [Example.evA]) (Example.after Example.refused))
  /\ queuedLogs (self (_nextAfterError 2 (NextEvents [Example.evA])
                         (Example.after Example.refused)))
     = [Example.evA] ++ queuedLogs (self (Example.after Example.refused)).
Proof.
  assert (H1 : 2 = _onErrorNextCbId (self (Example.after Example.refused)))
    by (vm_compute; reflexivity).
  assert (H2 : step Example.rt (Example.after Example.refused)
                 (EvNext 2 (NextEvents [Example.evA]))
               = Some (_nextAfterError 2 (NextEvents [Example.evA])
                         (Example.after Example.refused)))
    by (vm_compute; reflexivity).
  split; [exact Example_refused_reachable|]. split; [exact H1|]. split; [exact H2|].
  exact (proj1 (@next_with_events_requeues Example.rt _ _ 2 [Example.evA]
                  Example_refused_reachable H1 H2)).
Defined.

(** ** A cycle that fires *)

Lemma isNullToken_true (t : SeqToken) : isNullToken t = true <-> t = TokNull.
Proof.
  destruct t; cbn; split; intros H; congruence.
Qed.

(** C6. When a scheduled cycle fires: if the sequence token is not [null]
    and the queue is empty, no call of the service is made and the stream is
    idle again; if the token is [null], [describeLogStreams] is called and
    the cycle stays scheduled, whether or not the queue is empty; if the
    queue is still empty when a token that is not [null] comes back, the
    stream is idle again without a further call; and [putLogEvents] is
    called by the firing only when the token is not [null] and the queue is
    not empty. *)
Theorem sendLogs_timer_fires (rt : Runtime) (w w' : World) :
  Reachable rt w ->
  step rt w EvSendLogsTimer = Some w' ->
  (sequenceToken (self w) <> TokNull -> queuedLogs (self w) = [] ->
   calls w' = calls w /\ idle w')
  /\ (sequenceToken (self w) = TokNull ->
      calls w' = calls w ++ [CallDescribeLogStreams]
      /\ pending w' = [PDescribeLogStreams]
      /\ writeQueued (self w') = true
      /\ queuedLogs (self w') = queuedLogs (self w))
  /\ (forall tok l w'',
        sequenceToken (self w) = TokNull -> queuedLogs (self w) = [] ->
        tok <> TokNull ->
        step rt w' (EvDescribeLogStreams (DescribeOk (tok :: l))) = Some w'' ->
        calls w'' = calls w' /\ idle w'')
  /\ (forall apiParams,
        calls w' = calls w ++ [CallPutLogEvents apiParams] ->
        sequenceToken (self w) <> TokNull /\ queuedLogs (self w) <> []).
Proof.
  intros Hreach Hstep. cbn [step] in Hstep.
  destruct (takePending selSendLogs (pending w)) as [[a rest]|] eqn:Ht; [|discriminate].
  destruct (Inv_fire _ (Reachable_Inv Hreach) Ht) as [-> [Hp Hq Hs]].
  cbn in Hp, Hq. inversion Hstep; subst w'; clear Hstep.
  unfold _sendLogs. cbn.
  destruct (isNullToken (sequenceToken (self w))) eqn:Htok.
  - apply isNullToken_true in Htok. cbn.
    split; [congruence|]. split; [intros _; repeat split; assumption|]. split.
    + intros tok l w'' _ Hempty Hnn Hstep. cbn in Hstep.
      inversion Hstep; subst w''; clear Hstep.
      unfold _sendLogs. cbn.
      destruct (isNullToken tok) eqn:Ht2; [apply isNullToken_true in Ht2; congruence|].
      rewrite Hempty. cbn. split; [reflexivity|]. split; reflexivity.
    + intros ap Hcalls. apply app_inv_head in Hcalls. discriminate.
  - assert (Hnn : sequenceToken (self w) <> TokNull).
    { intros E. apply isNullToken_true in E. congruence. }
    split; [|split; [congruence|split; [congruence|]]].
    + intros _ Hempty. rewrite Hempty. cbn. split; [reflexivity|]. split; reflexivity.
    + intros ap Hcalls. split; [exact Hnn|]. intros Hempty.
      rewrite Hempty in Hcalls. cbn in Hcalls.
      rewrite <- (app_nil_r (calls w)) in Hcalls at 1.
      apply app_inv_head in Hcalls. discriminate.
Qed.

Lemma Example_resumeEmpty_reachable :
  Reachable Example.rt (Example.after Example.resumeEmpty).
Proof.
  apply (Example_reachable Example.resumeEmpty). vm_compute. reflexivity.
Defined.

Lemma sendLogs_timer_fires_witness :
  Reachable Example.rt (Example.after Example.resumeEmpty)
  /\ step Example.rt (Example.after Example.resumeEmpty) EvSendLogsTimer
     = Some (_sendLogs (setPending [] (Example.after Example.resumeEmpty)))
  /\ (sequenceToken (self (Example.after Example.resumeEmpty)) = TokNull ->
      calls (_sendLogs (setPending [] (Example.after Example.resumeEmpty)))
      = calls (Example.after Example.resumeEmpty) ++ [CallDescribeLogStreams]
      /\ pending (_sendLogs (setPending [] (Example.after Example.resumeEmpty)))
         = [PDescribeLogStreams]
      /\ writeQueued (self (_sendLogs (setPending [] (Example.after Example.resumeEmpty))))
         = true
      /\ queuedLogs (self (_sendLogs (setPending [] (Example.after Example.resumeEmpty))))
         = queuedLogs (self (Example.after Example.resumeEmpty))).
Proof.
  assert (H2 : step Example.rt (Example.after Example.resumeEmpty) EvSendLogsTimer
               = Some (_sendLogs (setPending [] (Example.after Example.resumeEmpty))))
    by (vm_compute; reflexivity).
  split; [exact Example_resumeEmpty_reachable|]. split; [exact H2|].
  exact (proj1 (proj2 (@sendLogs_timer_fires Example.rt _ _
                         Example_resumeEmpty_reachable H2))).
Defined.

(** C6, as worded: a cycle that fires on an empty queue does call the
    service when the sequence token is [null].  After a refused batch that
    the hook did not give back, the queue is empty, the token is [null], and
    the firing calls [describeLogStreams] and leaves the cycle scheduled. *)
Lemma empty_queue_goes_idle_fails : ~ empty_queue_goes_idle Example.rt.
Proof.
  intros H.
  assert (H2 : step Example.rt (Example.after Example.resumeEmpty) EvSendLogsTimer
               = Some (_sendLogs (setPending [] (Example.after Example.resumeEmpty))))
    by (vm_compute; reflexivity).
  assert (H1 : queuedLogs (self (Example.after Example.resumeEmpty)) = [])
    by (vm_compute; reflexivity).
  destruct (H _ _ Example_resumeEmpty_reachable H1 H2) as [Hcalls _].
  assert (Hmore : calls (_sendLogs (setPending [] (Example.after Example.resumeEmpty)))
                  = calls (Example.after Example.resumeEmpty) ++ [CallDescribeLogStreams])
    by (vm_compute; reflexivity).
  rewrite Hmore in Hcalls.
  rewrite <- (app_nil_r (calls (Example.after Example.resumeEmpty))) in Hcalls at 2.
  apply app_inv_head in Hcalls. discriminate Hcalls.
Qed.

(** ** The retry engine *)

Lemma failWith_pending (err : JSError) (logEvents : option (list LogEvent)) (w : World) :
  pending (failWith err logEvents w) = pending w.
Proof.
  unfold failWith, callOnError. cbn. destruct (onError (self w)); [|reflexivity|reflexivity].
  unfold _nextAfterError, _handleError. cbn. rewrite Z.eqb_refl. cbn.
  destruct (errorListener (self w)); reflexivity.
Qed.

Lemma failWith_calls (err : JSError) (logEvents : option (list LogEvent)) (w : World) :
  calls (failWith err logEvents w) = calls w.
Proof.
  unfold failWith, callOnError. cbn. destruct (onError (self w)); [|reflexivity|reflexivity].
  unfold _nextAfterError, _handleError. cbn. rewrite Z.eqb_refl. cbn.
  destruct (errorListener (self w)); reflexivity.
Qed.

(** The test [retryableMax > retries] of [attemptPut], in terms of the
    number of retries that [retryableMax] allows. *)
Lemma retry_test (x : JSNumber) (retries : Z) :
  0 <= retries ->
  num_gt x (ofZ retries)
  = match retryLimit x with Some limit => retries <? limit | None => true end.
Proof.
  intros Hr. destruct x as [q| | |]; cbn [retryLimit].
  - apply eq_true_iff_eq. rewrite num_gt_ofZ_r, Z.ltb_lt. lia.
  - symmetry. apply Z.ltb_ge. exact Hr.
  - reflexivity.
  - symmetry. apply Z.ltb_ge. exact Hr.
Qed.

(** An integer allows that many retries, a fraction as many as the next
    integer. *)
Lemma retryLimit_integer (x : JSNumber) (m : Z) :
  isInteger x m -> 0 <= m -> retryLimit x = Some m.
Proof.
  intros (q & -> & Hq) Hm. cbn. rewrite (Qceiling_integer Hq). f_equal. lia.
Qed.

(** As long as the errors are retryable and [retryableMax] allows it, each
    refusal is followed by one more call, and nothing else changes. *)
Lemma retriedFailures_run (rt : Runtime) (apiParams : ApiParams) (errs : list JSError) :
  forall (w : World) (retries : Z),
    pending w = [PPutLogEvents apiParams retries] ->
    Forall (fun e => err_retryable e = true) errs ->
    0 <= retries ->
    match retryLimit (retryableMax (self w)) with
    | Some limit => retries + Z.of_nat (List.length errs) <= limit
    | None => True
    end ->
    exists w',
      run rt w (retriedFailures errs) = Some w'
      /\ self w' = self w
      /\ pending w' = [PPutLogEvents apiParams (retries + Z.of_nat (List.length errs))]
      /\ calls w' = calls w ++ repeat (CallPutLogEvents apiParams) (List.length errs)
      /\ emitted w' = emitted w
      /\ hookCalls w' = hookCalls w
      /\ thrown w' = thrown w.
Proof.
  induction errs as [|err errs IH]; intros w retries Hp Hall Hr Hmax.
  - exists w. cbn. rewrite Z.add_0_r, app_nil_r. repeat split; try reflexivity. exact Hp.
  - inversion Hall as [|? ? Hretry Hall']; subst.
    cbn [List.length] in Hmax. cbn [retriedFailures run step].
    rewrite Hp. cbn [takePending selPutLogEvents putLogEventsAnswered].
    rewrite Hretry.
    replace (num_gt (retryableMax (self (setPending [] w))) (ofZ retries)) with true.
    2:{ symmetry. rewrite (retry_test _ Hr). cbn [setPending self].
        destruct (retryLimit (retryableMax (self w))) as [limit|]; [|reflexivity].
        apply Z.ltb_lt. lia. }
    cbn [andb]. cbn [step].
    cbn [addPending setPending pending app takePending selAttemptPut].
    match goal with |- context [run rt ?x (retriedFailures errs)] => set (w1 := x) end.
    destruct (IH w1 (retries + 1)) as (w' & Hrun & Hself & Hpend & Hcalls & Hem & Hhook & Hth).
    + reflexivity.
    + exact Hall'.
    + lia.
    + subst w1. cbn.
      destruct (retryLimit (retryableMax (self w))) as [limit|]; [lia | exact I].
    + exists w'. split; [exact Hrun|]. split; [rewrite Hself; reflexivity|].
      split; [rewrite Hpend; f_equal; f_equal; cbn [List.length]; lia|].
      split; [rewrite Hcalls; cbn; rewrite <- app_assoc; reflexivity|].
      split; [rewrite Hem; reflexivity|].
      split; [rewrite Hhook; reflexivity | rewrite Hth; reflexivity].
Qed.

Lemma run_app (rt : Runtime) (evs1 evs2 : list Event) :
  forall w w1, run rt w evs1 = Some w1 -> run rt w (evs1 ++ evs2) = run rt w1 evs2.
Proof.
  induction evs1 as [|ev evs1 IH]; cbn [run app]; intros w w1 H.
  - inversion H; subst. reflexivity.
  - destruct (step rt w ev) as [w0|]; [|discriminate]. exact (IH w0 w1 H).
Qed.

Lemma repeat_snoc {A} (a : A) (n : nat) : repeat a n ++ [a] = repeat a (S n).
Proof.
  induction n as [|n IH]; cbn; [reflexivity|]. rewrite IH. reflexivity.
Qed.

(** C3. A batch is handed to [_putLogEvents] and the service refuses it with
    [N >= 1] retryable errors in a row.  The number of retries that
    [retryableMax] allows is [retryableMax] itself when it is an integer,
    and the next integer when it is a fraction.  If that number is at least
    [N] and the next attempt succeeds, [putLogEvents] has been called
    [N + 1] times and the cycle succeeds: the new token is stored, the batch
    is notified, the hook is not called.  If that number is a [limit] less
    than [N], [putLogEvents] is called [limit + 1] times, the error of the
    last attempt is passed as it is to the recovery hook with the batch, and
    no further attempt is outstanding.  An error that is not retryable is
    passed to the hook after the one call. *)
Theorem putLogEvents_retries (rt : Runtime) (w : World) (apiParams : ApiParams)
        (errs : list JSError) :
  pending w = [] ->
  errs <> [] ->
  Forall (fun e => err_retryable e = true) errs ->
  (forall m, isInteger (retryableMax (self w)) m -> 0 <= m ->
             retryLimit (retryableMax (self w)) = Some m)
  /\ (forall q, retryableMax (self w) = Fin q -> (0 <= q)%Q ->
                retryLimit (retryableMax (self w)) = Some (Qceiling q))
  /\ (match retryLimit (retryableMax (self w)) with
      | Some limit => Z.of_nat (List.length errs) <= limit
      | None => True
      end ->
      forall tok, exists w',
        run rt (_putLogEvents apiParams w)
            (retriedFailures errs ++ [EvPutLogEvents (PutOk tok)]) = Some w'
        /\ calls w' = calls w ++ repeat (CallPutLogEvents apiParams) (S (List.length errs))
        /\ sequenceToken (self w') = tok
        /\ emitted w' = emitted w ++ [EmitPutLogEvents (ap_logEvents apiParams)]
        /\ hookCalls w' = hookCalls w)
  /\ (forall limit,
        retryLimit (retryableMax (self w)) = Some limit ->
        limit < Z.of_nat (List.length errs) ->
        forall err, nth_error errs (Z.to_nat limit) = Some err ->
        exists w',
          run rt (_putLogEvents apiParams w)
              (retriedFailures (firstn (Z.to_nat limit) errs)
               ++ [EvPutLogEvents (PutErr err)]) = Some w'
          /\ calls w' = calls w ++ repeat (CallPutLogEvents apiParams)
                                     (S (Z.to_nat limit))
          /\ hookCalls w'
             = hookCalls w ++ [{| hc_err := err;
                                  hc_logEvents := Some (ap_logEvents apiParams);
                                  hc_next := _onErrorNextCbId (self w) + 1 |}]
          /\ pending w' = [])
  /\ (forall err, err_retryable err = false ->
      exists w',
        run rt (_putLogEvents apiParams w) [EvPutLogEvents (PutErr err)] = Some w'
        /\ calls w' = calls w ++ [CallPutLogEvents apiParams]
        /\ hookCalls w'
           = hookCalls w ++ [{| hc_err := err;
                                hc_logEvents := Some (ap_logEvents apiParams);
                                hc_next := _onErrorNextCbId (self w) + 1 |}]
        /\ pending w' = []).
Proof.
  intros Hp Hne Hall.
  set (w0 := _putLogEvents apiParams w).
  assert (Hp0 : pending w0 = [PPutLogEvents apiParams 0]).
  { subst w0. unfold _putLogEvents, attemptPut. cbn. rewrite Hp. reflexivity. }
  assert (Hc0 : calls w0 = calls w ++ [CallPutLogEvents apiParams]) by reflexivity.
  assert (Hs0 : self w0 = self w) by reflexivity.
  assert (Hlimit_nonneg : forall limit,
             retryLimit (retryableMax (self w)) = Some limit -> 0 <= limit).
  { intros limit. destruct (retryableMax (self w)); cbn; intros H; inversion H; lia. }
  split; [intros m Hm Hm0; apply retryLimit_integer; assumption|].
  split.
  { intros q Hq Hq0. rewrite Hq. cbn. f_equal.
    assert (0 <= Qceiling q); [|lia].
    change 0 with (Qceiling (inject_Z 0)). apply Qceiling_resp_le. exact Hq0. }
  split; [|split].
  - intros HN tok.
    destruct (@retriedFailures_run rt apiParams errs w0 0 Hp0 Hall ltac:(lia))
      as (w1 & Hrun & Hself & Hpend & Hcalls & Hem & Hhook & _).
    { rewrite Hs0. exact HN. }
    rewrite (@run_app rt _ [EvPutLogEvents (PutOk tok)] w0 w1 Hrun).
    cbn [run step]. rewrite Hpend. cbn [takePending selPutLogEvents].
    eexists. split; [reflexivity|].
    unfold putLogEventsAnswered, onPutLogEvents. cbn.
    assert (Hcalls' : calls w1 = calls w ++ repeat (CallPutLogEvents apiParams)
                                          (S (List.length errs))).
    { rewrite Hcalls, Hc0. rewrite <- app_assoc. reflexivity. }
    destruct (queuedLogs (self w1)); cbn;
      (split; [exact Hcalls'|]; split; [reflexivity|];
       split; [rewrite Hem; reflexivity | exact Hhook]).
  - intros limit Hlimit HN err Hnth.
    pose proof (Hlimit_nonneg limit Hlimit) as Hl0.
    set (M := Z.to_nat limit) in *.
    assert (HM : (M < List.length errs)%nat) by (subst M; lia).
    assert (Hlen : List.length (firstn M errs) = M) by (rewrite length_firstn; lia).
    destruct (@retriedFailures_run rt apiParams (firstn M errs) w0 0 Hp0)
      as (w1 & Hrun & Hself & Hpend & Hcalls & Hem & Hhook & _).
    { rewrite <- (firstn_skipn M errs) in Hall. apply Forall_app in Hall. tauto. }
    { lia. }
    { rewrite Hs0, Hlimit, Hlen. subst M. lia. }
    rewrite (@run_app rt _ [EvPutLogEvents (PutErr err)] w0 w1 Hrun).
    cbn [run step]. rewrite Hpend. cbn [takePending selPutLogEvents].
    eexists. split; [reflexivity|].
    unfold putLogEventsAnswered.
    assert (Hretry : err_retryable err = true).
    { rewrite Forall_forall in Hall. apply Hall. eapply nth_error_In. exact Hnth. }
    rewrite Hretry.
    replace (num_gt (retryableMax (self (setPending [] w1)))
                    (ofZ (0 + Z.of_nat (List.length (firstn M errs)))))
      with false.
    2:{ symmetry. rewrite retry_test by lia. cbn [setPending self].
        rewrite Hself, Hs0, Hlimit, Hlen. apply Z.ltb_ge. subst M. lia. }
    cbn [andb onPutLogEvents].
    rewrite failWith_calls, failWith_hook, failWith_pending. cbn.
    rewrite Hcalls, Hc0, Hlen, Hhook, Hself, Hs0.
    split; [rewrite <- app_assoc; reflexivity|]. split; reflexivity.
  - intros err Hnr. cbn [run step]. rewrite Hp0. cbn [takePending selPutLogEvents].
    eexists. split; [reflexivity|].
    unfold putLogEventsAnswered. rewrite Hnr. cbn [andb onPutLogEvents].
    rewrite failWith_calls, failWith_hook, failWith_pending. cbn.
    repeat split; reflexivity.
Qed.

Lemma putLogEvents_retries_witness :
  pending (newWorld (Example.stream UserOnError)) = []
  /\ [Example.throttled; Example.throttled] <> []
  /\ Forall (fun e => err_retryable e = true) [Example.throttled; Example.throttled]
  /\ forall tok, exists w',
       run Example.rt
           (_putLogEvents (Example.params [Example.evA])
                          (newWorld (Example.stream UserOnError)))
           (retriedFailures [Example.throttled; Example.throttled]
            ++ [EvPutLogEvents (PutOk tok)]) = Some w'
       /\ calls w' = calls (newWorld (Example.stream UserOnError))
                     ++ repeat (CallPutLogEvents (Example.params [Example.evA])) 3
       /\ sequenceToken (self w') = tok
       /\ emitted w'
          = emitted (newWorld (Example.stream UserOnError))
            ++ [EmitPutLogEvents (ap_logEvents (Example.params [Example.evA]))]
       /\ hookCalls w' = hookCalls (newWorld (Example.stream UserOnError)).
Proof.
  assert (H1 : pending (newWorld (Example.stream UserOnError)) = []) by reflexivity.
  assert (H3 : [Example.throttled; Example.throttled] <> []) by discriminate.
  assert (H4 : Forall (fun e => err_retryable e = true)
                      [Example.throttled; Example.throttled])
    by (constructor; [reflexivity | constructor; [reflexivity | constructor]]).
  split; [exact H1|]. split; [exact H3|]. split; [exact H4|].
  refine (proj1 (proj2 (proj2 (@putLogEvents_retries Example.rt
                         (newWorld (Example.stream UserOnError))
                         (Example.params [Example.evA])
                         [Example.throttled; Example.throttled]
                         H1 H3 H4))) _).
  vm_compute. discriminate.
Defined.

(** C3, as worded: with [retryableMax: 1.5], which [validateOptions]
    accepts and the constructor stores, two retryable failures in a row are
    both retried, although 1.5 is less than 2. *)
Lemma retries_within_retryableMax_fails : ~ retries_within_retryableMax Example.rt.
Proof.
  intros H.
  specialize (H (Some Example.fractional) Example.fractionalStream
                (Example.params [Example.evA]) [Example.throttled; Example.throttled]
                Example_fractional_new).
  assert (Hall : Forall (fun e => err_retryable e = true)
                        [Example.throttled; Example.throttled])
    by (constructor; [reflexivity | constructor; [reflexivity | constructor]]).
  specialize (H Hall eq_refl). vm_compute in H. discriminate H.
Qed.

(** ** The order of delivery *)


Lemma staleAt_awaited (w : World) : staleCalls w -> awaited w = None.
Proof.
  unfold staleCalls, staleAt, awaited. intros H. apply Forall_rev in H.
  destruct (rev (hookCalls w)) as [|h older]; [reflexivity|].
  inversion H; subst.
  destruct (hc_next h =? _onErrorNextCbId (self w)) eqn:E; [|reflexivity].
  apply Z.eqb_eq in E. lia.
Qed.



















Lemma Example_resend_run :
  run Example.rt (newWorld (Example.stream UserOnError)) Example.resend
  = Some (Example.after Example.resend).
Proof. vm_compute. reflexivity. Defined.



Lemma Example_resend_idle : idle (Example.after Example.resend).
Proof.
  split; vm_compute; reflexivity.
Defined.



(** * Further properties *)

(** ** Validation of the options *)

Lemma typeof_string (v : JSValue) :
  negb (JSType_eqb (typeof v) TString) = false <-> exists s, v = JStr s.
Proof.
  split.
  - destruct v; cbn; intros H; try discriminate. eauto.
  - intros [s ->]. reflexivity.
Qed.

Lemma typeof_boolean (v : JSValue) :
  negb (JSType_eqb (typeof v) TBoolean) = false <-> exists b, v = JBool b.
Proof.
  split.
  - destruct v; cbn; intros H; try discriminate. eauto.
  - intros [b ->]. reflexivity.
Qed.

Lemma isInterval_intervalValue (v : JSValue) :
  negb (isInterval v) = false <-> intervalValue v.
Proof.
  unfold intervalValue, numberWithin. split.
  - destruct v as [| | |[q| | |]| | | | |]; cbn; intros H; try discriminate.
    + right. exists q. apply negb_false_iff, Qle_bool_iff in H. auto.
    + left. apply negb_false_iff, String.eqb_eq in H. congruence.
  - intros [->|(n & -> & Hn & _)]; cbn; [reflexivity|].
    apply negb_false_iff, Qle_bool_iff. exact Hn.
Qed.

Lemma atLeast_numberWithin (lo : Z) (v : JSValue) :
  negb (isFiniteNumber v) || numLt v lo = false <-> numberWithin lo None v.
Proof.
  unfold numberWithin. split.
  - destruct v as [| | |[q| | |]| | | | |]; cbn; intros H; try discriminate.
    exists q. apply negb_false_iff, Qle_bool_iff in H. auto.
  - intros (n & -> & Hn & _). cbn. apply negb_false_iff, Qle_bool_iff. exact Hn.
Qed.

Lemma range_numberWithin (lo hi : Z) (v : JSValue) :
  negb (isFiniteNumber v) || numLt v lo || numGt v hi = false
  <-> numberWithin lo (Some hi) v.
Proof.
  unfold numberWithin. split.
  - destruct v as [| | |[q| | |]| | | | |]; cbn; intros H; try discriminate.
    apply orb_false_iff in H. destruct H as [Hlo Hhi].
    apply negb_false_iff, Qle_bool_iff in Hlo.
    apply negb_false_iff, Qle_bool_iff in Hhi.
    exists q. auto.
  - intros (n & -> & Hlo & Hhi). cbn. apply orb_false_iff. split.
    + apply negb_false_iff, Qle_bool_iff. exact Hlo.
    + apply negb_false_iff, Qle_bool_iff. exact Hhi.
Qed.

Lemma isFunction_AFunction {F} (v : FunOption F) :
  negb (isFunction v) = false <-> exists f, v = AFunction f.
Proof.
  split.
  - destruct v; cbn; intros H; try discriminate. eauto.
  - intros [f ->]. reflexivity.
Qed.

Lemma ownAnd_ifOwn {A} (o : option A) (bad : A -> bool) (P : A -> Prop) :
  (forall v, bad v = false <-> P v) ->
  (ownAnd o bad = false <-> ifOwn o P).
Proof.
  intros H. destruct o as [v|]; cbn; [apply H | tauto].
Qed.

Lemma validateOptions_validOptions (o : Options) :
  validateOptions (Some o) = None <-> validOptions o.
Proof.
  pose proof (typeof_string (o_logGroupName o)) as H1.
  pose proof (typeof_string (o_logStreamName o)) as H2.
  pose proof (ownAnd_ifOwn (o_objectMode o) _ _ typeof_boolean) as H3.
  pose proof (ownAnd_ifOwn (o_writeInterval o) _ _ isInterval_intervalValue) as H4.
  pose proof (ownAnd_ifOwn (o_retryableMax o) _ _ (atLeast_numberWithin 1)) as H5.
  pose proof (ownAnd_ifOwn (o_retryableDelay o) _ _ isInterval_intervalValue) as H6.
  pose proof (ownAnd_ifOwn (o_maxBatchCount o) _ _ (range_numberWithin 1 10000)) as H7.
  pose proof (ownAnd_ifOwn (o_maxBatchSize o) _ _ (range_numberWithin 256 1048576)) as H8.
  pose proof (ownAnd_ifOwn (o_onError o) _ _ (@isFunction_AFunction unit)) as H9.
  pose proof (ownAnd_ifOwn (o_filterWrite o) _ _
                (@isFunction_AFunction (JSValue -> Completion bool))) as H10.
  unfold validateOptions. split.
  - intros H.
    repeat match type of H with
           | (if ?c then _ else _) = None => destruct c eqn:?; [discriminate|]
           end.
    constructor; tauto.
  - intros [V1 V2 V3 V4 V5 V6 V7 V8 V9 V10].
    apply H1 in V1. apply H2 in V2. apply H3 in V3. apply H4 in V4. apply H5 in V5.
    apply H6 in V6. apply H7 in V7. apply H8 in V8. apply H9 in V9. apply H10 in V10.
    rewrite V1, V2, V3, V4, V5, V6, V7, V8, V9, V10. reflexivity.
Qed.

Lemma CWLogsWritable_new_valid (o : Options) :
  (exists this, CWLogsWritable_new (Some o) = Normal this) <-> validOptions o.
Proof.
  rewrite <- validateOptions_validOptions.
  unfold CWLogsWritable_new. split.
  - intros [this H]. destruct (validateOptions (Some o)); [discriminate | reflexivity].
  - intros ->. eexists. reflexivity.
Qed.

(** X1. The constructor returns an instance exactly for the options its
    documentation allows: both names strings, and each of the other options,
    when present, of the documented kind and range; for anything that is
    not an object it throws. *)
Theorem CWLogsWritable_new_accepts (o : Options) :
  ((exists this, CWLogsWritable_new (Some o) = Normal this) <-> validOptions o)
  /\ CWLogsWritable_new None = Throw "options must be an object".
Proof.
  split; [apply CWLogsWritable_new_valid | reflexivity].
Qed.

Lemma Math_max_strictly_above (lo q : Q) :
  (lo < q)%Q -> Math_max (Fin lo) (Fin q) = Fin q.
Proof.
  intros H. cbn. destruct (Qle_bool q lo) eqn:E; cbn; [|reflexivity].
  apply Qle_bool_iff in E. exfalso. exact (Qlt_not_le _ _ H E).
Qed.

Lemma Math_clamp_within (lo hi q : Q) :
  (lo <= q)%Q -> (q <= hi)%Q ->
  num_eq (Math_min (Fin hi) (Math_max (Fin lo) (Fin q))) (Fin q).
Proof.
  intros Hlo Hhi. cbn. destruct (Qle_bool q lo) eqn:E; cbn.
  - apply Qle_bool_iff in E.
    assert (Heq : (lo == q)%Q) by (apply Qle_antisym; assumption).
    destruct (Qle_bool hi lo) eqn:E2; cbn; [|exact Heq].
    apply Qle_bool_iff in E2. apply Qle_antisym; [|exact Hhi].
    apply Qle_trans with lo; assumption.
  - destruct (Qle_bool hi q) eqn:E2; cbn; [|apply Qeq_refl].
    apply Qle_bool_iff in E2. apply Qle_antisym; assumption.
Qed.

(** X2. An own [retryableMax], [maxBatchCount], [writeInterval] or
    [retryableDelay] that the validation let through is used as configured:
    the clamps of the constructor never change its value.  An option that
    [options] has no own property for is read from its prototype chain and
    was not validated: a number found there goes through the clamp alone
    (which lets 0 through for [retryableMax] and NaN for both), anything
    else gives the default, 100 retries and 10000 events.  For an
    [options] object that inherits nothing, [retryableMax] is at least 1
    and [maxBatchCount] lies between 1 and 10000. *)
Theorem options_used_as_configured (o : Options) (this : CWLogsWritable) :
  CWLogsWritable_new (Some o) = Normal this ->
  (forall v, o_retryableMax o = Some v -> v = JNum (retryableMax this))
  /\ (forall v, o_maxBatchCount o = Some v ->
        exists x, v = JNum x /\ num_eq (maxBatchCount this) x)
  /\ (forall v, o_writeInterval o = Some v ->
        match writeInterval this with
        | Millis n => v = JNum n
        | NextTick => v = JStr "nextTick"
        end)
  /\ (forall v, o_retryableDelay o = Some v ->
        match retryableDelay this with
        | Millis n => v = JNum n
        | NextTick => v = JStr "nextTick"
        end)
  /\ (o_retryableMax o = None ->
        match i_retryableMax (o_inherited o) with
        | JNum x => retryableMax this = Math_max (Fin 0) x
        | _ => retryableMax this = Fin 100
        end)
  /\ (o_maxBatchCount o = None ->
        match i_maxBatchCount (o_inherited o) with
        | JNum x => maxBatchCount this = Math_min (Fin 10000) (Math_max (Fin 1) x)
        | _ => maxBatchCount this = Fin 10000
        end)
  /\ (o_inherited o = nothingInherited ->
        num_le (Fin 1) (retryableMax this) = true
        /\ num_le (Fin 1) (maxBatchCount this) = true
        /\ num_le (maxBatchCount this) (Fin 10000) = true).
Proof.
  intros Hnew.
  assert (Hv : validOptions o).
  { apply (proj1 (CWLogsWritable_new_valid o)). eauto. }
  revert Hnew. unfold CWLogsWritable_new.
  destruct (validateOptions (Some o)); [discriminate|].
  intros H. injection H as <-. cbn [retryableMax maxBatchCount writeInterval retryableDelay].
  destruct Hv as [_ _ _ V4 V5 V6 V7 _ _ _].
  unfold ifOwn, intervalValue, numberWithin in *.
  split; [|split; [|split; [|split; [|split; [|split]]]]].
  - intros v Hown. rewrite Hown in *. cbn [readOption].
    destruct V5 as (q & -> & Hq & _).
    assert (Hm : Math_max (Fin 0) (Fin q) = Fin q).
    { apply Math_max_strictly_above.
      apply Qlt_le_trans with (inject_Z 1); [reflexivity | exact Hq]. }
    exact (f_equal JNum (eq_sym Hm)).
  - intros v Hown. rewrite Hown in *. cbn [readOption].
    destruct V7 as (q & -> & Hlo & Hhi). exists (Fin q). split; [reflexivity|].
    exact (@Math_clamp_within 1 10000 q Hlo Hhi).
  - intros v Hown. rewrite Hown in *. cbn [readOption].
    destruct V4 as [->|(q & -> & _)]; reflexivity.
  - intros v Hown. rewrite Hown in *. cbn [readOption].
    destruct V6 as [->|(q & -> & _)]; reflexivity.
  - intros Hown. rewrite Hown. cbn [readOption].
    destruct (i_retryableMax (o_inherited o)); reflexivity.
  - intros Hown. rewrite Hown. cbn [readOption].
    destruct (i_maxBatchCount (o_inherited o)); reflexivity.
  - intros Hin. rewrite Hin. cbn [i_retryableMax i_maxBatchCount nothingInherited].
    split; [|split].
    + destruct (o_retryableMax o) as [v|]; cbn [readOption]; [|reflexivity].
      destruct V5 as (q & -> & Hq & _).
      assert (Hm : Math_max (Fin 0) (Fin q) = Fin q).
      { apply Math_max_strictly_above.
        apply Qlt_le_trans with (inject_Z 1); [reflexivity | exact Hq]. }
      change (num_le (Fin 1) (Math_max (Fin 0) (Fin q)) = true).
      rewrite Hm. cbn. apply Qle_bool_iff. exact Hq.
    + destruct (o_maxBatchCount o) as [v|]; cbn [readOption]; [|reflexivity].
      destruct V7 as (q & -> & Hlo & Hhi).
      pose proof (@Math_clamp_within 1 10000 q Hlo Hhi) as Heq.
      change (num_le (Fin 1) (Math_min (Fin 10000) (Math_max (Fin 1) (Fin q))) = true).
      destruct (Math_min (Fin 10000) (Math_max (Fin 1) (Fin q))) as [r| | |];
        cbn in Heq; try contradiction.
      cbn. apply Qle_bool_iff. rewrite Heq. exact Hlo.
    + destruct (o_maxBatchCount o) as [v|]; cbn [readOption]; [|reflexivity].
      destruct V7 as (q & -> & Hlo & Hhi).
      pose proof (@Math_clamp_within 1 10000 q Hlo Hhi) as Heq.
      change (num_le (Math_min (Fin 10000) (Math_max (Fin 1) (Fin q))) (Fin 10000) = true).
      destruct (Math_min (Fin 10000) (Math_max (Fin 1) (Fin q))) as [r| | |];
        cbn in Heq; try contradiction.
      cbn. apply Qle_bool_iff. rewrite Heq. exact Hhi.
Qed.

Lemma options_used_as_configured_witness :
  CWLogsWritable_new (Some Example.fractional) = Normal Example.fractionalStream
  /\ JNum (Fin (3 # 2)) = JNum (retryableMax Example.fractionalStream)
  /\ (exists x, JNum (Fin (3 # 2)) = JNum x
                /\ num_eq (maxBatchCount Example.fractionalStream) x).
Proof.
  split; [exact Example_fractional_new|].
  pose proof (@options_used_as_configured _ _ Example_fractional_new) as H.
  split.
  - exact (proj1 H (JNum (Fin (3 # 2))) eq_refl).
  - exact (proj1 (proj2 H) (JNum (Fin (3 # 2))) eq_refl).
Defined.

(** X19. The options are read as [options.k], so an option that [options]
    inherits is used although [validateOptions], which looks at own
    properties only, never saw it: with [retryableMax: 0] and
    [maxBatchCount: NaN] on the prototype the constructor returns a stream
    that never retries and whose planner never finds the count cap
    reached. *)
Theorem inherited_options_are_not_validated :
  exists this,
    CWLogsWritable_new (Some Example.inheriting) = Normal this
    /\ retryableMax this = Fin 0
    /\ maxBatchCount this = NaN
    /\ (forall retries : nat,
          num_gt (retryableMax this) (ofZ (Z.of_nat retries)) = false)
    /\ (forall batchCount : Z,
          num_ge (ofZ batchCount) (maxBatchCount this) = false).
Proof.
  eexists. split; [reflexivity|]. cbn [retryableMax maxBatchCount].
  split; [reflexivity|]. split; [reflexivity|]. split.
  - intros retries. cbn. apply negb_false_iff, Qle_bool_iff.
    change 0%Q with (inject_Z 0). rewrite <- Zle_Qle. lia.
  - intros batchCount. reflexivity.
Qed.

(** ** What no method assigns to *)

Ltac keeps :=
  split; [unfold sameConfig; cbn; repeat split; reflexivity | cbn; auto].

Lemma _sendLogs_config (w : World) :
  sameConfig (self w) (self (_sendLogs w))
  /\ filterWrite (self (_sendLogs w)) = filterWrite (self w).
Proof.
  unfold _sendLogs. case_matches; keeps.
Qed.

Lemma _nextAfterError_config (id : Z) (arg : NextArg) (w : World) :
  sameConfig (self w) (self (_nextAfterError id arg w))
  /\ (filterWrite (self (_nextAfterError id arg w)) = filterWrite (self w)
      \/ filterWrite (self (_nextAfterError id arg w)) = _falseFilterWrite).
Proof.
  unfold _nextAfterError. destruct (negb _); [keeps|].
  destruct arg; cbn; [keeps | |].
  - unfold _handleError. cbn. destruct (errorListener (self w)); keeps.
  - destruct (queuedLogs (self w)); keeps.
Qed.

Lemma failWith_config (err : JSError) (logEvents : option (list LogEvent)) (w : World) :
  sameConfig (self w) (self (failWith err logEvents w))
  /\ (filterWrite (self (failWith err logEvents w)) = filterWrite (self w)
      \/ filterWrite (self (failWith err logEvents w)) = _falseFilterWrite).
Proof.
  unfold failWith, callOnError. cbn. destruct (onError (self w)); [|keeps|keeps].
  unfold _nextAfterError. cbn. rewrite Z.eqb_refl. cbn.
  unfold _handleError. cbn. destruct (errorListener (self w)); keeps.
Qed.

Lemma step_config (rt : Runtime) (w w' : World) (ev : Event) :
  step rt w ev = Some w' ->
  sameConfig (self w) (self w')
  /\ (filterWrite (self w') = filterWrite (self w)
      \/ filterWrite (self w') = _falseFilterWrite).
Proof.
  destruct ev; cbn [step]; intros H.
  - unfold _write in H.
    destruct (filterWrite (self w) record) as [[|]|]; [|inversion H; subst; keeps..].
    destruct (createLogEvent rt now record); [|inversion H; subst; keeps].
    destruct (negb _); inversion H; subst; keeps.
  - inversion H; subst. keeps.
  - inversion H; subst. keeps.
  - destruct (takePending selSendLogs (pending w)) as [[a rest]|]; inversion H; subst.
    destruct (_sendLogs_config (setPending rest w)) as [Hc Hf]. split; [exact Hc|].
    left. exact Hf.
  - destruct (takePending selAttemptPut (pending w)) as [[[ap r] rest]|];
      inversion H; subst. keeps.
  - destruct (takePending selDescribe (pending w)) as [[a rest]|]; inversion H; subst.
    unfold describeLogStreamsAnswered, onSequenceToken. destruct r as [err|[|tok l]].
    + destruct (String.eqb _ _); [keeps|].
      exact (failWith_config err None (setPending rest w)).
    + keeps.
    + destruct (_sendLogs_config
                  (onSelf (set_sequenceToken tok) (setPending rest w))) as [Hc Hf].
      split; [exact Hc | left; exact Hf].
  - destruct (takePending selCreateLogGroup (pending w)) as [[a rest]|];
      inversion H; subst.
    unfold createLogGroupAnswered, onSequenceToken. destruct err as [e|]; [|keeps].
    exact (failWith_config e None (setPending rest w)).
  - destruct (takePending selCreateLogStream (pending w)) as [[a rest]|];
      inversion H; subst.
    unfold createLogStreamAnswered, onSequenceToken. destruct err as [e|]; [|keeps].
    exact (failWith_config e None (setPending rest w)).
  - destruct (takePending selPutLogEvents (pending w)) as [[[ap r0] rest]|];
      inversion H; subst.
    unfold putLogEventsAnswered, onPutLogEvents. destruct r as [err|tok].
    + destruct (err_retryable err && _); [keeps|].
      exact (failWith_config err (Some (ap_logEvents ap)) (setPending rest w)).
    + cbn. destruct (queuedLogs (self w)); keeps.
  - destruct (nextIssued id w); inversion H; subst. apply _nextAfterError_config.
Qed.

Lemma sameConfig_trans (a b c : CWLogsWritable) :
  sameConfig a b -> sameConfig b c -> sameConfig a c.
Proof.
  unfold sameConfig. intros (?&?&?&?&?&?&?&?&?) (?&?&?&?&?&?&?&?&?).
  repeat split; congruence.
Qed.

Lemma run_sameConfig (rt : Runtime) (evs : list Event) :
  forall w w', run rt w evs = Some w' -> sameConfig (self w) (self w').
Proof.
  induction evs as [|ev evs IH]; cbn [run]; intros w w' H.
  - inversion H; subst. unfold sameConfig. repeat split; reflexivity.
  - destruct (step rt w ev) as [w1|] eqn:Hs; [|discriminate].
    eapply sameConfig_trans; [exact (proj1 (step_config rt w ev Hs)) | exact (IH w1 w' H)].
Qed.

(** X5. Along any run the configuration of the stream stays what the
    constructor made it: the names of the group and of the stream, both
    intervals, [retryableMax], both caps, the recovery hook and the size
    function are never assigned to; [filterWrite] is either still the
    configured filter or has been replaced by [_falseFilterWrite], and once
    replaced it stays replaced. *)
Theorem configuration_is_kept (rt : Runtime) (evs : list Event) (w w' : World) :
  run rt w evs = Some w' ->
  sameConfig (self w) (self w')
  /\ (filterWrite (self w') = filterWrite (self w)
      \/ filterWrite (self w') = _falseFilterWrite)
  /\ (filterWrite (self w) = _falseFilterWrite ->
      filterWrite (self w') = _falseFilterWrite).
Proof.
  revert w w'. induction evs as [|ev evs IH]; cbn [run]; intros w w' H.
  - inversion H; subst. split; [|auto].
    unfold sameConfig. repeat split; reflexivity.
  - destruct (step rt w ev) as [w1|] eqn:Hs; [|discriminate].
    destruct (step_config rt w ev Hs) as [Hc1 Hf1].
    destruct (IH w1 w' H) as (Hc2 & Hf2 & Hk2).
    split; [eapply sameConfig_trans; eassumption|]. split.
    + destruct Hf2 as [Hf2|Hf2]; [|right; exact Hf2].
      destruct Hf1 as [Hf1|Hf1]; [left; congruence | right; congruence].
    + intros Hfalse. destruct Hf1 as [Hf1|Hf1]; apply Hk2; congruence.
Qed.

Lemma configuration_is_kept_witness :
  run Example.rt (newWorld (Example.stream UserOnError)) Example.resend
  = Some (Example.after Example.resend)
  /\ sameConfig (self (newWorld (Example.stream UserOnError)))
                (self (Example.after Example.resend)).
Proof.
  split; [exact Example_resend_run|].
  exact (proj1 (@configuration_is_kept Example.rt _ _ _ Example_resend_run)).
Defined.

(** ** One cycle at a time *)

(** X6. In every world a constructed stream can reach, at most one callback
    of the delivery cycle is outstanding (a timer or a call of the service);
    a stream whose cycle is not marked as scheduled has nothing outstanding
    and an empty queue; and while the recovery hook holds a [next] that
    would still be honoured, nothing is outstanding and the cycle stays
    marked as scheduled, so writes queue up without starting a second
    cycle. *)
Theorem one_cycle_at_a_time (rt : Runtime) (w : World) :
  Reachable rt w ->
  (List.length (pending w) <= 1)%nat
  /\ (writeQueued (self w) = false -> pending w = [] /\ queuedLogs (self w) = [])
  /\ (pending w <> [] -> writeQueued (self w) = true /\ awaited w = None)
  /\ (forall h, awaited w = Some h -> pending w = [] /\ writeQueued (self w) = true)
  /\ (forall record now w',
        writeQueued (self w) = true ->
        step rt w (EvWrite record now) = Some w' ->
        pending w' = pending w /\ calls w' = calls w).
Proof.
  intros Hreach. pose proof (Reachable_Inv Hreach) as [Hlen Hord Hbusy Hidle].
  split; [exact Hlen|]. split.
  - intros Hq. destruct (Hidle Hq) as (Hp & _ & Hqueue). auto.
  - assert (Hb : pending w <> [] -> writeQueued (self w) = true /\ awaited w = None).
    { intros Hne. split.
      - destruct (writeQueued (self w)); [reflexivity|].
        destruct (Hidle eq_refl) as [Hp _]. contradiction.
      - apply staleAt_awaited. exact (Hbusy Hne). }
    split; [exact Hb|]. split.
    + intros h Ha. split.
      * destruct (pending w) as [|p l] eqn:Hp; [reflexivity|].
        destruct (Hb ltac:(discriminate)) as [_ Hnone]. congruence.
      * destruct (writeQueued (self w)); [reflexivity|].
        destruct (Hidle eq_refl) as (_ & Hs & _).
        rewrite (staleAt_awaited Hs) in Ha. discriminate.
    + intros record now w' Hq Hstep. cbn [step] in Hstep. unfold _write in Hstep.
      destruct (filterWrite (self w) record) as [[|]|];
        [|inversion Hstep; subst; auto..].
      destruct (createLogEvent rt now record); [|inversion Hstep; subst; auto].
      cbn in Hstep. rewrite Hq in Hstep. cbn in Hstep.
      inversion Hstep; subst. auto.
Qed.

Lemma one_cycle_at_a_time_witness :
  Reachable Example.rt (Example.after Example.refused)
  /\ (List.length (pending (Example.after Example.refused)) <= 1)%nat.
Proof.
  split; [exact Example_refused_reachable|].
  exact (proj1 (@one_cycle_at_a_time Example.rt _ Example_refused_reachable)).
Defined.

(** ** Writes before the cycle fires *)

Lemma writes_while_scheduled (rt : Runtime) (evs : list Event) :
  forall w w',
    Forall isWrite evs ->
    writeQueued (self w) = true ->
    run rt w evs = Some w' ->
    queuedLogs (self w') = queuedLogs (self w) ++ enqueuedBy rt w evs
    /\ writeQueued (self w') = true
    /\ pending w' = pending w /\ calls w' = calls w /\ emitted w' = emitted w.
Proof.
  induction evs as [|ev evs IH]; cbn [run enqueuedBy]; intros w w' Hall Hq H.
  - inversion H; subst. rewrite app_nil_r. auto.
  - inversion Hall as [|? ? Hev Hall']; subst.
    destruct ev; try contradiction. cbn [step enqueuedByEvent] in *.
    unfold _write in *.
    destruct (filterWrite (self w) record) as [[|]|msg].
    + destruct (createLogEvent rt now record) as [e|msg].
      * cbn in H. rewrite Hq in H. cbn [negb] in H.
        cbn. rewrite Hq. cbn [negb].
        match type of H with run rt ?x evs = _ => set (w1 := x) in * end.
        destruct (IH w1 w' Hall' Hq H) as (Hqueue & Hq' & Hp & Hc & He).
        rewrite Hqueue. cbn. rewrite <- app_assoc. auto.
      * destruct (IH (raise (ThrownMessage msg) w) w' Hall' Hq H)
          as (Hqueue & Hq' & Hp & Hc & He). auto.
    + destruct (IH w w' Hall' Hq H) as (Hqueue & Hq' & Hp & Hc & He). auto.
    + destruct (IH (raise (ThrownMessage msg) w) w' Hall' Hq H)
        as (Hqueue & Hq' & Hp & Hc & He). auto.
Qed.

Lemma writes_while_idle (rt : Runtime) (evs : list Event) :
  forall w w',
    Forall isWrite evs ->
    writeQueued (self w) = false ->
    run rt w evs = Some w' ->
    queuedLogs (self w') = queuedLogs (self w) ++ enqueuedBy rt w evs
    /\ calls w' = calls w /\ emitted w' = emitted w
    /\ match enqueuedBy rt w evs with
       | [] => writeQueued (self w') = false /\ pending w' = pending w
       | _ :: _ => writeQueued (self w') = true /\ pending w' = pending w ++ [PSendLogs]
       end.
Proof.
  induction evs as [|ev evs IH]; cbn [run enqueuedBy]; intros w w' Hall Hq H.
  - inversion H; subst. rewrite app_nil_r. auto.
  - inversion Hall as [|? ? Hev Hall']; subst.
    destruct ev; try contradiction. cbn [step enqueuedByEvent] in *.
    unfold _write in *.
    destruct (filterWrite (self w) record) as [[|]|msg].
    + destruct (createLogEvent rt now record) as [e|msg].
      * cbn in H. rewrite Hq in H. cbn [negb] in H.
        cbn. rewrite Hq. cbn [negb].
        match type of H with run rt ?x evs = _ => set (w1 := x) in * end.
        destruct (@writes_while_scheduled rt evs w1 w' Hall' eq_refl H)
          as (Hqueue & Hq' & Hp & Hc & He).
        rewrite Hqueue. cbn. rewrite <- app_assoc. auto.
      * cbn [app]. exact (IH (raise (ThrownMessage msg) w) w' Hall' Hq H).
    + cbn [app]. exact (IH w w' Hall' Hq H).
    + cbn [app]. exact (IH (raise (ThrownMessage msg) w) w' Hall' Hq H).
Qed.

(** X4. Whatever is written to a fresh stream before its cycle fires is
    queued in the order of the writes and nothing is sent yet: the queue,
    what [clearQueue] returns and the count of [getQueueSize] are exactly
    the accepted records' log events; no call of the service is made and
    nothing is emitted; and one cycle is scheduled if some record was
    accepted, none otherwise. *)
Theorem writes_are_batched (rt : Runtime) (options : option Options)
        (this : CWLogsWritable) (evs : list Event) (w : World) :
  CWLogsWritable_new options = Normal this ->
  Forall isWrite evs ->
  run rt (newWorld this) evs = Some w ->
  queuedLogs (self w) = enqueuedBy rt (newWorld this) evs
  /\ fst (clearQueue w) = enqueuedBy rt (newWorld this) evs
  /\ getQueueSize w = List.length (enqueuedBy rt (newWorld this) evs)
  /\ getQueueSize (snd (clearQueue w)) = 0%nat
  /\ calls w = [] /\ emitted w = []
  /\ match enqueuedBy rt (newWorld this) evs with
     | [] => writeQueued (self w) = false /\ pending w = []
     | _ :: _ => writeQueued (self w) = true /\ pending w = [PSendLogs]
     end.
Proof.
  intros Hnew Hall Hrun.
  destruct (CWLogsWritable_new_fresh options Hnew) as (_ & _ & Hq & Hqueue & _).
  destruct (@writes_while_idle rt evs (newWorld this) w Hall Hq Hrun)
    as (Hw & Hc & He & Hm).
  cbn in Hw, Hc, He, Hm. rewrite Hqueue in Hw. cbn in Hw.
  split; [exact Hw|]. split; [exact Hw|]. split; [unfold getQueueSize; congruence|].
  split; [reflexivity|]. split; [exact Hc|]. split; [exact He|]. exact Hm.
Qed.

Lemma writes_are_batched_witness :
  CWLogsWritable_new (Some (Example.options (Some (AFunction tt)) None))
  = Normal (Example.stream UserOnError)
  /\ Forall isWrite [EvWrite (JStr "a") 1000; EvWrite JNull 1001]
  /\ run Example.rt (newWorld (Example.stream UserOnError))
         [EvWrite (JStr "a") 1000; EvWrite JNull 1001]
     = Some (Example.after [EvWrite (JStr "a") 1000; EvWrite JNull 1001])
  /\ queuedLogs (self (Example.after [EvWrite (JStr "a") 1000; EvWrite JNull 1001]))
     = enqueuedBy Example.rt (newWorld (Example.stream UserOnError))
                  [EvWrite (JStr "a") 1000; EvWrite JNull 1001].
Proof.
  assert (H2 : Forall isWrite [EvWrite (JStr "a") 1000; EvWrite JNull 1001])
    by (repeat constructor).
  assert (H3 : run Example.rt (newWorld (Example.stream UserOnError))
                   [EvWrite (JStr "a") 1000; EvWrite JNull 1001]
               = Some (Example.after [EvWrite (JStr "a") 1000; EvWrite JNull 1001]))
    by (vm_compute; reflexivity).
  split; [exact Example_new|]. split; [exact H2|]. split; [exact H3|].
  exact (proj1 (@writes_are_batched Example.rt _ _ _ _ Example_new H2 H3)).
Defined.

(** ** What is handed to [putLogEvents] *)

(** With a token and a queue that is not empty, [_sendLogs] asks the
    planner; when the planner returns, the planned prefix is taken off the
    queue and handed to [_putLogEvents]. *)
Lemma _sendLogs_put (w : World) (n : nat) :
  sequenceToken (self w) <> TokNull ->
  queuedLogs (self w) <> [] ->
  nextLogBatchSize (self w) (queuedLogs (self w)) = Normal n ->
  _sendLogs w
  = _putLogEvents
      {| ap_logGroupName := logGroupName (self w);
         ap_logStreamName := logStreamName (self w);
         ap_sequenceToken := sequenceToken (self w);
         ap_logEvents := firstn n (queuedLogs (self w)) |}
      (onSelf (set_queuedLogs (skipn n (queuedLogs (self w)))) w).
Proof.
  intros Htok Hq Hn. unfold _sendLogs.
  destruct (isNullToken (sequenceToken (self w))) eqn:E;
    [apply isNullToken_true in E; contradiction|].
  destruct (queuedLogs (self w)) as [|e q] eqn:Hqueue; [contradiction|].
  rewrite Hn.
  destruct (Nat.eqb _ _) eqn:En; [|reflexivity].
  apply Nat.eqb_eq in En. rewrite En, firstn_all, skipn_all. reflexivity.
Qed.

(** When the planner throws, so does [_sendLogs], before it touched
    anything. *)
Lemma _sendLogs_throws (w : World) (msg : string) :
  sequenceToken (self w) <> TokNull ->
  queuedLogs (self w) <> [] ->
  nextLogBatchSize (self w) (queuedLogs (self w)) = Throw msg ->
  _sendLogs w = raise (ThrownMessage msg) w.
Proof.
  intros Htok Hq Hn. unfold _sendLogs.
  destruct (isNullToken (sequenceToken (self w))) eqn:E;
    [apply isNullToken_true in E; contradiction|].
  destruct (queuedLogs (self w)) as [|e q] eqn:Hqueue; [contradiction|].
  rewrite Hn. reflexivity.
Qed.

Lemma wellFormedPut_sameConfig (a b : CWLogsWritable) (ap : ApiParams) :
  sameConfig a b -> wellFormedPut a ap -> wellFormedPut b ap.
Proof.
  intros (Hg & Hs & _ & _ & _ & Hc & Hz & _ & Hm) [P1 P2 P3 P4 P5 P6 P7].
  assert (Hcost : forall evs, batchCost b evs = batchCost a evs).
  { intros evs. apply batchCost_ext. intros m. rewrite Hm. reflexivity. }
  constructor.
  - congruence.
  - congruence.
  - exact P3.
  - exact P4.
  - destruct P5 as [c Hc5]. exists c. rewrite Hcost. exact Hc5.
  - rewrite <- Hc. exact P6.
  - destruct P7 as [P7|(c & Hc7 & Hgt)]; [left; exact P7|].
    right. exists c. rewrite Hcost, <- Hz. auto.
Qed.

Lemma _sendLogs_wellFormedPut (w : World) (n : nat) :
  sequenceToken (self w) <> TokNull ->
  queuedLogs (self w) <> [] ->
  nextLogBatchSize (self w) (queuedLogs (self w)) = Normal n ->
  (1 <= n <= List.length (queuedLogs (self w)))%nat
  /\ wellFormedPut (self w)
       {| ap_logGroupName := logGroupName (self w);
          ap_logStreamName := logStreamName (self w);
          ap_sequenceToken := sequenceToken (self w);
          ap_logEvents := firstn n (queuedLogs (self w)) |}.
Proof.
  intros Htok Hq Hn.
  destruct (@nextLogBatchSize_spec (self w) (queuedLogs (self w)) n Hq Hn)
    as (Hrange & (c & Hc & Hacc) & _).
  assert (Hlen : List.length (firstn n (queuedLogs (self w))) = n).
  { rewrite length_firstn. lia. }
  split; [exact Hrange|].
  constructor; cbn [ap_logGroupName ap_logStreamName ap_sequenceToken ap_logEvents].
  - reflexivity.
  - reflexivity.
  - exact Htok.
  - intros E. rewrite E in Hlen. cbn in Hlen. lia.
  - exists c. exact Hc.
  - rewrite Hlen. destruct (Nat.eq_dec n 1) as [->|Hne]; [left; reflexivity|].
    right. apply Hacc. lia.
  - rewrite Hlen. destruct (Nat.eq_dec n 1) as [->|Hne]; [left; reflexivity|].
    right. exists c. split; [exact Hc|]. apply Hacc. lia.
Qed.

(** The size function of a reachable stream is still the prototype's. *)
Lemma Reachable_getMessageSize (rt : Runtime) (w : World) :
  Reachable rt w -> getMessageSize (self w) = getMessageSize_default.
Proof.
  intros (options & this & evs & Hnew & Hrun).
  destruct (run_sameConfig rt evs _ Hrun) as (_ & _ & _ & _ & _ & _ & _ & _ & Hm).
  cbn in Hm. rewrite <- Hm.
  exact (proj1 (proj2 (proj2 (proj2 (proj2 (CWLogsWritable_new_fresh options Hnew)))))).
Qed.

(** The caps of a reachable stream are those the constructor computed. *)
Lemma Reachable_caps (rt : Runtime) (w : World) :
  Reachable rt w ->
  (maxBatchCount (self w) = NaN
   \/ exists q, maxBatchCount (self w) = Fin q /\ (1 <= q <= 10000)%Q)
  /\ (maxBatchSize (self w) = NaN
      \/ exists q, maxBatchSize (self w) = Fin q /\ (1024 <= q <= 1048576)%Q).
Proof.
  intros (options & this & evs & Hnew & Hrun).
  destruct (run_sameConfig rt evs _ Hrun) as (_ & _ & _ & _ & _ & Hc & Hz & _).
  cbn in Hc, Hz. rewrite <- Hc, <- Hz.
  destruct (CWLogsWritable_new_caps options Hnew) as (H1 & H2 & _). auto.
Qed.

(** X8. When the cycle of a reachable stream fires with a token and a
    queue that is not empty, the planner is asked.  It returns when every
    queued message is a string, and then exactly one [putLogEvents] call is
    made: its batch is the planned prefix of the queue, which is not empty;
    the rest stays queued in order, so the queue gets strictly shorter; the
    call carries the current token and the names of the stream; nothing is
    emitted or thrown and the cycle stays scheduled.  It throws when the
    first queued message is [undefined], and whenever it throws the
    exception escapes the timer callback: nothing is called, the queue is
    as it was and the stream is stalled. *)
Theorem sendLogs_takes_a_prefix (rt : Runtime) (w w' : World) :
  Reachable rt w ->
  sequenceToken (self w) <> TokNull ->
  queuedLogs (self w) <> [] ->
  step rt w EvSendLogsTimer = Some w' ->
  match nextLogBatchSize (self w) (queuedLogs (self w)) with
  | Normal n =>
      exists apiParams,
        calls w' = calls w ++ [CallPutLogEvents apiParams]
        /\ pending w' = [PPutLogEvents apiParams 0]
        /\ ap_logEvents apiParams = firstn n (queuedLogs (self w))
        /\ ap_logEvents apiParams ++ queuedLogs (self w') = queuedLogs (self w)
        /\ wellFormedPut (self w) apiParams
        /\ ap_sequenceToken apiParams = sequenceToken (self w)
        /\ (getQueueSize w' < getQueueSize w)%nat
        /\ emitted w' = emitted w
        /\ thrown w' = thrown w
        /\ writeQueued (self w') = true
  | Throw msg =>
      thrown w' = thrown w ++ [ThrownMessage msg]
      /\ calls w' = calls w
      /\ emitted w' = emitted w
      /\ queuedLogs (self w') = queuedLogs (self w)
      /\ Stalled w'
  end
  /\ ((forall ev, In ev (queuedLogs (self w)) -> message ev <> None) ->
      exists n, nextLogBatchSize (self w) (queuedLogs (self w)) = Normal n)
  /\ (forall ev rest, queuedLogs (self w) = ev :: rest -> message ev = None ->
        exists msg, nextLogBatchSize (self w) (queuedLogs (self w)) = Throw msg).
Proof.
  intros Hreach Htok Hq Hstep. cbn [step] in Hstep.
  destruct (takePending selSendLogs (pending w)) as [[a rest]|] eqn:Ht; [|discriminate].
  destruct (Inv_fire _ (Reachable_Inv Hreach) Ht) as [-> [Hp Hwq Hs]].
  cbn in Hp, Hwq. inversion Hstep; subst w'; clear Hstep.
  pose proof (Reachable_getMessageSize Hreach) as Hsize.
  split; [|split].
  - destruct (nextLogBatchSize (self w) (queuedLogs (self w))) as [n|msg] eqn:Hn.
    + destruct (@_sendLogs_wellFormedPut (setPending [] w) n Htok Hq Hn) as [Hrange Hwf].
      rewrite (@_sendLogs_put (setPending [] w) n Htok Hq Hn).
      cbn [self setPending] in *.
      eexists. split; [reflexivity|]. split; [reflexivity|]. split; [reflexivity|].
      split; [cbn; apply firstn_skipn|]. split; [exact Hwf|]. split; [reflexivity|].
      split; [|split; [reflexivity | split; [reflexivity | exact Hwq]]].
      unfold getQueueSize. cbn. rewrite length_skipn. lia.
    + rewrite (@_sendLogs_throws (setPending [] w) msg Htok Hq Hn).
      cbn. split; [reflexivity|]. split; [reflexivity|]. split; [reflexivity|].
      split; [reflexivity|]. constructor; cbn; [reflexivity | exact Hwq | exact Hs].
  - intros Hall. apply nextLogBatchSize_from_total.
    intros ev Hin. rewrite Hsize. specialize (Hall ev Hin).
    destruct (message ev) as [s|]; [|contradiction]. cbn. eauto.
  - intros ev q Hqueue Hm. rewrite Hqueue. eexists.
    apply nextLogBatchSize_first_unmeasured. rewrite Hsize, Hm. reflexivity.
Qed.

Lemma Example_chained_reachable : Reachable Example.rt (Example.after Example.chained).
Proof.
  apply (Example_reachable Example.chained). vm_compute. reflexivity.
Qed.

Lemma sendLogs_takes_a_prefix_witness :
  Reachable Example.rt (Example.after Example.chained)
  /\ sequenceToken (self (Example.after Example.chained)) <> TokNull
  /\ queuedLogs (self (Example.after Example.chained)) <> []
  /\ step Example.rt (Example.after Example.chained) EvSendLogsTimer
     = Some (_sendLogs (setPending [] (Example.after Example.chained)))
  /\ exists apiParams,
       calls (_sendLogs (setPending [] (Example.after Example.chained)))
       = calls (Example.after Example.chained) ++ [CallPutLogEvents apiParams]
       /\ pending (_sendLogs (setPending [] (Example.after Example.chained)))
          = [PPutLogEvents apiParams 0]
       /\ ap_logEvents apiParams = [Example.evB]
       /\ wellFormedPut (self (Example.after Example.chained)) apiParams.
Proof.
  assert (H2 : sequenceToken (self (Example.after Example.chained)) <> TokNull)
    by (vm_compute; discriminate).
  assert (H3 : queuedLogs (self (Example.after Example.chained)) <> [])
    by (vm_compute; discriminate).
  assert (H4 : step Example.rt (Example.after Example.chained) EvSendLogsTimer
               = Some (_sendLogs (setPending [] (Example.after Example.chained))))
    by (vm_compute; reflexivity).
  assert (Hn : nextLogBatchSize (self (Example.after Example.chained))
                 (queuedLogs (self (Example.after Example.chained))) = Normal 1%nat)
    by (vm_compute; reflexivity).
  assert (Hq : firstn 1 (queuedLogs (self (Example.after Example.chained)))
               = [Example.evB]) by (vm_compute; reflexivity).
  split; [exact Example_chained_reachable|]. split; [exact H2|]. split; [exact H3|].
  split; [exact H4|].
  destruct (@sendLogs_takes_a_prefix Example.rt _ _
              Example_chained_reachable H2 H3 H4) as [H _].
  rewrite Hn in H. destruct H as (apiParams & Hc & Hp & Hev & _ & Hwf & _).
  exists apiParams. split; [exact Hc|]. split; [exact Hp|].
  split; [rewrite Hev; exact Hq | exact Hwf].
Defined.

(** *** Every call is well formed, and every batch comes from a call *)

Lemma PutsTraced_onSelf (f : CWLogsWritable -> CWLogsWritable) (w : World) :
  sameConfig (self w) (f (self w)) -> PutsTraced w -> PutsTraced (onSelf f w).
Proof.
  intros Hc [T1 T2 T3 T4]. constructor; cbn; auto.
  intros ap Hin. eapply wellFormedPut_sameConfig; [exact Hc | apply T1; exact Hin].
Qed.

Lemma PutsTraced_setPending (rest : list Pending) (w : World) :
  (forall p, In p rest -> In p (pending w)) -> PutsTraced w ->
  PutsTraced (setPending rest w).
Proof.
  intros Hsub [T1 T2 T3 T4]. constructor; cbn; eauto.
Qed.

Lemma PutsTraced_addPending (p : Pending) (w : World) :
  (forall ap, pendingPut p = Some ap -> In (CallPutLogEvents ap) (calls w)) ->
  PutsTraced w -> PutsTraced (addPending p w).
Proof.
  intros Hp [T1 T2 T3 T4]. constructor; cbn; auto.
  intros q ap Hin Hq. apply in_app_or in Hin. destruct Hin as [Hin|[<-|[]]]; eauto.
Qed.

Lemma PutsTraced_call (c : DestCall) (w : World) :
  (forall ap, c = CallPutLogEvents ap -> wellFormedPut (self w) ap) ->
  PutsTraced w -> PutsTraced (call c w).
Proof.
  intros Hc [T1 T2 T3 T4]. constructor; cbn.
  - intros ap Hin. apply in_app_or in Hin. destruct Hin as [Hin|[->|[]]]; auto.
  - intros p ap Hin Hp. apply in_or_app. left. eauto.
  - intros evs Hin. destruct (T3 evs Hin) as (ap & Hap & <-).
    exists ap. split; [apply in_or_app; left; exact Hap | reflexivity].
  - intros h evs Hin Hh. destruct (T4 h evs Hin Hh) as (ap & Hap & <-).
    exists ap. split; [apply in_or_app; left; exact Hap | reflexivity].
Qed.

Lemma PutsTraced_emit (n : Notification) (w : World) :
  (forall evs, n = EmitPutLogEvents evs ->
               exists ap, In (CallPutLogEvents ap) (calls w) /\ ap_logEvents ap = evs) ->
  PutsTraced w -> PutsTraced (emit n w).
Proof.
  intros Hn [T1 T2 T3 T4]. constructor; cbn; auto.
  intros evs Hin. apply in_app_or in Hin. destruct Hin as [Hin|[->|[]]]; auto.
Qed.

Lemma PutsTraced_invokeHook (h : HookCall) (w : World) :
  (forall evs, hc_logEvents h = Some evs ->
               exists ap, In (CallPutLogEvents ap) (calls w) /\ ap_logEvents ap = evs) ->
  PutsTraced w -> PutsTraced (invokeHook h w).
Proof.
  intros Hh [T1 T2 T3 T4]. constructor; cbn; auto.
  intros h' evs Hin Hev. apply in_app_or in Hin. destruct Hin as [Hin|[<-|[]]]; eauto.
Qed.

Ltac same_config := unfold sameConfig; cbn; repeat split; reflexivity.

Lemma PutsTraced_raise (x : Thrown) (w : World) : PutsTraced w -> PutsTraced (raise x w).
Proof.
  intros [T1 T2 T3 T4]. constructor; cbn; auto.
Qed.

Lemma _handleError_PutsTraced (err : JSError) (w : World) :
  PutsTraced w -> PutsTraced (_handleError err w).
Proof.
  intros HT.
  assert (HT1 : PutsTraced (emit (EmitError err) w))
    by (apply PutsTraced_emit; [discriminate | exact HT]).
  destruct (errorListener (self w)) eqn:E.
  - rewrite _handleError_listener by exact E. unfold clearQueue. cbn [snd].
    apply PutsTraced_onSelf; [same_config|].
    apply PutsTraced_onSelf; [same_config | exact HT1].
  - rewrite _handleError_no_listener by exact E.
    apply PutsTraced_raise. exact HT1.
Qed.

Lemma _nextAfterError_PutsTraced (id : Z) (arg : NextArg) (w : World) :
  PutsTraced w -> PutsTraced (_nextAfterError id arg w).
Proof.
  intros HT. unfold _nextAfterError. destruct (negb _); [exact HT|].
  assert (HT1 : PutsTraced (onSelf (set_sequenceToken TokNull)
                  (onSelf (set_onErrorNextCbId (_onErrorNextCbId (self w) + 1)) w))).
  { apply PutsTraced_onSelf; [same_config|].
    apply PutsTraced_onSelf; [same_config | exact HT]. }
  destruct arg as [|err|logEvents].
  - apply PutsTraced_addPending; [discriminate | exact HT1].
  - apply _handleError_PutsTraced. exact HT1.
  - cbv zeta. unfold _scheduleSendLogs.
    apply PutsTraced_addPending; [discriminate|].
    destruct (queuedLogs _); (apply PutsTraced_onSelf; [same_config | exact HT1]).
Qed.

Lemma failWith_PutsTraced (err : JSError) (logEvents : option (list LogEvent))
      (w : World) :
  (forall evs, logEvents = Some evs ->
               exists ap, In (CallPutLogEvents ap) (calls w) /\ ap_logEvents ap = evs) ->
  PutsTraced w -> PutsTraced (failWith err logEvents w).
Proof.
  intros Hev HT. unfold failWith, callOnError. cbv zeta.
  match goal with
  | |- context [invokeHook ?h ?x] =>
      assert (HT1 : PutsTraced (invokeHook h x))
  end.
  { apply PutsTraced_invokeHook; [exact Hev|].
    apply PutsTraced_onSelf; [same_config | exact HT]. }
  destruct (onError _).
  - apply _nextAfterError_PutsTraced. exact HT1.
  - exact HT1.
  - apply PutsTraced_raise. exact HT1.
Qed.

Lemma _sendLogs_PutsTraced (w : World) : PutsTraced w -> PutsTraced (_sendLogs w).
Proof.
  intros HT.
  destruct (isNullToken (sequenceToken (self w))) eqn:Htok.
  - unfold _sendLogs. rewrite Htok. unfold _getSequenceToken.
    apply PutsTraced_addPending; [discriminate|].
    apply PutsTraced_call; [discriminate | exact HT].
  - assert (Hnn : sequenceToken (self w) <> TokNull).
    { intros E. apply isNullToken_true in E. congruence. }
    destruct (queuedLogs (self w)) as [|e q] eqn:Hqueue.
    + unfold _sendLogs. rewrite Htok, Hqueue.
      apply PutsTraced_onSelf; [same_config | exact HT].
    + assert (Hq : queuedLogs (self w) <> []) by (rewrite Hqueue; discriminate).
      destruct (nextLogBatchSize (self w) (queuedLogs (self w))) as [n|msg] eqn:Hn.
      * rewrite (_sendLogs_put w Hnn Hq Hn). unfold _putLogEvents, attemptPut.
        apply PutsTraced_addPending.
        -- intros ap Hap. cbn in Hap. injection Hap as <-. cbn.
           apply in_or_app. right. left. reflexivity.
        -- apply PutsTraced_call.
           ++ intros ap Hap. injection Hap as <-.
              eapply wellFormedPut_sameConfig;
                [|exact (proj2 (_sendLogs_wellFormedPut w Hnn Hq Hn))].
              same_config.
           ++ apply PutsTraced_onSelf; [same_config | exact HT].
      * rewrite (_sendLogs_throws w Hnn Hq Hn). apply PutsTraced_raise. exact HT.
Qed.

Lemma takePending_In {A} (sel : Pending -> option A) (l rest : list Pending) (a : A) :
  takePending sel l = Some (a, rest) ->
  (exists p, In p l /\ sel p = Some a) /\ (forall q, In q rest -> In q l).
Proof.
  revert rest. induction l as [|p l IH]; cbn; intros rest H; [discriminate|].
  destruct (sel p) as [a'|] eqn:Hsel.
  - inversion H; subst. split; [exists p; auto | auto].
  - destruct (takePending sel l) as [[a' rest']|]; [|discriminate].
    inversion H; subst. destruct (IH rest' eq_refl) as [(q & Hq & Hs) Hsub].
    split; [exists q; auto|]. intros x [->|Hx]; auto.
Qed.

Lemma step_PutsTraced (rt : Runtime) (w w' : World) (ev : Event) :
  PutsTraced w -> step rt w ev = Some w' -> PutsTraced w'.
Proof.
  intros HT. destruct ev; cbn [step]; intros H.
  - unfold _write in H. inversion H; subst; clear H.
    destruct (filterWrite (self w) record) as [[|]|msg];
      [|exact HT | apply PutsTraced_raise; exact HT].
    destruct (createLogEvent rt now record) as [e|msg];
      [|apply PutsTraced_raise; exact HT].
    cbv zeta. destruct (negb _).
    + apply PutsTraced_addPending; [discriminate|].
      apply PutsTraced_onSelf; [same_config|].
      apply PutsTraced_onSelf; [same_config | exact HT].
    + apply PutsTraced_onSelf; [same_config | exact HT].
  - inversion H; subst. unfold clearQueue. cbn [snd].
    apply PutsTraced_onSelf; [same_config | exact HT].
  - inversion H; subst. apply PutsTraced_onSelf; [same_config | exact HT].
  - destruct (takePending selSendLogs (pending w)) as [[a rest]|] eqn:Ht;
      inversion H; subst; clear H.
    destruct (takePending_In _ _ Ht) as [_ Hsub].
    apply _sendLogs_PutsTraced.
    apply PutsTraced_setPending; assumption.
  - destruct (takePending selAttemptPut (pending w)) as [[[ap r] rest]|] eqn:Ht;
      inversion H; subst; clear H.
    destruct (takePending_In _ _ Ht) as [(p & Hp & Hsel) Hsub].
    assert (Hin : In (CallPutLogEvents ap) (calls w)).
    { apply (traced_pending HT p); [exact Hp|].
      destruct p; cbn in Hsel; try discriminate. inversion Hsel; subst. reflexivity. }
    unfold attemptPut. apply PutsTraced_addPending.
    + intros ap' Hap. cbn in Hap. injection Hap as <-. cbn.
      apply in_or_app. left. exact Hin.
    + apply PutsTraced_call.
      * intros ap' Hap. injection Hap as <-. exact (traced_calls HT ap Hin).
      * apply PutsTraced_setPending; assumption.
  - destruct (takePending selDescribe (pending w)) as [[a rest]|] eqn:Ht;
      inversion H; subst; clear H.
    destruct (takePending_In _ _ Ht) as [_ Hsub].
    pose proof (@PutsTraced_setPending rest w Hsub HT) as HT0.
    unfold describeLogStreamsAnswered, onSequenceToken. destruct r as [err|[|tok l]].
    + destruct (String.eqb _ _).
      * apply PutsTraced_addPending; [discriminate|].
        apply PutsTraced_call; [discriminate | exact HT0].
      * apply failWith_PutsTraced; [discriminate | exact HT0].
    + apply PutsTraced_addPending; [discriminate|].
      apply PutsTraced_call; [discriminate | exact HT0].
    + apply _sendLogs_PutsTraced.
      apply PutsTraced_onSelf; [same_config | exact HT0].
  - destruct (takePending selCreateLogGroup (pending w)) as [[a rest]|] eqn:Ht;
      inversion H; subst; clear H.
    destruct (takePending_In _ _ Ht) as [_ Hsub].
    pose proof (@PutsTraced_setPending rest w Hsub HT) as HT0.
    unfold createLogGroupAnswered, onSequenceToken. destruct err as [e|].
    + apply failWith_PutsTraced; [discriminate | exact HT0].
    + apply PutsTraced_addPending; [discriminate|].
      apply PutsTraced_call; [discriminate|].
      apply PutsTraced_emit; [discriminate | exact HT0].
  - destruct (takePending selCreateLogStream (pending w)) as [[a rest]|] eqn:Ht;
      inversion H; subst; clear H.
    destruct (takePending_In _ _ Ht) as [_ Hsub].
    pose proof (@PutsTraced_setPending rest w Hsub HT) as HT0.
    unfold createLogStreamAnswered, onSequenceToken. destruct err as [e|].
    + apply failWith_PutsTraced; [discriminate | exact HT0].
    + apply PutsTraced_addPending; [discriminate|].
      apply PutsTraced_call; [discriminate|].
      apply PutsTraced_emit; [discriminate | exact HT0].
  - destruct (takePending selPutLogEvents (pending w)) as [[[ap r0] rest]|] eqn:Ht;
      inversion H; subst; clear H.
    destruct (takePending_In _ _ Ht) as [(p & Hp & Hsel) Hsub].
    assert (Hin : In (CallPutLogEvents ap) (calls w)).
    { apply (traced_pending HT p); [exact Hp|].
      destruct p; cbn in Hsel; try discriminate. inversion Hsel; subst. reflexivity. }
    pose proof (@PutsTraced_setPending rest w Hsub HT) as HT0.
    unfold putLogEventsAnswered, onPutLogEvents. destruct r as [err|tok].
    + destruct (err_retryable err && _).
      * apply PutsTraced_addPending; [|exact HT0].
        intros ap' Hap. cbn in Hap. injection Hap as <-. exact Hin.
      * apply failWith_PutsTraced; [|exact HT0].
        intros evs Hev. injection Hev as <-. exists ap. auto.
    + cbv zeta. unfold _emitPutLogEvents.
      match goal with
      | |- context [emit ?n ?x] => assert (HT1 : PutsTraced (emit n x))
      end.
      { apply PutsTraced_emit.
        - intros evs Hev. injection Hev as <-. exists ap. auto.
        - apply PutsTraced_onSelf; [same_config | exact HT0]. }
      destruct (queuedLogs _).
      * apply PutsTraced_onSelf; [same_config | exact HT1].
      * apply PutsTraced_addPending; [discriminate | exact HT1].
  - destruct (nextIssued id w); inversion H; subst.
    apply _nextAfterError_PutsTraced. exact HT.
Qed.

Lemma run_PutsTraced (rt : Runtime) (evs : list Event) :
  forall w w', PutsTraced w -> run rt w evs = Some w' -> PutsTraced w'.
Proof.
  induction evs as [|ev evs IH]; cbn [run]; intros w w' HT H.
  - inversion H; subst. exact HT.
  - destruct (step rt w ev) as [w1|] eqn:Hs; [|discriminate].
    exact (IH w1 w' (step_PutsTraced rt ev HT Hs) H).
Qed.

Lemma Reachable_PutsTraced (rt : Runtime) (w : World) : Reachable rt w -> PutsTraced w.
Proof.
  intros (options & this & evs & Hnew & Hrun).
  eapply run_PutsTraced; [|exact Hrun].
  constructor; cbn; intros; contradiction.
Qed.

(** What the prototype's size function measured is a string. *)
Lemma batchCost_default_measured (this : CWLogsWritable) (evs : list LogEvent) (c : Z) :
  getMessageSize this = getMessageSize_default ->
  batchCost this evs = Some c ->
  forall ev, In ev evs -> message ev <> None.
Proof.
  intros Hsize. revert c. induction evs as [|e l IH]; intros c Hc ev Hin; [contradiction|].
  cbn [batchCost] in Hc. destruct Hin as [<-|Hin].
  - rewrite Hsize in Hc. destruct (message e); [discriminate|]. cbn in Hc. discriminate.
  - destruct (getMessageSize this (message e)); [|discriminate].
    destruct (batchCost this l) as [c0|] eqn:Hc0; [|discriminate].
    exact (IH c0 eq_refl ev Hin).
Qed.

(** X7. Every [putLogEvents] call a constructed stream ever makes, retries
    included, carries the names of the stream, a sequence token that is not
    [null], and a batch that is not empty and whose messages are all
    strings that were measured.  When [maxBatchCount] is a number (it is
    unless NaN was inherited), the batch has at most [maxBatchCount] rounded
    up events, hence at most 10000, and at most [maxBatchCount] when that
    is an integer; when [maxBatchSize] is a number, the cost of the batch
    is within it unless the batch is a single event. *)
Theorem every_put_is_well_formed (rt : Runtime) (w : World) (apiParams : ApiParams) :
  Reachable rt w ->
  In (CallPutLogEvents apiParams) (calls w) ->
  wellFormedPut (self w) apiParams
  /\ (forall ev, In ev (ap_logEvents apiParams) -> message ev <> None)
  /\ (forall q, maxBatchCount (self w) = Fin q ->
        1 <= Z.of_nat (List.length (ap_logEvents apiParams)) <= Qceiling q
        /\ Qceiling q <= 10000)
  /\ (forall m, isInteger (maxBatchCount (self w)) m ->
        Z.of_nat (List.length (ap_logEvents apiParams)) <= m)
  /\ (forall q, maxBatchSize (self w) = Fin q ->
        List.length (ap_logEvents apiParams) = 1%nat
        \/ exists c, batchCost (self w) (ap_logEvents apiParams) = Some c
                     /\ num_le (ofZ c) (maxBatchSize (self w)) = true).
Proof.
  intros Hreach Hin.
  pose proof (traced_calls (Reachable_PutsTraced Hreach) apiParams Hin) as Hwf.
  pose proof (Reachable_getMessageSize Hreach) as Hsize.
  destruct (Reachable_caps Hreach) as [Hcount Hcap].
  pose proof (put_count Hwf) as Hn. pose proof (put_nonempty Hwf) as Hne.
  assert (Hbound : forall q, maxBatchCount (self w) = Fin q ->
            1 <= Z.of_nat (List.length (ap_logEvents apiParams)) <= Qceiling q
            /\ Qceiling q <= 10000).
  { intros q Hq. rewrite Hq in *.
    destruct Hcount as [Hnan|(q' & Hq' & Hlo & Hhi)]; [discriminate|].
    injection Hq' as <-.
    assert (H1 : 1 <= Qceiling q).
    { pose proof (Qle_ceiling q) as Hc.
      assert (Hlt : (inject_Z 0 < inject_Z (Qceiling q))%Q).
      { apply Qlt_le_trans with q; [|exact Hc].
        apply Qlt_le_trans with 1%Q; [reflexivity | exact Hlo]. }
      rewrite <- Zlt_Qlt in Hlt. lia. }
    assert (H2 : Qceiling q <= 10000) by (apply Qle_ceiling_iff; exact Hhi).
    split; [|exact H2].
    destruct (ap_logEvents apiParams) as [|e l]; [congruence|].
    cbn [List.length] in *. split; [lia|].
    destruct Hn as [Hn|Hn]; [injection Hn as Hl; rewrite Hl; cbn; lia|].
    destruct (Z_le_gt_dec (Qceiling q) (Z.of_nat (S (List.length l)) - 1)) as [Hle|Hgt];
      [|lia].
    apply num_ge_ofZ_l in Hle. congruence. }
  split; [exact Hwf|]. split; [|split; [exact Hbound|split]].
  - destruct (put_measured Hwf) as [c Hc].
    exact (@batchCost_default_measured (self w) _ c Hsize Hc).
  - intros m (q & Hq & Hm). destruct (Hbound q Hq) as [[_ Hle] _].
    rewrite (Qceiling_integer Hm) in Hle. exact Hle.
  - intros q Hq. destruct (put_size Hwf) as [H1|(c & Hc & Hgt)]; [left; exact H1|].
    right. exists c. split; [exact Hc|]. rewrite Hq in *.
    apply num_le_ofZ_l.
    destruct (Z_lt_le_dec (Qfloor q) c) as [Hlt|Hle]; [|exact Hle].
    apply num_gt_ofZ_l in Hlt. congruence.
Qed.

(** X9. Every batch announced by a ['putLogEvents'] notification and every
    batch handed to the recovery hook is the batch of a [putLogEvents] call
    that was made before; so is the batch of a call that is in flight or
    waiting to be retried. *)
Theorem every_batch_was_sent (rt : Runtime) (w : World) :
  Reachable rt w ->
  (forall evs, In (EmitPutLogEvents evs) (emitted w) ->
     exists ap, In (CallPutLogEvents ap) (calls w) /\ ap_logEvents ap = evs)
  /\ (forall h evs, In h (hookCalls w) -> hc_logEvents h = Some evs ->
        exists ap, In (CallPutLogEvents ap) (calls w) /\ ap_logEvents ap = evs)
  /\ (forall p ap, In p (pending w) -> pendingPut p = Some ap ->
        In (CallPutLogEvents ap) (calls w))
  /\ (forall evs, In (EmitPutLogEvents evs) (emitted w) -> evs <> []).
Proof.
  intros Hreach. pose proof (Reachable_PutsTraced Hreach) as HT.
  split; [exact (traced_emitted HT)|]. split; [exact (traced_hook HT)|].
  split; [exact (traced_pending HT)|].
  intros evs Hin. destruct (traced_emitted HT evs Hin) as (ap & Hap & <-).
  exact (put_nonempty (traced_calls HT ap Hap)).
Qed.

Lemma every_put_is_well_formed_witness :
  Reachable Example.rt (Example.after Example.chained)
  /\ In (CallPutLogEvents (Example.params [Example.evA]))
        (calls (Example.after Example.chained))
  /\ wellFormedPut (self (Example.after Example.chained)) (Example.params [Example.evA]).
Proof.
  assert (H2 : In (CallPutLogEvents (Example.params [Example.evA]))
                  (calls (Example.after Example.chained))).
  { vm_compute. right. left. reflexivity. }
  split; [exact Example_chained_reachable|]. split; [exact H2|].
  exact (proj1 (@every_put_is_well_formed Example.rt _ _ Example_chained_reachable H2)).
Defined.

Lemma every_batch_was_sent_witness :
  Reachable Example.rt (Example.after Example.chained)
  /\ forall evs,
       In (EmitPutLogEvents evs) (emitted (Example.after Example.chained)) ->
       exists ap, In (CallPutLogEvents ap) (calls (Example.after Example.chained))
                  /\ ap_logEvents ap = evs.
Proof.
  split; [exact Example_chained_reachable|].
  exact (proj1 (@every_batch_was_sent Example.rt _ Example_chained_reachable)).
Defined.

(** ** Acquiring the sequence token *)

(** X10. When [describeLogStreams] fails with ResourceNotFoundException,
    the group is created, then the stream, each announced by its
    notification in that order, and the token is asked for again; when it
    answers with no stream, only the stream is created and announced before
    the token is asked for again.  In both cases the stream's fields, the
    queue included, are untouched and the recovery hook is not invoked. *)
Theorem missing_resources_are_created (rt : Runtime) (w : World) (err : JSError) :
  pending w = [PDescribeLogStreams] ->
  err_name err = "ResourceNotFoundException" ->
  (exists w',
      run rt w [EvDescribeLogStreams (DescribeErr err);
                EvCreateLogGroup None; EvCreateLogStream None] = Some w'
      /\ calls w' = calls w ++ [CallCreateLogGroup; CallCreateLogStream;
                                CallDescribeLogStreams]
      /\ emitted w' = emitted w ++ [EmitCreateLogGroup; EmitCreateLogStream]
      /\ pending w' = [PDescribeLogStreams]
      /\ self w' = self w /\ hookCalls w' = hookCalls w)
  /\ (exists w',
         run rt w [EvDescribeLogStreams (DescribeOk []); EvCreateLogStream None] = Some w'
         /\ calls w' = calls w ++ [CallCreateLogStream; CallDescribeLogStreams]
         /\ emitted w' = emitted w ++ [EmitCreateLogStream]
         /\ pending w' = [PDescribeLogStreams]
         /\ self w' = self w /\ hookCalls w' = hookCalls w).
Proof.
  intros Hp Hname. split.
  - cbn [run step]. rewrite Hp. cbn [takePending selDescribe].
    unfold describeLogStreamsAnswered. rewrite Hname. cbn.
    eexists. split; [reflexivity|]. cbn. rewrite <- !app_assoc. cbn.
    repeat split; reflexivity.
  - cbn [run step]. rewrite Hp. cbn.
    eexists. split; [reflexivity|]. cbn. rewrite <- !app_assoc. cbn.
    repeat split; reflexivity.
Qed.

Lemma Example_asking_pending :
  pending (Example.after Example.asking) = [PDescribeLogStreams].
Proof. vm_compute. reflexivity. Qed.

Lemma missing_resources_are_created_witness :
  pending (Example.after Example.asking) = [PDescribeLogStreams]
  /\ err_name {| err_name := "ResourceNotFoundException"; err_retryable := false |}
     = "ResourceNotFoundException"
  /\ exists w',
       run Example.rt (Example.after Example.asking)
           [EvDescribeLogStreams (DescribeOk []); EvCreateLogStream None] = Some w'
       /\ calls w' = calls (Example.after Example.asking)
                     ++ [CallCreateLogStream; CallDescribeLogStreams]
       /\ emitted w' = emitted (Example.after Example.asking) ++ [EmitCreateLogStream]
       /\ pending w' = [PDescribeLogStreams]
       /\ self w' = self (Example.after Example.asking)
       /\ hookCalls w' = hookCalls (Example.after Example.asking).
Proof.
  split; [exact Example_asking_pending|]. split; [reflexivity|].
  exact (proj2 (@missing_resources_are_created Example.rt _
                  {| err_name := "ResourceNotFoundException"; err_retryable := false |}
                  Example_asking_pending eq_refl)).
Defined.

(** X11. A failure while the token is being acquired takes nothing off the
    queue.  Whether [describeLogStreams] fails with another error than
    ResourceNotFoundException, or [createLogGroup] or [createLogStream]
    fails, the recovery hook is invoked with that very error, with [null]
    for the log events and a [next] bound to the incremented counter; no
    further call of the service is made, nothing stays outstanding, and
    with a hook of the application nothing but the counter changes in the
    stream.  After a failure of [createLogGroup] no [createLogStream] is
    attempted. *)
Theorem token_failure_reaches_the_hook (rt : Runtime) (w : World) (err : JSError) :
  onError (self w) = UserOnError ->
  let failed :=
    {| self := set_onErrorNextCbId (_onErrorNextCbId (self w) + 1) (self w);
       pending := [];
       calls := calls w;
       emitted := emitted w;
       hookCalls := hookCalls w ++ [{| hc_err := err; hc_logEvents := None;
                                       hc_next := _onErrorNextCbId (self w) + 1 |}];
       thrown := thrown w |} in
  (pending w = [PDescribeLogStreams] ->
   err_name err <> "ResourceNotFoundException" ->
   step rt w (EvDescribeLogStreams (DescribeErr err)) = Some failed)
  /\ (pending w = [PCreateLogGroup] ->
      step rt w (EvCreateLogGroup (Some err)) = Some failed)
  /\ (forall viaGroup, pending w = [PCreateLogStream viaGroup] ->
      step rt w (EvCreateLogStream (Some err)) = Some failed)
  /\ queuedLogs (self failed) = queuedLogs (self w)
  /\ sequenceToken (self failed) = sequenceToken (self w).
Proof.
  intros Hhook failed. subst failed.
  assert (Hfail : forall w0, self w0 = self w -> hookCalls w0 = hookCalls w ->
                             calls w0 = calls w -> emitted w0 = emitted w ->
                             thrown w0 = thrown w -> pending w0 = [] ->
            failWith err None w0
            = {| self := set_onErrorNextCbId (_onErrorNextCbId (self w) + 1) (self w);
                 pending := [];
                 calls := calls w;
                 emitted := emitted w;
                 hookCalls := hookCalls w ++ [{| hc_err := err; hc_logEvents := None;
                                                 hc_next := _onErrorNextCbId (self w) + 1 |}];
                 thrown := thrown w
              |}).
  { intros w0 Hs Hh Hc He Ht0 Hp0. unfold failWith, callOnError. cbn.
    rewrite Hs, Hhook. unfold invokeHook, onSelf. cbn.
    rewrite Hs, Hh, Hc, He, Ht0, Hp0. reflexivity. }
  split; [|split; [|split; [|split; reflexivity]]].
  - intros Hp Hname. cbn [step]. rewrite Hp. cbn [takePending selDescribe].
    unfold describeLogStreamsAnswered.
    destruct (String.eqb (err_name err) "ResourceNotFoundException") eqn:E;
      [apply String.eqb_eq in E; contradiction|].
    cbn [onSequenceToken]. apply f_equal. apply Hfail; reflexivity.
  - intros Hp. cbn [step]. rewrite Hp. cbn [takePending selCreateLogGroup].
    unfold createLogGroupAnswered. cbn [onSequenceToken]. apply f_equal.
    apply Hfail; reflexivity.
  - intros viaGroup Hp. cbn [step]. rewrite Hp. cbn [takePending selCreateLogStream].
    unfold createLogStreamAnswered. cbn [onSequenceToken]. apply f_equal.
    apply Hfail; reflexivity.
Qed.

Lemma token_failure_reaches_the_hook_witness :
  onError (self (Example.after Example.asking)) = UserOnError
  /\ (pending (Example.after Example.asking) = [PDescribeLogStreams] ->
      err_name Example.fatal <> "ResourceNotFoundException" ->
      step Example.rt (Example.after Example.asking)
           (EvDescribeLogStreams (DescribeErr Example.fatal))
      = Some {| self := set_onErrorNextCbId
                          (_onErrorNextCbId (self (Example.after Example.asking)) + 1)
                          (self (Example.after Example.asking));
                pending := [];
                calls := calls (Example.after Example.asking);
                emitted := emitted (Example.after Example.asking);
                hookCalls :=
                  hookCalls (Example.after Example.asking)
                  ++ [{| hc_err := Example.fatal; hc_logEvents := None;
                         hc_next :=
                           _onErrorNextCbId (self (Example.after Example.asking)) + 1 |}];
                thrown := thrown (Example.after Example.asking)
             |}).
Proof.
  assert (H1 : onError (self (Example.after Example.asking)) = UserOnError)
    by (vm_compute; reflexivity).
  split; [exact H1|].
  exact (proj1 (@token_failure_reaches_the_hook Example.rt _ Example.fatal H1)).
Defined.

(** ** Fail-stop, once and for all *)


Lemma thrownErrors_app (a b : list Thrown) :
  thrownErrors (a ++ b) = thrownErrors a ++ thrownErrors b.
Proof.
  induction a as [|t a IH]; cbn; [reflexivity|].
  destruct t; rewrite IH; reflexivity.
Qed.








Lemma _write_quiet (rt : Runtime) (now : Z) (record : JSValue) (w : World) :
  emitted (_write rt now record w) = emitted w
  /\ hookCalls (_write rt now record w) = hookCalls w
  /\ thrownErrors (thrown (_write rt now record w)) = thrownErrors (thrown w).
Proof.
  unfold _write. case_matches; cbn; rewrite ?thrownErrors_app; cbn;
    rewrite ?app_nil_r; auto.
Qed.











(** *** The default recovery hook *)





(** ** From one batch to the next *)

(** X14. When [putLogEvents] succeeds, the batch is announced and the
    token it returned is stored.  If events are queued, one cycle is
    scheduled, and when it fires the planner is asked: when it returns,
    the next batch, the planned prefix of the queue, is sent with that
    token, without asking for the token again; when it throws, nothing is
    sent and the queue stays as it is.  When every queued message can be
    measured the planner returns, so that the next batch is sent.  If
    nothing is queued, the stream goes idle with no timer set, and the next
    accepted write schedules a cycle. *)
Theorem batches_chain_tokens (rt : Runtime) (w : World) (apiParams : ApiParams)
        (retries : Z) (tok : SeqToken) :
  pending w = [PPutLogEvents apiParams retries] ->
  tok <> TokNull ->
  (queuedLogs (self w) <> [] ->
   exists w',
     run rt w [EvPutLogEvents (PutOk tok); EvSendLogsTimer] = Some w'
     /\ emitted w' = emitted w ++ [EmitPutLogEvents (ap_logEvents apiParams)]
     /\ match nextLogBatchSize (self w) (queuedLogs (self w)) with
        | Normal n =>
            exists next,
              calls w' = calls w ++ [CallPutLogEvents next]
              /\ ap_sequenceToken next = tok
              /\ ap_logEvents next = firstn n (queuedLogs (self w))
              /\ ap_logEvents next ++ queuedLogs (self w') = queuedLogs (self w)
              /\ pending w' = [PPutLogEvents next 0]
              /\ thrown w' = thrown w
        | Throw msg =>
            calls w' = calls w
            /\ pending w' = []
            /\ queuedLogs (self w') = queuedLogs (self w)
            /\ sequenceToken (self w') = tok
            /\ thrown w' = thrown w ++ [ThrownMessage msg]
        end)
  /\ ((forall ev, In ev (queuedLogs (self w)) ->
         exists z, getMessageSize (self w) (message ev) = Normal z) ->
      queuedLogs (self w) <> [] ->
      exists w' next,
        run rt w [EvPutLogEvents (PutOk tok); EvSendLogsTimer] = Some w'
        /\ calls w' = calls w ++ [CallPutLogEvents next]
        /\ ap_sequenceToken next = tok
        /\ ap_logEvents next ++ queuedLogs (self w') = queuedLogs (self w)
        /\ emitted w' = emitted w ++ [EmitPutLogEvents (ap_logEvents apiParams)]
        /\ pending w' = [PPutLogEvents next 0])
  /\ (queuedLogs (self w) = [] ->
      exists w',
        step rt w (EvPutLogEvents (PutOk tok)) = Some w'
        /\ idle w' /\ sequenceToken (self w') = tok
        /\ emitted w' = emitted w ++ [EmitPutLogEvents (ap_logEvents apiParams)]
        /\ calls w' = calls w
        /\ step rt w' EvSendLogsTimer = None
        /\ forall record now ev,
             filterWrite (self w) record = Normal true ->
             createLogEvent rt now record = Normal ev ->
             exists w'', step rt w' (EvWrite record now) = Some w''
                         /\ pending w'' = [PSendLogs]
                         /\ queuedLogs (self w'') = [ev]).
Proof.
  intros Hp Htok.
  assert (Hfires :
    queuedLogs (self w) <> [] ->
    exists w',
      run rt w [EvPutLogEvents (PutOk tok); EvSendLogsTimer] = Some w'
      /\ emitted w' = emitted w ++ [EmitPutLogEvents (ap_logEvents apiParams)]
      /\ match nextLogBatchSize (self w) (queuedLogs (self w)) with
         | Normal n =>
             exists next,
               calls w' = calls w ++ [CallPutLogEvents next]
               /\ ap_sequenceToken next = tok
               /\ ap_logEvents next = firstn n (queuedLogs (self w))
               /\ ap_logEvents next ++ queuedLogs (self w') = queuedLogs (self w)
               /\ pending w' = [PPutLogEvents next 0]
               /\ thrown w' = thrown w
         | Throw msg =>
             calls w' = calls w
             /\ pending w' = []
             /\ queuedLogs (self w') = queuedLogs (self w)
             /\ sequenceToken (self w') = tok
             /\ thrown w' = thrown w ++ [ThrownMessage msg]
         end).
  2:{ split; [exact Hfires|]. split.
      - intros Hall Hq. destruct (Hfires Hq) as (w' & Hrun & Hemit & Hplan).
        destruct (@nextLogBatchSize_from_total (self w) (queuedLogs (self w)) Hall
                    0%nat 1%nat 0) as (n & Hn).
        change (nextLogBatchSize (self w) (queuedLogs (self w)) = Normal n) in Hn.
        rewrite Hn in Hplan. destruct Hplan as (next & Hc & Ht & _ & Hsplit & Hpend & _).
        exists w', next. repeat split; assumption.
      - intros Hq. cbn [step]. rewrite Hp. cbn [takePending selPutLogEvents].
        unfold putLogEventsAnswered, onPutLogEvents. cbv zeta.
        unfold _emitPutLogEvents. cbn. rewrite Hq.
        eexists. split; [reflexivity|]. cbn.
        split; [split; reflexivity|]. split; [reflexivity|]. split; [reflexivity|].
        split; [reflexivity|]. split; [reflexivity|].
        intros record now ev Hf Hev. unfold _write. cbn. rewrite Hf, Hev, Hq. cbn.
        eexists. split; [reflexivity|]. split; reflexivity. }
  - intros Hq. cbn [run step]. rewrite Hp. cbn [takePending selPutLogEvents].
    unfold putLogEventsAnswered, onPutLogEvents. cbv zeta.
    unfold _emitPutLogEvents.
    set (w1 := emit (EmitPutLogEvents (ap_logEvents apiParams))
                 (onSelf (set_sequenceToken tok) (setPending [] w))).
    assert (Hq1 : queuedLogs (self w1) = queuedLogs (self w)) by reflexivity.
    destruct (queuedLogs (self w1)) as [|e q] eqn:Hqueue; [congruence|].
    unfold _scheduleSendLogs, addPending. cbn [pending setPending app takePending
                                                selSendLogs].
    set (w2 := setPending [] (setPending (pending w1 ++ [PSendLogs]) w1)).
    assert (Ht2 : sequenceToken (self w2) <> TokNull) by (cbn; exact Htok).
    assert (Hq2 : queuedLogs (self w2) <> []).
    { change (queuedLogs (self w2)) with (queuedLogs (self w1)).
      rewrite Hqueue. discriminate. }
    replace (match takePending selSendLogs (pending w1 ++ [PSendLogs]) with
             | Some (_, rest) =>
                 Some (_sendLogs (setPending rest
                                    (setPending (pending w1 ++ [PSendLogs]) w1)))
             | None => None
             end) with (Some (_sendLogs w2)) by reflexivity.
    assert (Hn2 : nextLogBatchSize (self w2) (queuedLogs (self w2))
                  = nextLogBatchSize (self w) (queuedLogs (self w))).
    { change (queuedLogs (self w2)) with (queuedLogs (self w)).
      apply nextLogBatchSize_from_ext; reflexivity. }
    destruct (nextLogBatchSize (self w) (queuedLogs (self w))) as [n|msg] eqn:Hn.
    + rewrite (@_sendLogs_put w2 n Ht2 Hq2 Hn2).
      eexists. split; [reflexivity|]. split; [reflexivity|].
      eexists. split; [reflexivity|]. split; [reflexivity|].
      split; [reflexivity|].
      split; [cbn; rewrite firstn_skipn; reflexivity|].
      split; reflexivity.
    + rewrite (@_sendLogs_throws w2 msg Ht2 Hq2 Hn2).
      eexists. split; [reflexivity|]. split; [reflexivity|].
      cbn. repeat split; reflexivity.
Qed.

Lemma batches_chain_tokens_witness :
  pending (Example.after [EvWrite (JStr "a") 1000; EvSendLogsTimer;
                          EvDescribeLogStreams (DescribeOk [TokStr "t1"]);
                          EvWrite (JStr "b") 1001])
  = [PPutLogEvents (Example.params [Example.evA]) 0]
  /\ TokStr "t2" <> TokNull
  /\ queuedLogs (self (Example.after [EvWrite (JStr "a") 1000; EvSendLogsTimer;
                                      EvDescribeLogStreams (DescribeOk [TokStr "t1"]);
                                      EvWrite (JStr "b") 1001])) <> []
  /\ exists w' next,
       run Example.rt
           (Example.after [EvWrite (JStr "a") 1000; EvSendLogsTimer;
                           EvDescribeLogStreams (DescribeOk [TokStr "t1"]);
                           EvWrite (JStr "b") 1001])
           [EvPutLogEvents (PutOk (TokStr "t2")); EvSendLogsTimer] = Some w'
       /\ emitted w'
          = emitted (Example.after [EvWrite (JStr "a") 1000; EvSendLogsTimer;
                                    EvDescribeLogStreams (DescribeOk [TokStr "t1"]);
                                    EvWrite (JStr "b") 1001])
            ++ [EmitPutLogEvents (ap_logEvents (Example.params [Example.evA]))]
       /\ calls w'
          = calls (Example.after [EvWrite (JStr "a") 1000; EvSendLogsTimer;
                                  EvDescribeLogStreams (DescribeOk [TokStr "t1"]);
                                  EvWrite (JStr "b") 1001])
            ++ [CallPutLogEvents next]
       /\ ap_sequenceToken next = TokStr "t2"
       /\ pending w' = [PPutLogEvents next 0].
Proof.
  assert (H1 : pending (Example.after [EvWrite (JStr "a") 1000; EvSendLogsTimer;
                                       EvDescribeLogStreams (DescribeOk [TokStr "t1"]);
                                       EvWrite (JStr "b") 1001])
               = [PPutLogEvents (Example.params [Example.evA]) 0])
    by (vm_compute; reflexivity).
  assert (H2 : TokStr "t2" <> TokNull) by discriminate.
  assert (H3 : queuedLogs (self (Example.after
                                   [EvWrite (JStr "a") 1000; EvSendLogsTimer;
                                    EvDescribeLogStreams (DescribeOk [TokStr "t1"]);
                                    EvWrite (JStr "b") 1001])) <> [])
    by (vm_compute; discriminate).
  assert (Hn : nextLogBatchSize
                 (self (Example.after [EvWrite (JStr "a") 1000; EvSendLogsTimer;
                                       EvDescribeLogStreams (DescribeOk [TokStr "t1"]);
                                       EvWrite (JStr "b") 1001]))
                 (queuedLogs
                    (self (Example.after [EvWrite (JStr "a") 1000; EvSendLogsTimer;
                                          EvDescribeLogStreams (DescribeOk [TokStr "t1"]);
                                          EvWrite (JStr "b") 1001])))
               = Normal 1%nat) by (vm_compute; reflexivity).
  split; [exact H1|]. split; [exact H2|]. split; [exact H3|].
  destruct (proj1 (@batches_chain_tokens Example.rt _ _ _ _ H1 H2) H3)
    as (w' & Hrun & Hemit & Hplan).
  rewrite Hn in Hplan. destruct Hplan as (next & Hc & Ht & _ & _ & Hp & _).
  exists w', next. split; [exact Hrun|]. split; [exact Hemit|].
  split; [exact Hc|]. split; [exact Ht | exact Hp].
Defined.

(** ** The ids of [next] *)

Lemma failWith_counter_le (err : JSError) (logEvents : option (list LogEvent))
      (w : World) :
  _onErrorNextCbId (self w) + 1 <= _onErrorNextCbId (self (failWith err logEvents w)).
Proof.
  pose proof (failWith_counter err logEvents w). lia.
Qed.

Lemma step_hookCalls (rt : Runtime) (w w' : World) (ev : Event) :
  step rt w ev = Some w' ->
  hookCalls w' = hookCalls w
  \/ exists h, hookCalls w' = hookCalls w ++ [h]
               /\ hc_next h = _onErrorNextCbId (self w) + 1
               /\ _onErrorNextCbId (self w) + 1 <= _onErrorNextCbId (self w').
Proof.
  assert (Hnext : forall id arg w0, hookCalls (_nextAfterError id arg w0) = hookCalls w0).
  { intros id arg w0. unfold _nextAfterError, _handleError. case_matches; reflexivity. }
  assert (Hsend : forall w0, hookCalls (_sendLogs w0) = hookCalls w0).
  { intros w0. unfold _sendLogs. case_matches; reflexivity. }
  assert (Hfail : forall err logEvents rest,
             exists h, hookCalls (failWith err logEvents (setPending rest w))
                       = hookCalls w ++ [h]
                       /\ hc_next h = _onErrorNextCbId (self w) + 1
                       /\ _onErrorNextCbId (self w) + 1
                          <= _onErrorNextCbId
                               (self (failWith err logEvents (setPending rest w)))).
  { intros err logEvents rest. eexists. rewrite failWith_hook.
    split; [reflexivity|]. split; [reflexivity|].
    exact (failWith_counter_le err logEvents (setPending rest w)). }
  destruct ev; cbn [step]; intros H.
  - left. inversion H; subst. apply _write_quiet.
  - left. inversion H; subst. reflexivity.
  - left. inversion H; subst. reflexivity.
  - left. destruct (takePending selSendLogs (pending w)) as [[a rest]|];
      inversion H; subst. rewrite Hsend. reflexivity.
  - left. destruct (takePending selAttemptPut (pending w)) as [[[ap r] rest]|];
      inversion H; subst. reflexivity.
  - destruct (takePending selDescribe (pending w)) as [[a rest]|]; inversion H; subst.
    unfold describeLogStreamsAnswered, onSequenceToken. destruct r as [err|[|tok l]].
    + destruct (String.eqb _ _); [left; reflexivity | right; apply Hfail].
    + left. reflexivity.
    + left. rewrite Hsend. reflexivity.
  - destruct (takePending selCreateLogGroup (pending w)) as [[a rest]|];
      inversion H; subst.
    unfold createLogGroupAnswered, onSequenceToken. destruct err as [e|].
    + right. apply Hfail.
    + left. reflexivity.
  - destruct (takePending selCreateLogStream (pending w)) as [[a rest]|];
      inversion H; subst.
    unfold createLogStreamAnswered, onSequenceToken. destruct err as [e|].
    + right. apply Hfail.
    + left. reflexivity.
  - destruct (takePending selPutLogEvents (pending w)) as [[[ap r0] rest]|];
      inversion H; subst.
    unfold putLogEventsAnswered, onPutLogEvents. destruct r as [err|tok].
    + destruct (err_retryable err && _); [left; reflexivity | right; apply Hfail].
    + left. cbn. destruct (queuedLogs (self w)); reflexivity.
  - left. destruct (nextIssued id w); inversion H; subst. apply Hnext.
Qed.

Lemma NoDup_snoc {A} (l : list A) (x : A) : NoDup l -> ~ In x l -> NoDup (l ++ [x]).
Proof.
  induction 1 as [|y l Hy Hnd IH]; cbn; intros Hx.
  - constructor; [intros [] | constructor].
  - constructor.
    + intros Hin. apply in_app_or in Hin. destruct Hin as [Hin|[->|[]]]; tauto.
    + apply IH. tauto.
Qed.

(** X15. No two invocations of the recovery hook are handed a [next] with
    the same id: along any run of a constructed stream the ids are pairwise
    distinct, each at least 2 and at most the current counter. *)
Theorem next_ids_are_distinct (rt : Runtime) (options : option Options)
        (this : CWLogsWritable) (evs : list Event) (w : World) :
  CWLogsWritable_new options = Normal this ->
  run rt (newWorld this) evs = Some w ->
  NoDup (map hc_next (hookCalls w))
  /\ Forall (fun h => 2 <= hc_next h <= _onErrorNextCbId (self w)) (hookCalls w)
  /\ 1 <= _onErrorNextCbId (self w).
Proof.
  intros Hnew Hrun.
  destruct (CWLogsWritable_new_fresh options Hnew) as (Hc0 & _).
  assert (Hgen : forall evs w0 w1,
             NoDup (map hc_next (hookCalls w0))
             /\ Forall (fun h => 2 <= hc_next h <= _onErrorNextCbId (self w0))
                       (hookCalls w0)
             /\ 1 <= _onErrorNextCbId (self w0) ->
             run rt w0 evs = Some w1 ->
             NoDup (map hc_next (hookCalls w1))
             /\ Forall (fun h => 2 <= hc_next h <= _onErrorNextCbId (self w1))
                       (hookCalls w1)
             /\ 1 <= _onErrorNextCbId (self w1)).
  { clear. induction evs as [|ev evs IH]; cbn [run]; intros w0 w1 HP H.
    - inversion H; subst. exact HP.
    - destruct (step rt w0 ev) as [w2|] eqn:Hs; [|discriminate].
      apply (IH w2 w1); [|exact H]. destruct HP as (Hnd & Hall & H1).
      pose proof (step_counter rt w0 ev Hs) as Hmono.
      assert (Hall' : Forall (fun h => 2 <= hc_next h <= _onErrorNextCbId (self w2))
                             (hookCalls w0)).
      { eapply Forall_impl; [|exact Hall]. cbn. intros h Hh. lia. }
      destruct (step_hookCalls rt w0 ev Hs) as [->|(h & -> & Hid & Hle)].
      + split; [exact Hnd|]. split; [exact Hall' | lia].
      + split; [|split; [|lia]].
        * rewrite map_app. cbn. apply NoDup_snoc; [exact Hnd|].
          intros Hin. apply in_map_iff in Hin. destruct Hin as (h' & Heq & Hin').
          rewrite Forall_forall in Hall. specialize (Hall h' Hin'). lia.
        * apply Forall_app. split; [exact Hall'|]. constructor; [lia | constructor]. }
  apply (Hgen evs (newWorld this) w); [|exact Hrun].
  cbn. rewrite Hc0. split; [constructor|]. split; [constructor | lia].
Qed.

Lemma next_ids_are_distinct_witness :
  CWLogsWritable_new (Some (Example.options (Some (AFunction tt)) None))
  = Normal (Example.stream UserOnError)
  /\ run Example.rt (newWorld (Example.stream UserOnError)) Example.resend
     = Some (Example.after Example.resend)
  /\ NoDup (map hc_next (hookCalls (Example.after Example.resend))).
Proof.
  split; [exact Example_new|]. split; [exact Example_resend_run|].
  exact (proj1 (@next_ids_are_distinct Example.rt _ _ _ _
                  Example_new Example_resend_run)).
Defined.

(** ** Writing to a stream with the default filter *)

Lemma run_filterWrite (rt : Runtime) (evs : list Event) :
  forall w w',
    run rt w evs = Some w' ->
    filterWrite (self w') = filterWrite (self w)
    \/ filterWrite (self w') = _falseFilterWrite.
Proof.
  induction evs as [|ev evs IH]; cbn [run]; intros w w' H.
  - inversion H; subst. left. reflexivity.
  - destruct (step rt w ev) as [w1|] eqn:Hs; [|discriminate].
    destruct (IH w1 w' H) as [Hf|Hf]; [|right; exact Hf].
    destruct (step_config rt w ev Hs) as [_ [Hf1|Hf1]]; [left | right]; congruence.
Qed.

(** X16. A stream constructed with no [filterWrite] option, own or
    inherited, filters with [rec != null] until it fail-stops.  Whatever
    has happened before, a write of [null] or [undefined], and every write
    once the filter has been replaced, leaves the world as it is.  Any
    other record goes to [createLogEvent]: when that returns, the log event
    is appended to the queue, the cycle is or stays scheduled and nothing
    is called, emitted or thrown; when that throws, which it does when
    [JSON.stringify] or the conversion of the [time] field throws, [_write]
    throws the same exception and nothing else changes.  A write of a
    string never throws. *)
Theorem write_with_default_filter (rt : Runtime) (o : Options) (this : CWLogsWritable)
        (evs : list Event) (w : World) (record : JSValue) (now : Z) :
  CWLogsWritable_new (Some o) = Normal this ->
  o_filterWrite o = None ->
  i_filterWrite (o_inherited o) = NotAFunction false ->
  run rt (newWorld this) evs = Some w ->
  (filterWrite (self w) = filterWrite_default
   \/ filterWrite (self w) = _falseFilterWrite)
  /\ exists w',
       step rt w (EvWrite record now) = Some w'
       /\ (filterWrite_default record = Normal false
           \/ filterWrite (self w) = _falseFilterWrite -> w' = w)
       /\ (filterWrite_default record = Normal true ->
           filterWrite (self w) = filterWrite_default ->
           match createLogEvent rt now record with
           | Normal ev =>
               queuedLogs (self w') = queuedLogs (self w) ++ [ev]
               /\ writeQueued (self w') = true
               /\ calls w' = calls w /\ emitted w' = emitted w
               /\ thrown w' = thrown w
           | Throw msg => w' = raise (ThrownMessage msg) w
           end)
       /\ (forall s, record = JStr s -> thrown w' = thrown w).
Proof.
  intros Hnew Hnone Hinh Hrun.
  assert (Hf0 : filterWrite this = filterWrite_default).
  { unfold CWLogsWritable_new in Hnew.
    destruct (validateOptions (Some o)); [discriminate|].
    injection Hnew as <-. cbn. rewrite Hnone, Hinh. reflexivity. }
  assert (Hf : filterWrite (self w) = filterWrite_default
               \/ filterWrite (self w) = _falseFilterWrite).
  { destruct (run_filterWrite rt evs _ Hrun) as [H|H]; [left | right]; cbn in H;
      congruence. }
  split; [exact Hf|].
  exists (_write rt now record w). split; [reflexivity|]. split; [|split].
  - intros [Hrej|Hrep]; unfold _write.
    + destruct Hf as [Hf|Hf]; rewrite Hf; [rewrite Hrej|]; reflexivity.
    + rewrite Hrep. reflexivity.
  - intros Hacc Hdef. unfold _write. rewrite Hdef, Hacc.
    destruct (createLogEvent rt now record) as [ev|msg]; [|reflexivity].
    cbv zeta. destruct (negb _) eqn:E; cbn.
    + repeat split; reflexivity.
    + apply negb_false_iff in E. cbn in E. repeat split; try reflexivity. exact E.
  - intros s ->. unfold _write.
    destruct Hf as [Hf|Hf]; rewrite Hf; cbn; [|reflexivity].
    destruct (negb _); reflexivity.
Qed.

Lemma write_with_default_filter_witness :
  CWLogsWritable_new (Some (Example.options (Some (AFunction tt)) None))
  = Normal (Example.stream UserOnError)
  /\ o_filterWrite (Example.options (Some (AFunction tt)) None) = None
  /\ i_filterWrite (o_inherited (Example.options (Some (AFunction tt)) None))
     = NotAFunction false
  /\ run Example.rt (newWorld (Example.stream UserOnError)) Example.resend
     = Some (Example.after Example.resend)
  /\ exists w',
       step Example.rt (Example.after Example.resend) (EvWrite (JStr "c") 1002) = Some w'
       /\ queuedLogs (self w')
          = queuedLogs (self (Example.after Example.resend))
            ++ [{| message := Some "c"; timestamp := Some 1002 |}]
       /\ thrown w' = thrown (Example.after Example.resend).
Proof.
  assert (Hf : filterWrite (self (Example.after Example.resend)) = filterWrite_default)
    by (vm_compute; reflexivity).
  split; [exact Example_new|]. split; [reflexivity|]. split; [reflexivity|].
  split; [exact Example_resend_run|].
  destruct (proj2 (@write_with_default_filter Example.rt _ _ _ _ (JStr "c") 1002
                     Example_new eq_refl eq_refl Example_resend_run))
    as (w' & Hstep & _ & Hacc & _).
  exists w'. split; [exact Hstep|].
  pose proof (Hacc eq_refl Hf) as H. cbn in H.
  split; [exact (proj1 H) | exact (proj2 (proj2 (proj2 (proj2 H))))].
Defined.

(** X20. A record for which [JSON.stringify] returns [undefined] (a
    function, a symbol) passes the default filter and is queued with no
    message.  When the cycle comes to it with a token, [getMessageSize]
    throws in the planner: nothing is sent, the event stays at the head of
    the queue, and the stream is stalled, so that nothing is sent or
    emitted any more whatever is written later. *)
Theorem unmeasurable_record_stalls (rt : Runtime) (w : World) (record : JSValue)
        (now : Z) (ev : LogEvent) :
  Reachable rt w ->
  idle w ->
  sequenceToken (self w) <> TokNull ->
  filterWrite (self w) record = Normal true ->
  createLogEvent rt now record = Normal ev ->
  message ev = None ->
  exists w' msg,
    run rt w [EvWrite record now; EvSendLogsTimer] = Some w'
    /\ thrown w' = thrown w ++ [ThrownMessage msg]
    /\ calls w' = calls w
    /\ emitted w' = emitted w
    /\ queuedLogs (self w') = [ev]
    /\ Stalled w'
    /\ forall evs w'', run rt w' evs = Some w'' ->
         Stalled w'' /\ calls w'' = calls w /\ emitted w'' = emitted w.
Proof.
  intros Hreach [Hp Hwq] Htok Hf Hev Hm.
  pose proof (Reachable_Inv Hreach) as HI.
  destruct (inv_idle HI Hwq) as (_ & Hs & Hq).
  pose proof (Reachable_getMessageSize Hreach) as Hsize.
  cbn [run step]. unfold _write. rewrite Hf, Hev. cbv zeta.
  cbn [self onSelf writeQueued set_queuedLogs]. rewrite Hwq, Hq. cbn [negb app].
  unfold _scheduleSendLogs, addPending. cbn [pending onSelf setPending]. rewrite Hp.
  cbn [app takePending selSendLogs].
  match goal with
  | |- context [_sendLogs ?x] => set (w2 := x)
  end.
  assert (Ht2 : sequenceToken (self w2) <> TokNull) by exact Htok.
  assert (Hq2 : queuedLogs (self w2) = [ev]) by reflexivity.
  assert (Hq2ne : queuedLogs (self w2) <> []) by (rewrite Hq2; discriminate).
  assert (Hn : nextLogBatchSize (self w2) (queuedLogs (self w2))
               = Throw "TypeError: Cannot read property 'length' of undefined").
  { rewrite Hq2. apply nextLogBatchSize_first_unmeasured.
    change (getMessageSize (self w2)) with (getMessageSize (self w)).
    rewrite Hsize, Hm. reflexivity. }
  rewrite (_sendLogs_throws w2 Ht2 Hq2ne Hn).
  assert (HS : Stalled (raise (ThrownMessage
                 "TypeError: Cannot read property 'length' of undefined") w2)).
  { constructor; cbn; [reflexivity | reflexivity | exact Hs]. }
  eexists. eexists. split; [reflexivity|]. split; [reflexivity|].
  split; [reflexivity|]. split; [reflexivity|]. split; [reflexivity|].
  split; [exact HS|].
  intros evs w'' Hrun. destruct (Stalled_run rt evs HS Hrun) as (HS' & Hc & He & _).
  split; [exact HS'|]. split; [exact Hc | exact He].
Qed.

Lemma Example_resend_reachable : Reachable Example.rt (Example.after Example.resend).
Proof.
  apply (Example_reachable Example.resend). vm_compute. reflexivity.
Defined.

Lemma unmeasurable_record_stalls_witness :
  Reachable Example.rt (Example.after Example.resend)
  /\ idle (Example.after Example.resend)
  /\ sequenceToken (self (Example.after Example.resend)) <> TokNull
  /\ filterWrite (self (Example.after Example.resend)) JFun = Normal true
  /\ createLogEvent Example.rt 1002 JFun
     = Normal {| message := None; timestamp := Some 1002 |}
  /\ exists w' msg,
       run Example.rt (Example.after Example.resend) [EvWrite JFun 1002; EvSendLogsTimer]
       = Some w'
       /\ thrown w' = thrown (Example.after Example.resend) ++ [ThrownMessage msg]
       /\ calls w' = calls (Example.after Example.resend).
Proof.
  assert (H3 : sequenceToken (self (Example.after Example.resend)) <> TokNull)
    by (vm_compute; discriminate).
  assert (H4 : filterWrite (self (Example.after Example.resend)) JFun = Normal true)
    by (vm_compute; reflexivity).
  assert (H5 : createLogEvent Example.rt 1002 JFun
               = Normal {| message := None; timestamp := Some 1002 |})
    by (vm_compute; reflexivity).
  split; [exact Example_resend_reachable|]. split; [exact Example_resend_idle|].
  split; [exact H3|]. split; [exact H4|]. split; [exact H5|].
  destruct (@unmeasurable_record_stalls Example.rt _ JFun 1002 _
              Example_resend_reachable Example_resend_idle H3 H4 H5 eq_refl)
    as (w' & msg & Hrun & Hth & Hc & _).
  exists w', msg. split; [exact Hrun|]. split; [exact Hth | exact Hc].
Defined.

(** ** The first delivery *)

Lemma batchCost_measured (this : CWLogsWritable) (evs : list LogEvent) (c : Z) :
  batchCost this evs = Some c ->
  forall ev, In ev evs -> exists z, getMessageSize this (message ev) = Normal z.
Proof.
  revert c. induction evs as [|e l IH]; intros c Hc ev Hin; [contradiction|].
  cbn [batchCost] in Hc.
  destruct (getMessageSize this (message e)) as [z|] eqn:Hz; [|discriminate].
  destruct (batchCost this l) as [c0|] eqn:Hc0; [|discriminate].
  destruct Hin as [<-|Hin]; [eauto | exact (IH c0 eq_refl ev Hin)].
Qed.

(** A count that is within the cap has not reached it before. *)
Lemma count_within_not_reached (b : JSNumber) (n k : Z) :
  n < k -> num_le (ofZ k) b = true -> num_ge (ofZ n) b = false.
Proof.
  intros Hlt. destruct b as [q| | |]; try (cbn; congruence).
  intros Hle. apply num_le_ofZ_l in Hle.
  destruct (num_ge (ofZ n) (Fin q)) eqn:E; [|reflexivity].
  apply num_ge_ofZ_l in E. pose proof (Qfloor_le_ceiling q). lia.
Qed.

(** When the whole snapshot is within both caps, the planner takes it
    all. *)
Lemma nextLogBatchSize_all_fit (this : CWLogsWritable) (q : list LogEvent) :
  (forall m z, getMessageSize this m = Normal z -> 0 <= z) ->
  q <> [] ->
  withinCaps this (List.length q) q ->
  nextLogBatchSize this q = Normal (List.length q).
Proof.
  intros Hsize Hq (c & Hc & Hsz & Hct).
  rewrite firstn_all in Hc.
  destruct (@nextLogBatchSize_from_total this q (batchCost_measured this q Hc)
              0%nat 1%nat 0) as (n & Hn).
  change (nextLogBatchSize this q = Normal n) in Hn. rewrite Hn. apply f_equal.
  destruct (@nextLogBatchSize_spec this q n Hq Hn) as (Hrange & _ & _ & Hstop).
  destruct (Nat.eq_dec n (List.length q)) as [E|E]; [exact E|]. exfalso.
  destruct (Hstop ltac:(lia)) as (k & c' & Hk & Hc' & [Hover|Hreached]).
  - assert (Hall : batchCost this (firstn (List.length q) q) = Some c)
      by (rewrite firstn_all; exact Hc).
    destruct (@batchCost_firstn_mono this Hsize q k (List.length q) c ltac:(lia) Hall)
      as (ck & Hck & Hle).
    rewrite Hc' in Hck. injection Hck as <-.
    pose proof (@num_gt_mono (maxBatchSize this) _ _ Hle Hover) as Hover'.
    rewrite (@num_le_not_gt _ _ Hsz) in Hover'. discriminate.
  - rewrite (@count_within_not_reached (maxBatchCount this) (Z.of_nat n)
               (Z.of_nat (List.length q)) ltac:(lia) Hct) in Hreached.
    discriminate.
Qed.

Lemma writes_keep_token (rt : Runtime) (evs : list Event) :
  forall w w',
    Forall isWrite evs ->
    run rt w evs = Some w' ->
    sequenceToken (self w') = sequenceToken (self w)
    /\ hookCalls w' = hookCalls w.
Proof.
  induction evs as [|ev evs IH]; cbn [run]; intros w w' Hall H.
  - inversion H; subst. auto.
  - inversion Hall as [|? ? Hev Hall']; subst.
    destruct ev; try contradiction. cbn [step] in H. unfold _write in H.
    destruct (filterWrite (self w) record) as [[|]|msg];
      [|exact (IH w w' Hall' H) | exact (IH _ w' Hall' H)].
    destruct (createLogEvent rt now record) as [e|msg]; [|exact (IH _ w' Hall' H)].
    cbv zeta in H. destruct (negb _);
      match type of H with run rt ?x evs = _ =>
        destruct (IH x w' Hall' H) as [Ht Hh]; split; [rewrite Ht | rewrite Hh];
        reflexivity
      end.
Qed.
(** X17. Records are written to a fresh stream, at least one is accepted,
    and the accepted ones together are within both caps, which says of
    every one of them that its message could be measured.  Then, when the
    cycle fires, the token is asked for once; when a token comes back, all
    the queued events are sent in one [putLogEvents] call, in the order of
    the writes and with that token; and when the call succeeds the batch is
    announced, the new token is stored, the queue is empty and the stream is
    idle.  The recovery hook is never invoked. *)
Theorem first_delivery (rt : Runtime) (options : option Options) (this : CWLogsWritable)
        (writes : list Event) (w0 : World) (tok tok2 : SeqToken) (others : list SeqToken) :
  CWLogsWritable_new options = Normal this ->
  Forall isWrite writes ->
  run rt (newWorld this) writes = Some w0 ->
  enqueuedBy rt (newWorld this) writes <> [] ->
  withinCaps this (List.length (enqueuedBy rt (newWorld this) writes))
             (enqueuedBy rt (newWorld this) writes) ->
  tok <> TokNull ->
  exists w',
    run rt w0 [EvSendLogsTimer;
               EvDescribeLogStreams (DescribeOk (tok :: others));
               EvPutLogEvents (PutOk tok2)] = Some w'
    /\ calls w'
       = [CallDescribeLogStreams;
          CallPutLogEvents
            {| ap_logGroupName := logGroupName this;
               ap_logStreamName := logStreamName this;
               ap_sequenceToken := tok;
               ap_logEvents := enqueuedBy rt (newWorld this) writes |}]
    /\ emitted w' = [EmitPutLogEvents (enqueuedBy rt (newWorld this) writes)]
    /\ idle w'
    /\ queuedLogs (self w') = []
    /\ sequenceToken (self w') = tok2
    /\ hookCalls w' = [].
Proof.
  intros Hnew Hall Hrun Hne Hfit Htok.
  set (q := enqueuedBy rt (newWorld this) writes) in *.
  destruct (CWLogsWritable_new_fresh options Hnew) as (_ & Htok0 & Hwq0 & Hq0 & _).
  pose proof (CWLogsWritable_new_planner options Hnew) as Hsize.
  destruct (@writes_while_idle rt writes (newWorld this) w0 Hall Hwq0 Hrun)
    as (Hqueue & Hcalls & Hemit & Hm).
  destruct (@writes_keep_token rt writes (newWorld this) w0 Hall Hrun) as [Htk Hhk].
  fold q in Hqueue, Hm. cbn in Hqueue, Hcalls, Hemit, Hm, Htk, Hhk.
  rewrite Hq0 in Hqueue. cbn in Hqueue. rewrite Htok0 in Htk.
  destruct q as [|e0 q0] eqn:Hqeq; [congruence|]. rewrite <- Hqeq in *.
  destruct Hm as [Hwq Hp].
  destruct (run_sameConfig rt writes _ Hrun)
    as (Hg & Hs & _ & _ & _ & Hc & Hz & _ & Hsz).
  cbn in Hg, Hs, Hc, Hz, Hsz.
  (* the cycle fires and asks for the token *)
  assert (Hask : _sendLogs (setPending [] w0) = _getSequenceToken (setPending [] w0)).
  { unfold _sendLogs. cbn [self setPending]. rewrite Htk. reflexivity. }
  cbn [run step]. rewrite Hp. cbn [takePending selSendLogs]. rewrite Hask.
  cbn [step _getSequenceToken addPending call setPending pending app takePending
       selDescribe describeLogStreamsAnswered onSequenceToken].
  (* the token comes back and the whole queue is sent *)
  match goal with
  | |- context [_sendLogs ?x] => set (w2 := x)
  end.
  assert (Ht2 : sequenceToken (self w2) <> TokNull) by exact Htok.
  assert (Hq2 : queuedLogs (self w2) = q) by exact Hqueue.
  assert (Hq2ne : queuedLogs (self w2) <> []) by (rewrite Hq2; exact Hne).
  assert (Hn : nextLogBatchSize (self w2) (queuedLogs (self w2))
               = Normal (List.length q)).
  { rewrite Hq2.
    transitivity (nextLogBatchSize this q).
    - apply nextLogBatchSize_from_ext; cbn; [congruence | congruence|].
      intros m. rewrite Hsz. reflexivity.
    - apply nextLogBatchSize_all_fit; assumption. }
  rewrite (_sendLogs_put w2 Ht2 Hq2ne Hn). rewrite Hq2, firstn_all, skipn_all.
  (* the call succeeds *)
  cbn [step _putLogEvents attemptPut addPending call setPending pending app
       takePending selPutLogEvents onSelf putLogEventsAnswered].
  unfold onPutLogEvents, _emitPutLogEvents. cbn.
  eexists. split; [reflexivity|]. cbn.
  rewrite Hcalls, Hemit, Hhk, <- Hg, <- Hs. cbn.
  repeat split; reflexivity.
Qed.
Lemma first_delivery_witness :
  CWLogsWritable_new (Some (Example.options (Some (AFunction tt)) None))
  = Normal (Example.stream UserOnError)
  /\ Forall isWrite [EvWrite (JStr "a") 1000; EvWrite (JStr "b") 1001]
  /\ run Example.rt (newWorld (Example.stream UserOnError))
         [EvWrite (JStr "a") 1000; EvWrite (JStr "b") 1001]
     = Some (Example.after [EvWrite (JStr "a") 1000; EvWrite (JStr "b") 1001])
  /\ enqueuedBy Example.rt (newWorld (Example.stream UserOnError))
                [EvWrite (JStr "a") 1000; EvWrite (JStr "b") 1001] <> []
  /\ withinCaps (Example.stream UserOnError)
       (List.length (enqueuedBy Example.rt (newWorld (Example.stream UserOnError))
                                [EvWrite (JStr "a") 1000; EvWrite (JStr "b") 1001]))
       (enqueuedBy Example.rt (newWorld (Example.stream UserOnError))
                   [EvWrite (JStr "a") 1000; EvWrite (JStr "b") 1001])
  /\ TokStr "t1" <> TokNull
  /\ exists w',
       run Example.rt (Example.after [EvWrite (JStr "a") 1000; EvWrite (JStr "b") 1001])
           [EvSendLogsTimer;
            EvDescribeLogStreams (DescribeOk [TokStr "t1"]);
            EvPutLogEvents (PutOk (TokStr "t2"))] = Some w'
       /\ calls w'
          = [CallDescribeLogStreams;
             CallPutLogEvents
               {| ap_logGroupName := logGroupName (Example.stream UserOnError);
                  ap_logStreamName := logStreamName (Example.stream UserOnError);
                  ap_sequenceToken := TokStr "t1";
                  ap_logEvents :=
                    enqueuedBy Example.rt (newWorld (Example.stream UserOnError))
                               [EvWrite (JStr "a") 1000; EvWrite (JStr "b") 1001] |}]
       /\ emitted w'
          = [EmitPutLogEvents
               (enqueuedBy Example.rt (newWorld (Example.stream UserOnError))
                           [EvWrite (JStr "a") 1000; EvWrite (JStr "b") 1001])]
       /\ idle w'
       /\ queuedLogs (self w') = []
       /\ sequenceToken (self w') = TokStr "t2"
       /\ hookCalls w' = [].
Proof.
  assert (Henq : enqueuedBy Example.rt (newWorld (Example.stream UserOnError))
                            [EvWrite (JStr "a") 1000; EvWrite (JStr "b") 1001]
                 = [Example.evA; Example.evB]) by (vm_compute; reflexivity).
  assert (H2 : Forall isWrite [EvWrite (JStr "a") 1000; EvWrite (JStr "b") 1001])
    by (repeat constructor).
  assert (H3 : run Example.rt (newWorld (Example.stream UserOnError))
                   [EvWrite (JStr "a") 1000; EvWrite (JStr "b") 1001]
               = Some (Example.after [EvWrite (JStr "a") 1000; EvWrite (JStr "b") 1001]))
    by (vm_compute; reflexivity).
  assert (H4 : enqueuedBy Example.rt (newWorld (Example.stream UserOnError))
                          [EvWrite (JStr "a") 1000; EvWrite (JStr "b") 1001] <> [])
    by (rewrite Henq; discriminate).
  assert (H5 : withinCaps (Example.stream UserOnError)
                 (List.length (enqueuedBy Example.rt (newWorld (Example.stream UserOnError))
                                 [EvWrite (JStr "a") 1000; EvWrite (JStr "b") 1001]))
                 (enqueuedBy Example.rt (newWorld (Example.stream UserOnError))
                             [EvWrite (JStr "a") 1000; EvWrite (JStr "b") 1001])).
  { rewrite Henq. exists 54. split; [reflexivity|]. split; reflexivity. }
  assert (H6 : TokStr "t1" <> TokNull) by discriminate.
  split; [exact Example_new|]. split; [exact H2|]. split; [exact H3|].
  split; [exact H4|]. split; [exact H5|]. split; [exact H6|].
  exact (@first_delivery Example.rt _ _ _ _ (TokStr "t1") (TokStr "t2") []
           Example_new H2 H3 H4 H5 H6).
Defined.
(** ** Resuming without events *)

(** X3. When the recovery hook calls [next()] with nothing, or with an
    empty array, and the call is honoured, the refused batch is not put
    back: the queue is what it was, the sequence token is [null], exactly
    one cycle is scheduled and nothing else changes but the counter; the
    two ways of calling [next] lead to the same world. *)
Theorem next_without_events (rt : Runtime) (w w' : World) (id : Z) :
  Reachable rt w ->
  id = _onErrorNextCbId (self w) ->
  step rt w (EvNext id NextNothing) = Some w' ->
  step rt w (EvNext id (NextEvents [])) = Some w'
  /\ queuedLogs (self w') = queuedLogs (self w)
  /\ sequenceToken (self w') = TokNull
  /\ _onErrorNextCbId (self w') = id + 1
  /\ pending w' = [PSendLogs]
  /\ writeQueued (self w') = true
  /\ calls w' = calls w /\ emitted w' = emitted w /\ hookCalls w' = hookCalls w
  /\ inFlight w' = [].
Proof.
  intros Hreach -> Hstep. cbn [step] in *.
  destruct (nextIssued (_onErrorNextCbId (self w)) w) eqn:Hi; [|discriminate].
  pose proof (Reachable_Inv Hreach) as HI.
  destruct (Inv_honoured HI Hi) as [Hp Hq].
  inversion Hstep; subst w'; clear Hstep.
  assert (Hs : staleAt (_onErrorNextCbId (self w) + 1) (hookCalls w)).
  { eapply orderedAt_bump; [exact (inv_calls HI) | lia]. }
  unfold _nextAfterError. rewrite Z.eqb_refl. cbn [negb]. split.
  - apply f_equal. clear. destruct w as [s p c e h t]. destruct s. cbn.
    destruct queuedLogs0; reflexivity.
  - cbn. rewrite Hp. cbn.
    split; [reflexivity|]. split; [reflexivity|]. split; [reflexivity|].
    split; [reflexivity|]. split; [exact Hq|]. split; [reflexivity|].
    split; [reflexivity|]. split; [reflexivity|].
    unfold inFlight. cbn. rewrite Hp. cbn.
    match goal with
    | |- match awaited ?x with _ => _ end = _ =>
        assert (Ha : awaited x = None) by (apply staleAt_awaited; exact Hs)
    end.
    rewrite Ha. reflexivity.
Qed.

Lemma next_without_events_witness :
  Reachable Example.rt (Example.after Example.refused)
  /\ 2 = _onErrorNextCbId (self (Example.after Example.refused))
  /\ step Example.rt (Example.after Example.refused) (EvNext 2 NextNothing)
     = Some (_nextAfterError 2 NextNothing (Example.after Example.refused))
  /\ step Example.rt (Example.after Example.refused) (EvNext 2 (NextEvents []))
     = Some (_nextAfterError 2 NextNothing (Example.after Example.refused)).
Proof.
  assert (H1 : 2 = _onErrorNextCbId (self (Example.after Example.refused)))
    by (vm_compute; reflexivity).
  assert (H2 : step Example.rt (Example.after Example.refused) (EvNext 2 NextNothing)
               = Some (_nextAfterError 2 NextNothing (Example.after Example.refused)))
    by (vm_compute; reflexivity).
  split; [exact Example_refused_reachable|]. split; [exact H1|]. split; [exact H2|].
  exact (proj1 (@next_without_events Example.rt _ _ 2
                  Example_refused_reachable H1 H2)).
Defined.
(** ** A token that is [null] *)

Lemma null_token_answer (rt : Runtime) (w : World) (others : list SeqToken) :
  pending w = [PDescribeLogStreams] ->
  sequenceToken (self w) = TokNull ->
  step rt w (EvDescribeLogStreams (DescribeOk (TokNull :: others)))
  = Some {| self := self w;
            pending := [PDescribeLogStreams];
            calls := calls w ++ [CallDescribeLogStreams];
            emitted := emitted w;
            hookCalls := hookCalls w;
            thrown := thrown w |}.
Proof.
  intros Hp Ht. destruct w as [s p c e h t]. cbn in Hp, Ht. subst p.
  destruct s. cbn in Ht. subst. reflexivity.
Qed.

(** X18. [_sendLogs] takes a sequence token that is [null] for no token at
    all: when [describeLogStreams] answers with a stream whose
    [uploadSequenceToken] is [null], the token is asked for again, and so on
    for as long as the answer stays the same.  After [n] such answers [n]
    more [describeLogStreams] calls have been made and nothing else has
    happened: nothing is sent or emitted, the recovery hook is not invoked
    and the stream's fields, the queue included, are what they were. *)
Theorem null_token_is_asked_again (rt : Runtime) (others : list SeqToken) (n : nat)
        (w : World) :
  pending w = [PDescribeLogStreams] ->
  sequenceToken (self w) = TokNull ->
  exists w',
    run rt w (repeat (EvDescribeLogStreams (DescribeOk (TokNull :: others))) n) = Some w'
    /\ calls w' = calls w ++ repeat CallDescribeLogStreams n
    /\ pending w' = [PDescribeLogStreams]
    /\ self w' = self w
    /\ emitted w' = emitted w
    /\ hookCalls w' = hookCalls w.
Proof.
  revert w. induction n as [|n IH]; intros w Hp Ht.
  - exists w. cbn [repeat run]. rewrite app_nil_r. repeat split; [exact Hp].
  - cbn [repeat run]. rewrite (null_token_answer rt w others Hp Ht).
    match goal with
    | |- exists w', run _ ?x _ = _ /\ _ =>
        destruct (IH x eq_refl Ht) as (w' & Hrun & Hc & Hp' & Hs & He & Hh)
    end.
    exists w'. split; [exact Hrun|]. cbn in Hc, Hs, He, Hh.
    rewrite Hc, <- app_assoc. repeat split; assumption.
Qed.

Lemma null_token_is_asked_again_witness :
  pending (Example.after Example.asking) = [PDescribeLogStreams]
  /\ sequenceToken (self (Example.after Example.asking)) = TokNull
  /\ exists w',
       run Example.rt (Example.after Example.asking)
           (repeat (EvDescribeLogStreams (DescribeOk [TokNull])) 3) = Some w'
       /\ calls w' = calls (Example.after Example.asking)
                     ++ repeat CallDescribeLogStreams 3
       /\ pending w' = [PDescribeLogStreams]
       /\ self w' = self (Example.after Example.asking)
       /\ emitted w' = emitted (Example.after Example.asking)
       /\ hookCalls w' = hookCalls (Example.after Example.asking).
Proof.
  assert (Ht : sequenceToken (self (Example.after Example.asking)) = TokNull)
    by (vm_compute; reflexivity).
  split; [exact Example_asking_pending|]. split; [exact Ht|].
  exact (@null_token_is_asked_again Example.rt [] 3 _ Example_asking_pending Ht).
Defined.
